(** * PRMSChannel: Muskingum-Mann stream-network routing

    A shallow embedding of [pynhm/hydrology/PRMSChannel.py] and the
    properties of its network builder, parameter preconditioner, lateral
    aggregator and routing kernel.

    The numeric code is written once, over an interface of float64
    operations, and instantiated twice: with exact rationals ([Q]), where
    the order and field laws hold and the invariants are proved, and with
    IEEE binary64 ([PrimFloat]), where NaN and the infinities exist and
    concrete runs reproduce numpy bit for bit. *)

From Stdlib Require Import ZArith QArith Qabs Lia Lqa String Ascii.
From Stdlib Require Import Floats.PrimFloat Numbers.Cyclic.Int63.Uint63.
From stdpp Require Import base option list gmap.

Close Scope Q_scope.
Open Scope Z_scope.

(** ** Exceptions and results *)

Inductive exn : Type :=
  | IndexError            (* numpy / list index out of bounds *)
  | ValueError            (* raised by [_calculate] on a bad calc_method *)
  | NetworkXUnfeasible    (* raised by [nx.topological_sort] on a cycle *)
  | RuntimeError.         (* networkx: graph changed during iteration *)

Inductive result (A : Type) : Type :=
  | Ok (a : A)
  | Raise (e : exn).
Arguments Ok {A} a.
Arguments Raise {A} e.

#[global] Instance result_ret : MRet result := fun A a => Ok a.
#[global] Instance result_bind : MBind result := fun A B f m =>
  match m with Ok a => f a | Raise e => Raise e end.

Definition is_Ok {A} (r : result A) : Prop := ∃ a, r = Ok a.

Fixpoint foldM {A S : Type} (f : S → A → result S) (l : list A) (s : S)
  : result S :=
  match l with
  | [] => Ok s
  | x :: l' => s' ← f s x; foldM f l' s'
  end.

(** ** Python indexing of a numpy array held as a list

    An index [i] with [0 <= i < n] addresses cell [i]; an index with
    [-n <= i < 0] wraps to [n + i]; anything else raises IndexError. *)

Definition py_index (n : nat) (i : Z) : result nat :=
  if decide (0 ≤ i < Z.of_nat n) then Ok (Z.to_nat i)
  else if decide (- Z.of_nat n ≤ i < 0) then Ok (Z.to_nat (Z.of_nat n + i))
  else Raise IndexError.

Definition getitem {A} (a : list A) (i : Z) : result A :=
  k ← py_index (length a) i;
  match a !! k with Some x => Ok x | None => Raise IndexError end.

Definition setitem {A} (a : list A) (i : Z) (x : A) : result (list A) :=
  k ← py_index (length a) i; Ok (<[k:=x]> a).

(** [a[i] = f(a[i])], the shape of [+=] and [/=] on one cell. *)
Definition moditem {A} (a : list A) (i : Z) (f : A → A) : result (list A) :=
  x ← getitem a i; setitem a i (f x).

(** numpy's integer remainder: the sign follows the divisor, and a zero
    divisor gives 0 (with a warning) instead of raising. *)
Definition np_mod (a b : Z) : Z := if decide (b = 0) then 0 else a mod b.

(** ** The float64 interface *)

Class Float64 (F : Type) : Type := {
  f_lit : Q → F;            (* a literal, correctly rounded *)
  f_add : F → F → F;
  f_sub : F → F → F;
  f_mul : F → F → F;
  f_div : F → F → F;
  f_neg : F → F;
  f_abs : F → F;
  f_ltb : F → F → bool;     (* x < y, false when unordered *)
}.

Declare Scope f64_scope.
Delimit Scope f64_scope with f64.
Infix "+" := f_add : f64_scope.
Infix "-" := f_sub : f64_scope.
Infix "*" := f_mul : f64_scope.
Infix "/" := f_div : f64_scope.
Notation "- x" := (f_neg x) : f64_scope.
Infix "<?" := f_ltb : f64_scope.

(** Exact arithmetic. Every result is kept in lowest terms ([Qred]), so
    that equal numbers are equal terms and long runs stay small. *)
#[global] Instance Q_float64 : Float64 Q := {|
  f_lit q := Qred q;
  f_add x y := Qred (Qplus x y);
  f_sub x y := Qred (Qminus x y);
  f_mul x y := Qred (Qmult x y);
  f_div x y := Qred (Qdiv x y);
  f_neg x := Qred (Qopp x);
  f_abs x := Qred (Qabs x);
  f_ltb x y := negb (Qle_bool y x);
|}.

(** IEEE binary64. A literal [n # d] is the correctly rounded quotient of
    two exactly represented integers, which is what Python's parser
    yields for the decimal literals of the source. *)
Definition float_of_Z (z : Z) : float :=
  match z with
  | Z0 => PrimFloat.zero
  | Zpos _ => PrimFloat.of_uint63 (Uint63.of_Z z)
  | Zneg p => PrimFloat.opp (PrimFloat.of_uint63 (Uint63.of_Z (Zpos p)))
  end.

#[global] Instance float_float64 : Float64 float := {|
  f_lit q := PrimFloat.div (float_of_Z (Qnum q)) (float_of_Z (Zpos (Qden q)));
  f_add := PrimFloat.add;
  f_sub := PrimFloat.sub;
  f_mul := PrimFloat.mul;
  f_div := PrimFloat.div;
  f_neg := PrimFloat.opp;
  f_abs := PrimFloat.abs;
  f_ltb := PrimFloat.ltb;
|}.

(** ** The routing kernel, [_muskingum_mann_numpy] *)

Module Kernel.
Section Kernel.
Context {F : Type} `{Float64 F}.

(** [constants.zero] *)
Definition zero : F := f_lit 0%Q.

(** The arrays the kernel allocates, mutates and returns. *)
Record kstate : Type := mk_kstate {
seg_upstream_inflow : list F;
seg_inflow0 : list F;
seg_inflow : list F;
seg_outflow : list F;
seg_outflow0 : list F;
inflow_ts : list F;
outflow_ts : list F;
seg_current_sum : list F;
}.

(** [a * zero] on a whole array. *)
Definition times_zero (a : list F) : list F := (λ x, x * zero)%f64 <$> a.

(** "initialize variables for the day" *)
Definition init_day (seg_inflow0_in outflow_ts_in : list F) : kstate := {|
seg_upstream_inflow := [];
seg_inflow0 := seg_inflow0_in;
seg_inflow := times_zero seg_inflow0_in;
seg_outflow := times_zero seg_inflow0_in;
seg_outflow0 := times_zero seg_inflow0_in;
inflow_ts := times_zero seg_inflow0_in;
outflow_ts := outflow_ts_in;
seg_current_sum := times_zero seg_inflow0_in;
|}.

Section Day.
Variables (to_segment : list Z) (seg_lateral_inflow : list F)
        (tsi : list Z) (ts c0 c1 c2 : list F).

(** The sub-step closure, the body of [if remainder == 0]. *)
Definition route_segment (jseg : Z) (st : kstate) : result kstate :=
ts_j ← getitem ts jseg;
inflow_ts1 ← moditem (inflow_ts st) jseg (λ x, x / ts_j)%f64;
tsi_j ← getitem tsi jseg;
in_j ← getitem inflow_ts1 jseg;
outflow_ts1 ←
  (if decide (tsi_j > 0) then
     c0_j ← getitem c0 jseg;
     prev_j ← getitem (seg_inflow0 st) jseg;
     c1_j ← getitem c1 jseg;
     out_j ← getitem (outflow_ts st) jseg;
     c2_j ← getitem c2 jseg;
     setitem (outflow_ts st) jseg
             (in_j * c0_j + prev_j * c1_j + out_j * c2_j)%f64
   else
     setitem (outflow_ts st) jseg in_j);
in_j' ← getitem inflow_ts1 jseg;
seg_inflow01 ← setitem (seg_inflow0 st) jseg in_j';
inflow_ts2 ← setitem inflow_ts1 jseg (f_lit 0%Q);
Ok {| seg_upstream_inflow := seg_upstream_inflow st;
      seg_inflow0 := seg_inflow01;
      seg_inflow := seg_inflow st;
      seg_outflow := seg_outflow st;
      seg_outflow0 := seg_outflow0 st;
      inflow_ts := inflow_ts2;
      outflow_ts := outflow_ts1;
      seg_current_sum := seg_current_sum st |}.

(** The body of [for jseg in segment_order], at hour [ihr]. *)
Definition segment_body (ihr : Z) (st : kstate) (jseg : Z)
: result kstate :=
lat_j ← getitem seg_lateral_inflow jseg;
up_j ← getitem (seg_upstream_inflow st) jseg;
let seg_current_inflow := (lat_j + up_j)%f64 in
seg_inflow1 ← moditem (seg_inflow st) jseg
                      (λ x, x + seg_current_inflow)%f64;
inflow_ts1 ← moditem (inflow_ts st) jseg
                     (λ x, x + seg_current_inflow)%f64;
up_j' ← getitem (seg_upstream_inflow st) jseg;
seg_current_sum1 ← moditem (seg_current_sum st) jseg
                           (λ x, x + up_j')%f64;
let st1 := {| seg_upstream_inflow := seg_upstream_inflow st;
              seg_inflow0 := seg_inflow0 st;
              seg_inflow := seg_inflow1;
              seg_outflow := seg_outflow st;
              seg_outflow0 := seg_outflow0 st;
              inflow_ts := inflow_ts1;
              outflow_ts := outflow_ts st;
              seg_current_sum := seg_current_sum1 |} in
tsi_j ← getitem tsi jseg;
let remainder := np_mod (ihr + 1) tsi_j in
st2 ← (if decide (remainder = 0) then route_segment jseg st1
       else Ok st1);
out_j ← getitem (outflow_ts st2) jseg;
seg_outflow1 ← moditem (seg_outflow st2) jseg (λ x, x + out_j)%f64;
out_j' ← getitem (outflow_ts st2) jseg;
seg_outflow01 ← setitem (seg_outflow0 st2) jseg out_j';
to_seg ← getitem to_segment jseg;
seg_upstream_inflow1 ←
  (if decide (to_seg >= 0) then
     out_j'' ← getitem (outflow_ts st2) jseg;
     moditem (seg_upstream_inflow st2) to_seg (λ x, x + out_j'')%f64
   else Ok (seg_upstream_inflow st2));
Ok {| seg_upstream_inflow := seg_upstream_inflow1;
      seg_inflow0 := seg_inflow0 st2;
      seg_inflow := seg_inflow st2;
      seg_outflow := seg_outflow1;
      seg_outflow0 := seg_outflow01;
      inflow_ts := inflow_ts st2;
      outflow_ts := outflow_ts st2;
      seg_current_sum := seg_current_sum st2 |}.

(** The body of [for ihr in range(24)]. *)
Definition hour_body (segment_order : list Z) (st : kstate) (ihr : Z)
: result kstate :=
let st0 := {| seg_upstream_inflow := times_zero (seg_inflow st);
              seg_inflow0 := seg_inflow0 st;
              seg_inflow := seg_inflow st;
              seg_outflow := seg_outflow st;
              seg_outflow0 := seg_outflow0 st;
              inflow_ts := inflow_ts st;
              outflow_ts := outflow_ts st;
              seg_current_sum := seg_current_sum st |} in
foldM (segment_body ihr) segment_order st0.

Definition hours : list Z := Z.of_nat <$> seq 0 24.

(** The state when the hour loop exits. *)
Definition day_loop (segment_order : list Z)
         (seg_inflow0_in outflow_ts_in : list F) : result kstate :=
foldM (hour_body segment_order) hours
      (init_day seg_inflow0_in outflow_ts_in).

(** The daily means and the returned tuple (as a record; the source
  returns the fields in the order seg_upstream_inflow, seg_inflow0,
  seg_inflow, seg_outflow, inflow_ts, outflow_ts, seg_current_sum). *)
Definition daily_means (st : kstate) : kstate :=
{| seg_upstream_inflow := (λ x, x / f_lit 24%Q)%f64 <$> seg_current_sum st;
   seg_inflow0 := seg_inflow0 st;
   seg_inflow := (λ x, x / f_lit 24%Q)%f64 <$> seg_inflow st;
   seg_outflow := (λ x, x / f_lit 24%Q)%f64 <$> seg_outflow st;
   seg_outflow0 := seg_outflow0 st;
   inflow_ts := inflow_ts st;
   outflow_ts := outflow_ts st;
   seg_current_sum := seg_current_sum st |}.

Definition _muskingum_mann_numpy (segment_order : list Z)
         (seg_inflow0_in outflow_ts_in : list F) : result kstate :=
st ← day_loop segment_order seg_inflow0_in outflow_ts_in;
Ok (daily_means st).
End Day.
End Kernel.
End Kernel.


(** ** networkx: [DiGraph], [add_edges_from], [topological_sort]

    The graph package is an external collaborator. A [DiGraph] keeps its
    nodes and its edges in insertion order; [topological_sort] yields the
    generations of Kahn's algorithm one after the other, and raises
    NetworkXUnfeasible at the end when nodes with pending predecessors
    remain. *)

Module Nx.
Record DiGraph : Type := mk_graph {
  nodes : list Z;
  edges : list (Z * Z);
}.

Definition empty : DiGraph := {| nodes := []; edges := [] |}.

Definition add_node (g : DiGraph) (u : Z) : DiGraph :=
  if decide (u ∈ nodes g) then g
  else {| nodes := nodes g ++ [u]; edges := edges g |}.

Definition add_edge (g : DiGraph) (e : Z * Z) : DiGraph :=
  let g1 := add_node (add_node g e.1) e.2 in
  if decide (e ∈ edges g1) then g1
  else {| nodes := nodes g1; edges := edges g1 ++ [e] |}.

Definition add_edges_from (g : DiGraph) (es : list (Z * Z)) : DiGraph :=
  foldl add_edge g es.

(** [G.neighbors(node)]: the successors, in insertion order. *)
Definition neighbors (g : DiGraph) (u : Z) : list Z :=
  (filter (λ e, e.1 = u) (edges g)).*2.

Definition in_degree (g : DiGraph) (v : Z) : nat :=
  length (filter (λ e, e.2 = v) (edges g)).

(** [indegree_map[child] -= 1], then the move to [zero_indegree] when
    the count reaches zero. A missing key is networkx's RuntimeError. *)
Definition relax (st : gmap Z nat * list Z) (child : Z)
  : result (gmap Z nat * list Z) :=
  match st.1 !! child with
  | None => Raise RuntimeError
  | Some d =>
      let d' := Nat.pred d in
      if decide (d' = 0%nat) then Ok (delete child st.1, st.2 ++ [child])
      else Ok (<[child := d']> st.1, st.2)
  end.

Definition visit (g : DiGraph) (st : gmap Z nat * list Z) (node : Z)
  : result (gmap Z nat * list Z) :=
  foldM relax (neighbors g node) st.

(** One pass of the [while zero_indegree] loop. *)
Definition process_generation (g : DiGraph) (this_generation : list Z)
           (indegree_map : gmap Z nat) : result (gmap Z nat * list Z) :=
  foldM (visit g) this_generation (indegree_map, []).

(** The loop itself. It runs at most once per node; [fuel] is that
    bound, and running out of it is reported as RuntimeError. *)
Fixpoint generations (g : DiGraph) (fuel : nat) (indegree_map : gmap Z nat)
         (zero_indegree : list Z) (yielded : list Z) : result (list Z) :=
  match zero_indegree with
  | [] => if decide (indegree_map = ∅) then Ok yielded
          else Raise NetworkXUnfeasible
  | _ :: _ =>
      match fuel with
      | O => Raise RuntimeError
      | S fuel' =>
          '(indegree_map', zero_indegree') ←
            process_generation g zero_indegree indegree_map;
          generations g fuel' indegree_map' zero_indegree'
                      (yielded ++ zero_indegree)
      end
  end.

Definition indegree_map0 (g : DiGraph) : gmap Z nat :=
  list_to_map (filter (λ vd, vd.2 ≠ 0%nat)
                      ((λ v, (v, in_degree g v)) <$> nodes g)).

Definition zero_indegree0 (g : DiGraph) : list Z :=
  filter (λ v, in_degree g v = 0%nat) (nodes g).

(** [list(nx.topological_sort(g))] *)
Definition topological_sort (g : DiGraph) : result (list Z) :=
  generations g (length (nodes g)) (indegree_map0 g) (zero_indegree0 g) [].
End Nx.

(** ** The network builder: connectivity, outflow mask, segment order *)

Module Network.
(** [self.tosegment -= 1] and [self.hru_segment -= 1] *)
Definition rebase (a : list Z) : list Z := (λ x, x - 1) <$> a.

(** The body of the connectivity loop. *)
Definition connectivity_body (tosegment : list Z)
           (st : list bool * list (Z * Z)) (iseg : Z)
  : result (list bool * list (Z * Z)) :=
  to_seg ← getitem tosegment iseg;
  if decide (to_seg < 0) then
    mask ← setitem st.1 iseg true; Ok (mask, st.2)
  else Ok (st.1, st.2 ++ [(iseg, to_seg)]).

(** [range(n)] *)
Definition range (n : nat) : list Z := Z.of_nat <$> seq 0 n.

Definition connectivity_loop (nsegment : nat) (tosegment : list Z)
  : result (list bool * list (Z * Z)) :=
  foldM (connectivity_body tosegment) (range nsegment)
        (replicate (length tosegment) false, []).

(** "use networkx to calculate the Directed Acyclic Graph" *)
Definition segment_order_of (nsegment : nat) (connectivity : list (Z * Z))
  : result (list Z) :=
  if decide (1 < nsegment)%nat then
    Nx.topological_sort (Nx.add_edges_from Nx.empty connectivity)
  else Ok [0].

(** [(outflow_mask, segment_order)] from the zero-based [tosegment]. *)
Definition build (nsegment : nat) (tosegment : list Z)
  : result (list bool * list Z) :=
  '(mask, connectivity) ← connectivity_loop nsegment tosegment;
  order ← segment_order_of nsegment connectivity;
  Ok (mask, order).

(** The edge relation of the zero-based connectivity: [u] drains to
    [v]. *)
Definition drains_to (nsegment : nat) (tosegment : list Z) (u v : Z)
  : Prop :=
  0 ≤ u < Z.of_nat nsegment ∧ tosegment !! Z.to_nat u = Some v ∧ 0 ≤ v.

Definition has_cycle (nsegment : nat) (tosegment : list Z) : Prop :=
  ∃ u, tc (drains_to nsegment tosegment) u u.

Definition out_of_range (nsegment : nat) (tosegment : list Z) : Prop :=
  ∃ i v, (i < nsegment)%nat ∧ tosegment !! i = Some v
         ∧ Z.of_nat nsegment ≤ v.

(** A segment with neither a downstream nor an upstream neighbour. *)
Definition isolated (nsegment : nat) (tosegment : list Z) (i : Z) : Prop :=
  0 ≤ i < Z.of_nat nsegment
  ∧ (∃ v, tosegment !! Z.to_nat i = Some v ∧ v < 0)
  ∧ ∀ u, ¬ drains_to nsegment tosegment u i.
End Network.

(** ** The parameter preconditioner

    Every per-segment parameter array has [nsegment] entries, so an
    elementwise numpy expression is a [zip_with] over equally long
    lists, written here array by array as in the source. [np.sqrt] and
    the power operator are parameters: no property below depends on
    what they return. *)

Module Precond.
Section Precond.
Context {F : Type} `{Float64 F}.
Variables (np_sqrt : F → F) (np_power : F → F → F).
(** [SegmentType.LAKE.value], from the constants module. *)
Variable LAKE : Z.

Local Open Scope f64_scope.

Definition velocity (mann_n seg_slope seg_depth : list F) : list F :=
(λ v, v * f_lit 60%Q * f_lit 60%Q) <$>
  zip_with f_mul
    (zip_with f_mul ((λ n, f_lit 1%Q / n) <$> mann_n)
                    (np_sqrt <$> seg_slope))
    ((λ d, np_power d (f_lit 2%Q / f_lit 3%Q)) <$> seg_depth).

(** The slope floor, applied to the stored parameter after the
  velocity has been computed. *)
Definition floor_slope (seg_slope : list F) : list F :=
(λ s, if s <? f_lit (1 # 10000000)%Q then f_lit (1 # 10000)%Q else s)
  <$> seg_slope.

Definition Kcoef_of (nsegment : nat) (segment_type : list Z)
         (seg_length velocity : list F) : list F :=
let Kcoef := replicate nsegment (f_lit 24%Q) in
let Kcoef := zip_with (λ k lv, if f_lit 0%Q <? lv.2 then lv.1 / lv.2
                               else k)
                      Kcoef (zip seg_length velocity) in
let Kcoef := zip_with (λ (t : Z) k, if decide (t = LAKE)
                                    then f_lit 24%Q else k)
                      segment_type Kcoef in
let Kcoef := (λ k, if k <? f_lit (1 # 100)%Q then f_lit (1 # 100)%Q
                   else k) <$> Kcoef in
(λ k, if f_lit 24%Q <? k then f_lit 24%Q else k) <$> Kcoef.

(** The banding loop: [(ts, tsi)] for one value of K. [ts] keeps its
  initial 1.0 in the first band. *)
Definition band (k : F) : F * Z :=
if k <? f_lit 1%Q then (f_lit 1%Q, -1)%Z
else if k <? f_lit 2%Q then (f_lit 1%Q, 1)%Z
else if k <? f_lit 3%Q then (f_lit 2%Q, 2)%Z
else if k <? f_lit 4%Q then (f_lit 3%Q, 3)%Z
else if k <? f_lit 6%Q then (f_lit 4%Q, 4)%Z
else if k <? f_lit 8%Q then (f_lit 6%Q, 6)%Z
else if k <? f_lit 12%Q then (f_lit 8%Q, 8)%Z
else if k <? f_lit 24%Q then (f_lit 12%Q, 12)%Z
else (f_lit 24%Q, 24)%Z.

Definition ts_of (Kcoef : list F) : list F := (λ k, (band k).1) <$> Kcoef.
Definition tsi_of (Kcoef : list F) : list Z := (λ k, (band k).2) <$> Kcoef.

Definition half (ts : list F) : list F := (λ t, f_lit (1 # 2)%Q * t) <$> ts.

Definition d_of (Kcoef x_coef ts : list F) : list F :=
let d := zip_with f_add
           (zip_with f_sub Kcoef (zip_with f_mul Kcoef x_coef))
           (half ts) in
(λ d, if f_abs d <? f_lit (1 # 1000000)%Q then f_lit (1 # 10000)%Q
      else d) <$> d.

Definition c0_raw (Kcoef x_coef ts : list F) : list F :=
zip_with f_div
  (zip_with f_add (f_neg <$> zip_with f_mul Kcoef x_coef) (half ts))
  (d_of Kcoef x_coef ts).

Definition c1_raw (Kcoef x_coef ts : list F) : list F :=
zip_with f_div
  (zip_with f_add (zip_with f_mul Kcoef x_coef) (half ts))
  (d_of Kcoef x_coef ts).

Definition c2_raw (Kcoef x_coef ts : list F) : list F :=
zip_with f_div
  (zip_with f_sub
     (zip_with f_sub Kcoef (zip_with f_mul Kcoef x_coef)) (half ts))
  (d_of Kcoef x_coef ts).

(** [c1[idx] += c[idx]] with [idx = c < 0.0] *)
Definition absorb (c1 c : list F) : list F :=
zip_with (λ a b, if b <? f_lit 0%Q then a + b else a) c1 c.

(** [c[idx] = 0.0] with [idx = c < 0.0] *)
Definition clamp0 (c : list F) : list F :=
(λ b, if b <? f_lit 0%Q then f_lit 0%Q else b) <$> c.

(** The coefficients after "Short travel time" and then "Long travel
  time". *)
Definition c2_of (Kcoef x_coef ts : list F) : list F :=
clamp0 (c2_raw Kcoef x_coef ts).
Definition c0_of (Kcoef x_coef ts : list F) : list F :=
clamp0 (c0_raw Kcoef x_coef ts).
Definition c1_of (Kcoef x_coef ts : list F) : list F :=
absorb (absorb (c1_raw Kcoef x_coef ts) (c2_raw Kcoef x_coef ts))
       (c0_raw Kcoef x_coef ts).
End Precond.
End Precond.

(** ** [str.lower] on the ASCII range *)

Definition lower_ascii (c : ascii) : ascii :=
  let n := nat_of_ascii c in
  if ((65 <=? n)%nat && (n <=? 90)%nat)%bool then ascii_of_nat (n + 32)
  else c.

Fixpoint lower (s : string) : string :=
  match s with
  | EmptyString => EmptyString
  | String c s' => String (lower_ascii c) (lower s')
  end.

(** [str(calc_method)], where the argument defaults to [None]. *)
Definition py_str (calc_method : option string) : string :=
  match calc_method with Some s => s | None => "None"%string end.

(** ** The engine: [class PRMSChannel] *)

Module Params.
(** The parameters the routing core reads, as loaded (one-based
    [hru_segment] and [tosegment]). *)
Record t (F : Type) : Type := mk {
  nhru : nat;
  nsegment : nat;
  hru_segment : list Z;
  tosegment : list Z;
  mann_n : list F;
  seg_depth : list F;
  seg_length : list F;
  seg_slope : list F;
  segment_type : list Z;
  x_coef : list F;
  segment_flow_init : list F;
}.
Arguments mk {F}.
Arguments nhru {F}. Arguments nsegment {F}. Arguments hru_segment {F}.
Arguments tosegment {F}. Arguments mann_n {F}. Arguments seg_depth {F}.
Arguments seg_length {F}. Arguments seg_slope {F}.
Arguments segment_type {F}. Arguments x_coef {F}.
Arguments segment_flow_init {F}.
End Params.

Module Engine.
Section Engine.
Context {F : Type} `{Float64 F}.
Variables (np_sqrt : F → F) (np_power : F → F → F) (LAKE : Z).
(** [constants.nan] *)
Variable nan : F.

Local Open Scope f64_scope.

(** The attributes of [self]. *)
Record t : Type := mk {
params : Params.t F;
_calc_method : string;
(* inputs, held through adapters and written in place *)
sroff_vol : list F;
ssres_flow_vol : list F;
gwres_flow_vol : list F;
(* channel data *)
_outflow_mask : list bool;
_segment_order : list Z;
_Kcoef : list F;
_ts : list F;
_tsi : list Z;
_c0 : list F;
_c1 : list F;
_c2 : list F;
(* local flow variables *)
_seg_inflow : list F;
_seg_inflow0 : list F;
_inflow_ts : list F;
_outflow_ts : list F;
_seg_current_sum : list F;
(* variables *)
channel_outflow_vol : list F;
seg_lateral_inflow : list F;
seg_upstream_inflow : list F;
seg_outflow : list F;
seg_stor_change : list F;
}.

(** The body of the loop "initialize internal self_inflow variable". *)
Definition seed_body (tosegment : list Z) (seg_outflow : list F)
         (_seg_inflow : list F) (iseg : Z) : result (list F) :=
jseg ← getitem tosegment iseg;
if decide (jseg < 0) then Ok _seg_inflow
else
  q ← getitem seg_outflow iseg;
  setitem _seg_inflow jseg q.

Definition seed_inflow (nsegment : nat) (tosegment : list Z)
         (seg_outflow : list F) : result (list F) :=
foldM (seed_body tosegment seg_outflow) (Network.range nsegment)
      (replicate nsegment (f_lit 0%Q)).

Definition _initialize_channel_data (self : t) : result t :=
let p := params self in
let n := Params.nsegment p in
(* convert prms data to zero-based *)
let hru_segment := Network.rebase (Params.hru_segment p) in
let tosegment := Network.rebase (Params.tosegment p) in
(* connectivity and segment order *)
'(mask, order) ← Network.build n tosegment;
(* the Muskingum parameters *)
let velocity := Precond.velocity np_sqrt np_power (Params.mann_n p)
                  (Params.seg_slope p) (Params.seg_depth p) in
let seg_slope := Precond.floor_slope (Params.seg_slope p) in
let Kcoef := Precond.Kcoef_of LAKE n (Params.segment_type p)
               (Params.seg_length p) velocity in
let ts := Precond.ts_of Kcoef in
let tsi := Precond.tsi_of Kcoef in
let x := Params.x_coef p in
(* local flow variables *)
seeded ← seed_inflow n tosegment (seg_outflow self);
Ok {| params := Params.mk (Params.nhru p) n hru_segment tosegment
                  (Params.mann_n p) (Params.seg_depth p)
                  (Params.seg_length p) seg_slope
                  (Params.segment_type p) x
                  (Params.segment_flow_init p);
      _calc_method := _calc_method self;
      sroff_vol := sroff_vol self;
      ssres_flow_vol := ssres_flow_vol self;
      gwres_flow_vol := gwres_flow_vol self;
      _outflow_mask := mask;
      _segment_order := order;
      _Kcoef := Kcoef;
      _ts := ts;
      _tsi := tsi;
      _c0 := Precond.c0_of Kcoef x ts;
      _c1 := Precond.c1_of Kcoef x ts;
      _c2 := Precond.c2_of Kcoef x ts;
      _seg_inflow := seeded;
      _seg_inflow0 := (λ z, z * nan) <$> replicate n (f_lit 0%Q);
      _inflow_ts := replicate n (f_lit 0%Q);
      _outflow_ts := replicate n (f_lit 0%Q);
      _seg_current_sum := replicate n (f_lit 0%Q);
      channel_outflow_vol := channel_outflow_vol self;
      seg_lateral_inflow := seg_lateral_inflow self;
      seg_upstream_inflow := seg_upstream_inflow self;
      seg_outflow := seg_outflow self;
      seg_stor_change := seg_stor_change self |}.

(** [__init__]. The base class allocates one array of [nsegment]
  entries per variable, filled with the value [get_init_values]
  names, and runs [_set_initial_conditions], which points
  [seg_outflow] at [segment_flow_init]; [_initialize_channel_data]
  comes last. *)
Definition __init__ (p : Params.t F)
         (sroff_vol ssres_flow_vol gwres_flow_vol : list F)
         (calc_method : option string) : result t :=
let n := Params.nsegment p in
_initialize_channel_data
  {| params := p;
     _calc_method := py_str calc_method;
     sroff_vol := sroff_vol;
     ssres_flow_vol := ssres_flow_vol;
     gwres_flow_vol := gwres_flow_vol;
     _outflow_mask := []; _segment_order := []; _Kcoef := [];
     _ts := []; _tsi := []; _c0 := []; _c1 := []; _c2 := [];
     _seg_inflow := []; _seg_inflow0 := []; _inflow_ts := [];
     _outflow_ts := []; _seg_current_sum := [];
     channel_outflow_vol := replicate n nan;
     seg_lateral_inflow := replicate n Kernel.zero;
     seg_upstream_inflow := replicate n Kernel.zero;
     seg_outflow := Params.segment_flow_init p;
     seg_stor_change := replicate n Kernel.zero |}.

Definition _advance_variables (self : t) : t :=
{| params := params self;
   _calc_method := _calc_method self;
   sroff_vol := sroff_vol self;
   ssres_flow_vol := ssres_flow_vol self;
   gwres_flow_vol := gwres_flow_vol self;
   _outflow_mask := _outflow_mask self;
   _segment_order := _segment_order self;
   _Kcoef := _Kcoef self;
   _ts := _ts self;
   _tsi := _tsi self;
   _c0 := _c0 self;
   _c1 := _c1 self;
   _c2 := _c2 self;
   _seg_inflow := _seg_inflow self;
   _seg_inflow0 := _seg_inflow self;
   _inflow_ts := _inflow_ts self;
   _outflow_ts := _outflow_ts self;
   _seg_current_sum := _seg_current_sum self;
   channel_outflow_vol := channel_outflow_vol self;
   seg_lateral_inflow := seg_lateral_inflow self;
   seg_upstream_inflow := seg_upstream_inflow self;
   seg_outflow := seg_outflow self;
   seg_stor_change := seg_stor_change self |}.

(** *** The lateral aggregation at the head of [_calculate] *)

Record lateral : Type := mk_lateral {
l_sroff_vol : list F;
l_ssres_flow_vol : list F;
l_gwres_flow_vol : list F;
l_seg_lateral_inflow : list F;
}.

Definition lateral_body (hru_segment : list Z) (s_per_time : F)
         (st : lateral) (ihru : Z) : result lateral :=
iseg ← getitem hru_segment ihru;
if decide (iseg < 0) then
  a ← setitem (l_sroff_vol st) ihru Kernel.zero;
  b ← setitem (l_ssres_flow_vol st) ihru Kernel.zero;
  c ← setitem (l_gwres_flow_vol st) ihru Kernel.zero;
  Ok {| l_sroff_vol := a; l_ssres_flow_vol := b;
        l_gwres_flow_vol := c;
        l_seg_lateral_inflow := l_seg_lateral_inflow st |}
else
  a ← getitem (l_sroff_vol st) ihru;
  b ← getitem (l_ssres_flow_vol st) ihru;
  c ← getitem (l_gwres_flow_vol st) ihru;
  let lateral_inflow := (a + b + c) / s_per_time in
  lat ← moditem (l_seg_lateral_inflow st) iseg (λ x, x + lateral_inflow);
  Ok {| l_sroff_vol := l_sroff_vol st;
        l_ssres_flow_vol := l_ssres_flow_vol st;
        l_gwres_flow_vol := l_gwres_flow_vol st;
        l_seg_lateral_inflow := lat |}.

Definition lateral_flow (nhru : nat) (hru_segment : list Z)
         (s_per_time : F) (sroff ssres gwres lat : list F)
: result lateral :=
foldM (lateral_body hru_segment s_per_time) (Network.range nhru)
      {| l_sroff_vol := sroff; l_ssres_flow_vol := ssres;
         l_gwres_flow_vol := gwres;
         l_seg_lateral_inflow := (λ _, f_lit 0%Q) <$> lat |}.

(** *** The kernel selected by [calc_method] *)

Definition kernel_type : Type :=
list Z → list Z → list F → list F → list F → list Z →
list F → list F → list F → list F → result (Kernel.kstate (F:=F)).

Definition numpy_kernel : kernel_type :=
λ segment_order to_segment seg_lateral_inflow seg_inflow0 outflow_ts
  tsi ts c0 c1 c2,
  Kernel._muskingum_mann_numpy to_segment seg_lateral_inflow tsi ts
    c0 c1 c2 segment_order seg_inflow0 outflow_ts.

(** The compiled variants are not part of this file: the jitted one
  and the Fortran one are parameters. *)
Variables (_muskingum_mann_numba _calculate_fortran : kernel_type).

Definition select_kernel (calc_method : string) : result kernel_type :=
let m := lower calc_method in
if decide (m = "numba"%string) then Ok _muskingum_mann_numba
else if decide (m = "none"%string ∨ m = "numpy"%string)
     then Ok numpy_kernel
else if decide (m = "fortran"%string) then Ok _calculate_fortran
else Raise ValueError.

Definition _calculate (self : t) (s_per_time : F) : result t :=
let p := params self in
(* calculate lateral flow term *)
lat ← lateral_flow (Params.nhru p) (Params.hru_segment p) s_per_time
        (sroff_vol self) (ssres_flow_vol self) (gwres_flow_vol self)
        (seg_lateral_inflow self);
(* solve muskingum_mann routing *)
kernel ← select_kernel (_calc_method self);
r ← kernel (_segment_order self) (Params.tosegment p)
           (l_seg_lateral_inflow lat) (_seg_inflow0 self)
           (_outflow_ts self) (_tsi self) (_ts self)
           (_c0 self) (_c1 self) (_c2 self);
let seg_inflow := Kernel.seg_inflow r in
let seg_outflow := Kernel.seg_outflow r in
Ok {| params := p;
      _calc_method := _calc_method self;
      sroff_vol := l_sroff_vol lat;
      ssres_flow_vol := l_ssres_flow_vol lat;
      gwres_flow_vol := l_gwres_flow_vol lat;
      _outflow_mask := _outflow_mask self;
      _segment_order := _segment_order self;
      _Kcoef := _Kcoef self;
      _ts := _ts self;
      _tsi := _tsi self;
      _c0 := _c0 self;
      _c1 := _c1 self;
      _c2 := _c2 self;
      _seg_inflow := seg_inflow;
      _seg_inflow0 := Kernel.seg_inflow0 r;
      _inflow_ts := Kernel.inflow_ts r;
      _outflow_ts := Kernel.outflow_ts r;
      _seg_current_sum := Kernel.seg_current_sum r;
      channel_outflow_vol :=
        (λ q, q * s_per_time) <$>
          zip_with (λ (m : bool) q, if m then q else Kernel.zero)
                   (_outflow_mask self) seg_outflow;
      seg_lateral_inflow := l_seg_lateral_inflow lat;
      seg_upstream_inflow := Kernel.seg_upstream_inflow r;
      seg_outflow := seg_outflow;
      seg_stor_change :=
        (λ q, q * s_per_time) <$> zip_with f_sub seg_inflow seg_outflow
   |}.
End Engine.
End Engine.

(** ** Specification-level vocabulary *)


(** The strides the banding loop can produce. *)
Definition valid_tsi (k : Z) : Prop :=
  k ∈ [-1; 1; 2; 3; 4; 6; 8; 12; 24].

(** The lateral inflow of segment [s] as the specification words it: the
    sum, over the HRUs [h] in index order with [hru_segment[h] == s], of
    [(sroff_vol[h] + ssres_flow_vol[h] + gwres_flow_vol[h]) / s_per_time],
    starting from 0.0. *)
Definition lateral_sum {F} `{Float64 F} (hru_segment : list Z)
           (sroff ssres gwres : list F) (s_per_time : F) (s : Z)
           (hrus : list nat) : F :=
  foldl (λ acc h,
           match hru_segment !! h, sroff !! h, ssres !! h, gwres !! h with
           | Some iseg, Some a, Some b, Some c =>
               if decide (iseg = s) then (acc + (a + b + c) / s_per_time)%f64
               else acc
           | _, _, _, _ => acc
           end)
        (f_lit 0%Q) hrus.

(** Exact stand-ins for [np.sqrt] and the power operator in closed
    examples over [Q]: the root is exact on squares of rationals, the
    power is exact for base 1 (it returns the base otherwise). The
    examples below use slope 1/100 and depth 1 only. *)
Definition q_sqrt (x : Q) : Q := Z.sqrt (Qnum x) # Pos.sqrt (Qden x).
Definition q_power (x y : Q) : Q := x.

(** A two-segment chain 0 -> 1 -> out, with K = 5 h on both segments
    (stride 4): Manning n = 0.05, depth 1 ft, length 36000 ft, slope
    0.01, x = 0.2, no initial flow; HRU 0 drains to segment 0, HRU 1 to
    segment 1. *)
Definition chain2 : Params.t Q :=
  Params.mk 2%nat 2%nat [1; 2] [2; 0]
            [(1 # 20)%Q; (1 # 20)%Q] [1%Q; 1%Q] [36000%Q; 36000%Q]
            [(1 # 100)%Q; (1 # 100)%Q] [0; 0]
            [(1 # 5)%Q; (1 # 5)%Q] [0%Q; 0%Q].

(** The compiled kernels are absent from closed examples. *)
Definition no_kernel : Engine.kernel_type (F:=Q) :=
  λ _ _ _ _ _ _ _ _ _ _, Raise RuntimeError.

(** [chain2] built with calc_method [cm], one cubic foot per second of
    surface runoff on HRU 0. *)
Definition chain2_engine (cm : option string) : result (Engine.t (F:=Q)) :=
  Engine.__init__ q_sqrt q_power 2 0%Q chain2
                  [86400%Q; 0%Q] [0%Q; 0%Q] [0%Q; 0%Q] cm.

(** One outer step of a day: advance, then calculate. *)
Definition chain2_step (e : Engine.t (F:=Q)) : result (Engine.t (F:=Q)) :=
  Engine._calculate no_kernel no_kernel (Engine._advance_variables e)
                    86400%Q.

(** What the seeding loop has established after its first [k] passes:
    a cell with an upstream segment among the first [k] holds the
    outflow of the last of them, every other cell is still zero. *)
Definition seeded_upto {F} `{Float64 F} (n : nat) (tosegment : list Z)
           (seg_outflow : list F) (k : nat) (acc : list F) : Prop :=
  length acc = n
  ∧ (∀ (i : nat) (j : Z), (i < k)%nat → tosegment !! i = Some j → 0 ≤ j →
       (∀ i', (i < i' < k)%nat → tosegment !! i' ≠ Some j) →
       ∃ q, seg_outflow !! i = Some q ∧ acc !! Z.to_nat j = Some q)
  ∧ (∀ j : nat, (j < n)%nat →
       (∀ i, (i < k)%nat → tosegment !! i ≠ Some (Z.of_nat j)) →
       acc !! j = Some (f_lit 0%Q)).

(** Two headwater segments with initial flows 3 and 5 drain to segment
    2; its seeded inflow is 5, not 8. *)
Definition confluence : Params.t Q :=
  Params.mk 0%nat 3%nat [] [3; 3; 0]
            [(1 # 20)%Q; (1 # 20)%Q; (1 # 20)%Q] [1%Q; 1%Q; 1%Q]
            [36000%Q; 36000%Q; 36000%Q]
            [(1 # 100)%Q; (1 # 100)%Q; (1 # 100)%Q] [0; 0; 0]
            [(1 # 5)%Q; (1 # 5)%Q; (1 # 5)%Q] [3%Q; 5%Q; 0%Q].

(** An input array after the first [k] passes of the lateral loop: the
    entries of the HRUs met so far that drain nowhere are zero, every
    other entry is the caller's. *)
Definition zero_orphans {F} `{Float64 F} (hru_segment : list Z) (k : nat)
           (a : list F) : list F :=
  imap (λ h x, match hru_segment !! h with
               | Some iseg => if decide ((h < k)%nat ∧ iseg < 0)
                              then Kernel.zero else x
               | None => x
               end) a.

(** What the lateral loop has established after its first [k] passes. *)
Definition lateral_upto {F} `{Float64 F} (hru_segment : list Z)
           (s_per_time : F) (sroff ssres gwres lat0 : list F)
           (k : nat) (st : Engine.lateral (F:=F)) : Prop :=
  length (Engine.l_seg_lateral_inflow st) = length lat0
  ∧ (∀ s : nat, (s < length lat0)%nat →
       Engine.l_seg_lateral_inflow st !! s
       = Some (lateral_sum hru_segment sroff ssres gwres s_per_time
                           (Z.of_nat s) (seq 0 k)))
  ∧ Engine.l_sroff_vol st = zero_orphans hru_segment k sroff
  ∧ Engine.l_ssres_flow_vol st = zero_orphans hru_segment k ssres
  ∧ Engine.l_gwres_flow_vol st = zero_orphans hru_segment k gwres.

(** The outcome of the lateral aggregation as the specification words
    it: every segment holds its sum; the three inputs of an HRU that
    drains nowhere are zero; the inputs of a mapped HRU are the
    caller's. *)
Definition aggregated {F} `{Float64 F} (nhru : nat) (hru_segment : list Z)
           (s_per_time : F) (sroff ssres gwres lat0 : list F)
           (r : Engine.lateral (F:=F)) : Prop :=
  (∀ s : nat, (s < length lat0)%nat →
     Engine.l_seg_lateral_inflow r !! s
     = Some (lateral_sum hru_segment sroff ssres gwres s_per_time
                         (Z.of_nat s) (seq 0 nhru)))
  ∧ (∀ (h : nat) iseg, (h < nhru)%nat → hru_segment !! h = Some iseg →
       iseg < 0 →
       Engine.l_sroff_vol r !! h = Some Kernel.zero
       ∧ Engine.l_ssres_flow_vol r !! h = Some Kernel.zero
       ∧ Engine.l_gwres_flow_vol r !! h = Some Kernel.zero)
  ∧ (∀ (h : nat) iseg, hru_segment !! h = Some iseg → 0 ≤ iseg →
       Engine.l_sroff_vol r !! h = sroff !! h
       ∧ Engine.l_ssres_flow_vol r !! h = ssres !! h
       ∧ Engine.l_gwres_flow_vol r !! h = gwres !! h).

(** *** Invariants of the routing kernel *)

(** A property of numbers that zero and 24.0 have and that sums,
    products and quotients keep. *)
Definition closed_under {F} `{Float64 F} (P : F → Prop) : Prop :=
  P (f_lit 0%Q) ∧ P (f_lit 24%Q)
  ∧ (∀ x y, P x → P y → P (x + y)%f64)
  ∧ (∀ x y, P x → P y → P (x * y)%f64)
  ∧ (∀ x y, P x → P y → P (x / y)%f64).

(** An array of [n] cells that all have [P]. *)
Definition array_of {A} (n : nat) (P : A → Prop) (a : list A) : Prop :=
  length a = n ∧ Forall P a.

(** The kernel's read-only arguments: [n] segments, downstream indices
    below [n], a segment order within [0, n), and [P] on the numbers. *)
Definition kernel_args {F} `{Float64 F} (n : nat) (P : F → Prop)
           (segment_order to_segment : list Z) (seg_lateral_inflow : list F)
           (tsi : list Z) (ts c0 c1 c2 : list F) : Prop :=
  Forall (λ j, 0 ≤ j < Z.of_nat n) segment_order
  ∧ array_of n (λ v, v < Z.of_nat n) to_segment
  ∧ array_of n P seg_lateral_inflow
  ∧ length tsi = n
  ∧ array_of n P ts ∧ array_of n P c0 ∧ array_of n P c1 ∧ array_of n P c2.

(** The arrays that live across hours. *)
Definition day_inv {F} `{Float64 F} (n : nat) (P : F → Prop)
           (st : Kernel.kstate (F:=F)) : Prop :=
  array_of n P (Kernel.seg_inflow0 st)
  ∧ array_of n P (Kernel.seg_inflow st)
  ∧ array_of n P (Kernel.seg_outflow st)
  ∧ array_of n P (Kernel.seg_outflow0 st)
  ∧ array_of n P (Kernel.inflow_ts st)
  ∧ array_of n P (Kernel.outflow_ts st)
  ∧ array_of n P (Kernel.seg_current_sum st).

(** ... and the hour's upstream buffer with them. *)
Definition seg_inv {F} `{Float64 F} (n : nat) (P : F → Prop)
           (st : Kernel.kstate (F:=F)) : Prop :=
  day_inv n P st ∧ array_of n P (Kernel.seg_upstream_inflow st).

(** Every stride closes a sub-step at hour [ihr]. *)
Definition all_close (tsi : list Z) (ihr : Z) : Prop :=
  Forall (λ t, np_mod (ihr + 1) t = 0) tsi.

(** *** The Muskingum coefficients of one segment, as the specification
    writes them: [d = K - K x + 0.5 ts], replaced by 0.0001 when
    [|d| < 1e-6]; then [c0 = (-K x + 0.5 ts) / d],
    [c1 = (K x + 0.5 ts) / d], [c2 = (K - K x - 0.5 ts) / d]. *)
Definition d_at {F} `{Float64 F} (k x t : F) : F :=
  let d := (k - k * x + f_lit (1 # 2)%Q * t)%f64 in
  if (f_abs d <? f_lit (1 # 1000000)%Q)%f64 then f_lit (1 # 10000)%Q else d.
Definition c0_at {F} `{Float64 F} (k x t : F) : F :=
  ((- (k * x) + f_lit (1 # 2)%Q * t) / d_at k x t)%f64.
Definition c1_at {F} `{Float64 F} (k x t : F) : F :=
  ((k * x + f_lit (1 # 2)%Q * t) / d_at k x t)%f64.
Definition c2_at {F} `{Float64 F} (k x t : F) : F :=
  ((k - k * x - f_lit (1 # 2)%Q * t) / d_at k x t)%f64.

(** The two corrections on one segment, in the order of the source. *)
Definition c1_corrected {F} `{Float64 F} (k x t : F) : F :=
  let c1 := if (c2_at k x t <? f_lit 0%Q)%f64
            then (c1_at k x t + c2_at k x t)%f64 else c1_at k x t in
  if (c0_at k x t <? f_lit 0%Q)%f64 then (c1 + c0_at k x t)%f64 else c1.

(** *** Graphs and Kahn's algorithm *)

(** The edge relation of a graph, and a cycle in it. *)
Definition gedge (g : Nx.DiGraph) (u v : Z) : Prop := (u, v) ∈ Nx.edges g.
Definition cyclic (g : Nx.DiGraph) : Prop := ∃ u, tc (gedge g) u u.

(** The graphs [add_edges_from] builds from a connectivity list: no
    node twice, at most one edge out of a node, both ends of an edge
    among the nodes. *)
Definition functional (g : Nx.DiGraph) : Prop :=
  NoDup (Nx.nodes g) ∧ NoDup (Nx.edges g).*1
  ∧ ∀ u v, (u, v) ∈ Nx.edges g → u ∈ Nx.nodes g ∧ v ∈ Nx.nodes g.

(** The in-edges of [v] whose source is not among the nodes [D] already
    visited. *)
Definition pending (g : Nx.DiGraph) (D : list Z) (v : Z) : nat :=
  length (filter (λ e, e.2 = v ∧ e.1 ∉ D) (Nx.edges g)).

(** [l] lists upstream before downstream: whoever has an edge into an
    entry of [l] stands before it. *)
Definition upstream_first (g : Nx.DiGraph) (l : list Z) : Prop :=
  ∀ l1 v l2 u, l = l1 ++ v :: l2 → gedge g u v → u ∈ l1.

(** The state of Kahn's algorithm: [D] the nodes visited so far, in
    order, [Q] the nodes waiting (the rest of this generation, then the
    next one), [imap] the counts of pending in-edges. [C] is any set of
    nodes each of which has a predecessor in [C]; no such node is ever
    visited or queued. *)
Definition kahn_inv (g : Nx.DiGraph) (C : Z → Prop) (imap : gmap Z nat)
           (D Q : list Z) : Prop :=
  NoDup (D ++ Q)
  ∧ (∀ v, v ∈ D ++ Q → v ∈ Nx.nodes g)
  ∧ (∀ v, imap !! v = if decide (pending g D v = 0%nat) then None
                      else Some (pending g D v))
  ∧ (∀ v, v ∈ Nx.nodes g → v ∈ D ++ Q ↔ pending g D v = 0%nat)
  ∧ (∀ v, v ∈ D ++ Q → ¬ C v)
  ∧ upstream_first g D.

(** What the connectivity loop has established after its first [k]
    passes: the mask marks the segments met so far that drain nowhere,
    and the list holds the edges out of the others, one per source. *)
Definition connected_upto (tosegment : list Z) (k : nat)
           (mask : list bool) (conn : list (Z * Z)) : Prop :=
  length mask = length tosegment
  ∧ NoDup conn.*1
  ∧ (∀ u v, (u, v) ∈ conn ↔ Network.drains_to k tosegment u v)
  ∧ (∀ i : nat, mask !! i = Some true
                ↔ (i < k)%nat ∧ ∃ v, tosegment !! i = Some v ∧ v < 0).

(** The segment order the builder can produce for more than one
    segment: the segments that have an edge, each once, upstream
    first. *)
Definition ordered_segments (nsegment : nat) (tosegment : list Z)
           (order : list Z) : Prop :=
  NoDup order
  ∧ (∀ v, v ∈ order ↔ ∃ u, Network.drains_to nsegment tosegment v u
                           ∨ Network.drains_to nsegment tosegment u v)
  ∧ (∀ l1 v l2 u, order = l1 ++ v :: l2 →
                  Network.drains_to nsegment tosegment u v → u ∈ l1).

(** Two segments that both flow out of the domain (one-based
    tosegment 0 and 0): neither has an edge. *)
Definition two_outlets : Params.t Q :=
  Params.mk 2%nat 2%nat [1; 2] [0; 0]
            [(1 # 20)%Q; (1 # 20)%Q] [1%Q; 1%Q] [36000%Q; 36000%Q]
            [(1 # 100)%Q; (1 # 100)%Q] [0; 0]
            [(1 # 5)%Q; (1 # 5)%Q] [0%Q; 0%Q].


(** *** Vocabulary of the further properties *)

(** K of one segment: length over velocity where the velocity is
    positive, 24 otherwise and on lakes, then clamped to [0.01, 24]. *)
Definition K_at {F} `{Float64 F} (LAKE t : Z) (len v : F) : F :=
  let k := if (f_lit 0%Q <? v)%f64 then (len / v)%f64 else f_lit 24%Q in
  let k := if decide (t = LAKE) then f_lit 24%Q else k in
  let k := if (k <? f_lit (1 # 100)%Q)%f64 then f_lit (1 # 100)%Q else k in
  if (f_lit 24%Q <? k)%f64 then f_lit 24%Q else k.

(** A coefficient after its clamp at zero. *)
Definition clamped {F} `{Float64 F} (c : F) : F :=
  if (c <? f_lit 0%Q)%f64 then f_lit 0%Q else c.

(** A computation whose only exception is IndexError. *)
Definition index_error_only {A} (m : result A) : Prop :=
  ∀ e, m = Raise e → e = IndexError.

(** The outflow a sub-step closes with: the Muskingum recurrence on a
    positive stride, the averaged inflow itself on a pass-through
    segment. *)
Definition closing {F} `{Float64 F} (tsi_j : Z)
           (in_j c0_j c1_j c2_j prev_j out_j : F) : F :=
  if decide (tsi_j > 0)
  then (in_j * c0_j + prev_j * c1_j + out_j * c2_j)%f64
  else in_j.

(** How often [j] stands in the segment order. *)
Definition times_in (l : list Z) (j : Z) : nat :=
  length (filter (λ x, x = j) l).

(** A count as a rational. *)
Definition Qn (m : nat) : Q := inject_Z (Z.of_nat m).

(** The flows [a] of the segments that drain to [j], added up. *)
Definition upstream_total (to_segment : list Z) (a : list Q) (j : Z) : Q :=
  foldr Qplus 0%Q
        (zip_with (λ (t : Z) x, if decide (t = j) then x else 0%Q)
                  to_segment a).

(** An HRU among the first [nhru] whose segment index is [nseg] or
    more. *)
Definition hru_out_of_range (nhru : nat) (hru_segment : list Z)
           (nseg : nat) : Prop :=
  ∃ (h : nat) iseg, (h < nhru)%nat ∧ hru_segment !! h = Some iseg
                    ∧ Z.of_nat nseg ≤ iseg.

(** [k] outer steps with the inputs held: advance, then calculate. *)
Fixpoint run {F} `{Float64 F} (numba fortran : Engine.kernel_type (F:=F))
         (k : nat) (e : Engine.t (F:=F)) (s_per_time : F)
  : result (Engine.t (F:=F)) :=
  match k with
  | O => Ok e
  | S k' =>
      e' ← Engine._calculate numba fortran (Engine._advance_variables e)
             s_per_time;
      run numba fortran k' e' s_per_time
  end.

(** The engine between two outer steps, in exact arithmetic: the
    reference kernel is selected, the network indices are in range, and
    strides, coefficients and the carried flows are non-negative arrays
    of [nsegment] entries. *)
Definition engine_ok (e : Engine.t (F:=Q)) : Prop :=
  let p := Engine.params e in
  let n := Params.nsegment p in
  let nonneg := λ v : Q, (0 <= v)%Q in
  (lower (Engine._calc_method e) = "none"%string
   ∨ lower (Engine._calc_method e) = "numpy"%string)
  ∧ Forall (λ j, 0 ≤ j < Z.of_nat n) (Engine._segment_order e)
  ∧ array_of n (λ v, v < Z.of_nat n) (Params.tosegment p)
  ∧ length (Engine._tsi e) = n
  ∧ array_of n nonneg (Engine._ts e)
  ∧ array_of n nonneg (Engine._c0 e)
  ∧ array_of n nonneg (Engine._c1 e)
  ∧ array_of n nonneg (Engine._c2 e)
  ∧ array_of n nonneg (Engine._seg_inflow e)
  ∧ array_of n nonneg (Engine._outflow_ts e)
  ∧ length (Engine.seg_lateral_inflow e) = n
  ∧ (Params.nhru p ≤ length (Params.hru_segment p))%nat
  ∧ ∀ (h : nat) iseg, (h < Params.nhru p)%nat →
                      Params.hru_segment p !! h = Some iseg →
                      iseg < Z.of_nat n.

(** Non-negative inputs, one per HRU at least. *)
Definition inputs_ok (e : Engine.t (F:=Q)) : Prop :=
  let k := Params.nhru (Engine.params e) in
  ((k ≤ length (Engine.sroff_vol e))%nat
   ∧ Forall (λ v, (0 <= v)%Q) (Engine.sroff_vol e))
  ∧ ((k ≤ length (Engine.ssres_flow_vol e))%nat
     ∧ Forall (λ v, (0 <= v)%Q) (Engine.ssres_flow_vol e))
  ∧ ((k ≤ length (Engine.gwres_flow_vol e))%nat
     ∧ Forall (λ v, (0 <= v)%Q) (Engine.gwres_flow_vol e)).

(** The state of segment [j] after [k] hours at the equilibrium [L]: the
    two daily accumulators hold [k L], the sub-step accumulator holds
    [m L], and outflow_ts and seg_inflow0 hold [L]. *)
Definition steady (j : nat) (L : Q) (k : nat) (m : Z)
           (st : Kernel.kstate (F:=Q)) : Prop :=
  ∃ a o b w p,
    Kernel.seg_inflow st !! j = Some a
    ∧ Kernel.seg_outflow st !! j = Some o
    ∧ Kernel.inflow_ts st !! j = Some b
    ∧ Kernel.outflow_ts st !! j = Some w
    ∧ Kernel.seg_inflow0 st !! j = Some p
    ∧ (a == Qn k * L)%Q ∧ (o == Qn k * L)%Q ∧ (b == inject_Z m * L)%Q
    ∧ (w == L)%Q ∧ (p == L)%Q.

(** Three segments for closed examples: segment 0 (stride 4) drains to
    the pass-through segment 1, segment 2 stands alone and is left out of
    the segment order. *)
Definition junction_to : list Z := [1; -1; -1].
Definition junction_tsi : list Z := [4; -1; 24].
Definition junction_ts : list Q := [4%Q; 1%Q; 24%Q].
Definition junction_c0 : list Q := [(1 # 6)%Q; 1%Q; 0%Q].
Definition junction_c1 : list Q := [(1 # 2)%Q; 0%Q; 1%Q].
Definition junction_c2 : list Q := [(1 # 3)%Q; 0%Q; 0%Q].
Definition junction_lat : list Q := [1%Q; 0%Q; 2%Q].

(** The kernel on them, from the state [seg_inflow0], [outflow_ts]. *)
Definition junction_day (seg_inflow0 outflow_ts : list Q)
  : result (Kernel.kstate (F:=Q)) :=
  Kernel._muskingum_mann_numpy junction_to junction_lat junction_tsi
    junction_ts junction_c0 junction_c1 junction_c2 [0; 1]
    seg_inflow0 outflow_ts.

(** The chain [chain2] with HRU 1 mapped to a segment that does not
    exist (one-based hru_segment 4 on two segments). *)
Definition stray_hru : Params.t Q :=
  Params.mk 2%nat 2%nat [1; 4] [2; 0]
            [(1 # 20)%Q; (1 # 20)%Q] [1%Q; 1%Q] [36000%Q; 36000%Q]
            [(1 # 100)%Q; (1 # 100)%Q] [0; 0]
            [(1 # 5)%Q; (1 # 5)%Q] [0%Q; 0%Q].

(** * Properties *)

(** ** The result monad and Python indexing *)

Lemma bind_Ok_inv {A B} (m : result A) (f : A → result B) (b : B) :
  m ≫= f = Ok b → ∃ a, m = Ok a ∧ f a = Ok b.
Proof.
  destruct m as [a|e]; simpl; [eauto | discriminate].
Qed.

Lemma foldM_app {A S} (f : S → A → result S) (l1 l2 : list A) (s : S) :
  foldM f (l1 ++ l2) s = foldM f l1 s ≫= foldM f l2.
Proof.
  revert s. induction l1 as [|x l1 IH]; intros s; simpl; [done|].
  destruct (f s x); simpl; [apply IH | done].
Qed.

(** The loop rule: an invariant indexed by the processed prefix, kept
    by every step the loop can take, makes the loop succeed and holds
    at its end. *)
Lemma foldM_rule {A S} (f : S → A → result S) (P : list A → S → Prop)
      (l : list A) (s : S) :
  P [] s →
  (∀ pre x post st, l = pre ++ x :: post → P pre st →
                    ∃ st', f st x = Ok st' ∧ P (pre ++ [x]) st') →
  ∃ r, foldM f l s = Ok r ∧ P l r.
Proof.
  intros H0 Hstep.
  assert (∀ post pre st, l = pre ++ post → P pre st →
          ∃ r, foldM f post st = Ok r ∧ P l r) as Hgen.
  { induction post as [|x post IH]; intros pre st Hl HP.
    - rewrite app_nil_r in Hl. subst. eauto.
    - destruct (Hstep pre x post st Hl HP) as (st' & Hf & HP').
      simpl. rewrite Hf. simpl. apply (IH (pre ++ [x])); [|done].
      by rewrite <- app_assoc. }
  by apply (Hgen l []).
Qed.

(** The same rule read backwards: what a loop that succeeded must have
    established. *)
Lemma foldM_inv {A S} (f : S → A → result S) (P : list A → S → Prop)
      (l : list A) (s r : S) :
  P [] s →
  (∀ pre x post st st', l = pre ++ x :: post → P pre st →
                        f st x = Ok st' → P (pre ++ [x]) st') →
  foldM f l s = Ok r → P l r.
Proof.
  intros H0 Hstep.
  assert (∀ post pre st, l = pre ++ post → P pre st →
          foldM f post st = Ok r → P l r) as Hgen.
  { induction post as [|x post IH]; intros pre st Hl HP Hr.
    - rewrite app_nil_r in Hl. simpl in Hr. by simplify_eq.
    - simpl in Hr. apply bind_Ok_inv in Hr as (st' & Hf & Hr).
      apply (IH (pre ++ [x]) st'); [by rewrite <- app_assoc| |done].
      by eapply Hstep. }
  by apply (Hgen l []).
Qed.

Lemma py_index_inrange (n : nat) (i : Z) :
  0 ≤ i < Z.of_nat n → py_index n i = Ok (Z.to_nat i).
Proof. intros Hi. unfold py_index. by rewrite decide_True. Qed.

Lemma py_index_nonneg_inv (n : nat) (i : Z) (k : nat) :
  0 ≤ i → py_index n i = Ok k → k = Z.to_nat i ∧ (k < n)%nat.
Proof.
  intros Hi. unfold py_index.
  destruct (decide (0 ≤ i < Z.of_nat n)); [intros; simplify_eq; lia|].
  destruct (decide (- Z.of_nat n ≤ i < 0)); [lia | discriminate].
Qed.

Lemma getitem_inrange {A} (a : list A) (i : Z) (x : A) :
  0 ≤ i → a !! Z.to_nat i = Some x → getitem a i = Ok x.
Proof.
  intros Hi Hx. unfold getitem.
  rewrite py_index_inrange; [simpl; by rewrite Hx|].
  apply lookup_lt_Some in Hx. lia.
Qed.

Lemma getitem_nonneg_inv {A} (a : list A) (i : Z) (x : A) :
  0 ≤ i → getitem a i = Ok x → a !! Z.to_nat i = Some x.
Proof.
  intros Hi Hx. unfold getitem in Hx.
  apply bind_Ok_inv in Hx as (k & Hk & Hx).
  apply py_index_nonneg_inv in Hk as [-> _]; [|done].
  destruct (a !! Z.to_nat i); by simplify_eq.
Qed.

Lemma getitem_is_Ok {A} (a : list A) (i : Z) :
  0 ≤ i < Z.of_nat (length a) → ∃ x, getitem a i = Ok x
                                     ∧ a !! Z.to_nat i = Some x.
Proof.
  intros Hi. destruct (lookup_lt_is_Some_2 a (Z.to_nat i)) as [x Hx]; [lia|].
  exists x. split; [apply getitem_inrange; [lia|done] | done].
Qed.

Lemma getitem_out_of_range {A} (a : list A) (i : Z) :
  Z.of_nat (length a) ≤ i → getitem a i = Raise IndexError.
Proof.
  intros Hi. unfold getitem, py_index.
  rewrite decide_False by lia. by rewrite decide_False by lia.
Qed.

Lemma setitem_inrange {A} (a : list A) (i : Z) (x : A) :
  0 ≤ i < Z.of_nat (length a) → setitem a i x = Ok (<[Z.to_nat i := x]> a).
Proof. intros Hi. unfold setitem. by rewrite py_index_inrange. Qed.

Lemma setitem_nonneg_inv {A} (a b : list A) (i : Z) (x : A) :
  0 ≤ i → setitem a i x = Ok b →
  b = <[Z.to_nat i := x]> a ∧ (Z.to_nat i < length a)%nat.
Proof.
  intros Hi Hb. unfold setitem in Hb.
  apply bind_Ok_inv in Hb as (k & Hk & Hb).
  apply py_index_nonneg_inv in Hk as [-> ?]; [|done]. by simplify_eq.
Qed.

Lemma setitem_out_of_range {A} (a : list A) (i : Z) (x : A) :
  Z.of_nat (length a) ≤ i → setitem a i x = Raise IndexError.
Proof.
  intros Hi. unfold setitem, py_index.
  rewrite decide_False by lia. by rewrite decide_False by lia.
Qed.

Lemma moditem_inrange {A} (a : list A) (i : Z) (f : A → A) (x : A) :
  0 ≤ i → a !! Z.to_nat i = Some x →
  moditem a i f = Ok (<[Z.to_nat i := f x]> a).
Proof.
  intros Hi Hx. unfold moditem. rewrite (getitem_inrange a i x) by done.
  simpl. apply setitem_inrange. apply lookup_lt_Some in Hx. lia.
Qed.

Lemma elem_of_range (n : nat) (i : Z) :
  i ∈ Network.range n ↔ 0 ≤ i < Z.of_nat n.
Proof.
  unfold Network.range. rewrite list_elem_of_fmap. split.
  - intros (k & -> & Hk). apply elem_of_seq in Hk. lia.
  - intros Hi. exists (Z.to_nat i). split; [lia|]. apply elem_of_seq. lia.
Qed.

Lemma range_S (n : nat) :
  Network.range (S n) = Network.range n ++ [Z.of_nat n].
Proof. unfold Network.range. by rewrite seq_S, fmap_app. Qed.

Lemma range_lookup (n k : nat) (x : Z) :
  Network.range n !! k = Some x ↔ x = Z.of_nat k ∧ (k < n)%nat.
Proof.
  unfold Network.range. rewrite list_lookup_fmap, fmap_Some. split.
  - intros (j & Hj & ->). apply lookup_seq in Hj. split; [f_equal|]; lia.
  - intros [-> Hk]. exists k. split; [by apply lookup_seq|done].
Qed.

Lemma range_prefix (n : nat) (pre post : list Z) (x : Z) :
  Network.range n = pre ++ x :: post →
  pre = Network.range (length pre) ∧ x = Z.of_nat (length pre)
  ∧ (length pre < n)%nat.
Proof.
  intros Hr.
  assert (Network.range n !! length pre = Some x) as Hx.
  { rewrite Hr. by rewrite list_lookup_middle. }
  apply range_lookup in Hx as [-> Hlt]. split; [|done].
  apply list_eq. intros k.
  destruct (decide (k < length pre)%nat) as [Hk|Hk].
  - assert (pre !! k = Network.range n !! k) as ->.
    { rewrite Hr. by rewrite lookup_app_l. }
    destruct (Network.range n !! k) as [y|] eqn:Hy.
    + apply range_lookup in Hy as [-> _]. symmetry. by apply range_lookup.
    + apply lookup_ge_None in Hy. unfold Network.range in Hy.
      rewrite length_fmap, length_seq in Hy. lia.
  - rewrite lookup_ge_None_2 by lia. symmetry. apply lookup_ge_None.
    unfold Network.range. rewrite length_fmap, length_seq. lia.
Qed.

(** ** The per-day initialization (C2) *)

(** In exact arithmetic [x * zero] is zero for every [x]. *)
Lemma times_zero_Q (a : list Q) :
  Kernel.times_zero a = replicate (length a) 0%Q.
Proof.
  unfold Kernel.times_zero. induction a as [|x a IH]; [done|].
  rewrite fmap_cons, IH. simpl. f_equal.
  apply (Qred_complete (x * 0) 0). ring.
Qed.

(** Over the rationals the accumulators do start at zero. *)
Lemma init_day_zero_Q (seg_inflow0 outflow_ts : list Q) :
  let st := Kernel.init_day seg_inflow0 outflow_ts in
  let zeros := replicate (length seg_inflow0) 0%Q in
  Kernel.seg_inflow st = zeros ∧ Kernel.seg_outflow st = zeros
  ∧ Kernel.inflow_ts st = zeros ∧ Kernel.seg_current_sum st = zeros.
Proof. simpl. by rewrite times_zero_Q. Qed.

(** C2. In IEEE arithmetic the per-day initialization [seg_inflow0 * zero]
    does not produce zeros from a NaN [seg_inflow0]: for the one-segment
    input [seg_inflow0 = [nan]] the four accumulators seg_inflow,
    seg_outflow, inflow_ts and seg_current_sum all start the day as NaN;
    and for a pass-through segment (tsi = -1) with lateral inflow 1.0 and
    outflow_ts 0.0, where zeroed accumulators would never read
    seg_inflow0, the kernel then returns NaN daily means and a NaN
    outflow_ts. *)
Theorem init_day_nan :
  let st := Kernel.init_day (F:=float) [PrimFloat.nan] [0%float] in
  PrimFloat.is_nan <$> Kernel.seg_inflow st = [true]
  ∧ PrimFloat.is_nan <$> Kernel.seg_outflow st = [true]
  ∧ PrimFloat.is_nan <$> Kernel.inflow_ts st = [true]
  ∧ PrimFloat.is_nan <$> Kernel.seg_current_sum st = [true]
  ∧ ∃ r, Kernel._muskingum_mann_numpy (F:=float)
           [-1] [1%float] [-1] [1%float] [1%float] [0%float] [0%float]
           [0] [PrimFloat.nan] [0%float] = Ok r
         ∧ PrimFloat.is_nan <$> Kernel.seg_outflow r = [true]
         ∧ PrimFloat.is_nan <$> Kernel.seg_inflow r = [true]
         ∧ PrimFloat.is_nan <$> Kernel.outflow_ts r = [true].
Proof.
  cbv zeta.
  split; [vm_compute; reflexivity|].
  split; [vm_compute; reflexivity|].
  split; [vm_compute; reflexivity|].
  split; [vm_compute; reflexivity|].
  eexists. split; [vm_compute; reflexivity|].
  split; [vm_compute; reflexivity|].
  split; vm_compute; reflexivity.
Qed.

(** ** The carried state between outer steps (C3) *)

(** C3, as the code has it. [_advance_variables] overwrites the stored
    previous inflow with the daily-mean inflow and leaves outflow_ts and
    seg_outflow as routing set them; so the routing call of the outer
    step that follows (reference kernel, calc_method none or numpy)
    consumes as seg_inflow0 the seg_inflow mean that the previous step
    returned, together with the outflow_ts of that step. *)
Theorem advance_sets_inflow0_to_daily_mean {F} `{Float64 F}
        (numba fortran : Engine.kernel_type (F:=F))
        (self self' : Engine.t (F:=F)) (s_per_time : F) :
  lower (Engine._calc_method self) = "none"%string
  ∨ lower (Engine._calc_method self) = "numpy"%string →
  Engine._calculate numba fortran (Engine._advance_variables self)
                    s_per_time = Ok self' →
  Engine._seg_inflow0 (Engine._advance_variables self)
  = Engine._seg_inflow self
  ∧ Engine._outflow_ts (Engine._advance_variables self)
    = Engine._outflow_ts self
  ∧ Engine.seg_outflow (Engine._advance_variables self)
    = Engine.seg_outflow self
  ∧ ∃ lat r,
      Engine.lateral_flow
        (Params.nhru (Engine.params self))
        (Params.hru_segment (Engine.params self)) s_per_time
        (Engine.sroff_vol self) (Engine.ssres_flow_vol self)
        (Engine.gwres_flow_vol self) (Engine.seg_lateral_inflow self)
      = Ok lat
      ∧ Kernel._muskingum_mann_numpy
          (Params.tosegment (Engine.params self))
          (Engine.l_seg_lateral_inflow lat)
          (Engine._tsi self) (Engine._ts self)
          (Engine._c0 self) (Engine._c1 self) (Engine._c2 self)
          (Engine._segment_order self)
          (Engine._seg_inflow self) (Engine._outflow_ts self) = Ok r
      ∧ Engine._seg_inflow0 self' = Kernel.seg_inflow0 r
      ∧ Engine._seg_inflow self' = Kernel.seg_inflow r
      ∧ Engine.seg_outflow self' = Kernel.seg_outflow r.
Proof.
  intros Hcm Hcalc. split; [done|]. split; [done|]. split; [done|].
  unfold Engine._calculate in Hcalc.
  apply bind_Ok_inv in Hcalc as (lat & Hlat & Hcalc).
  apply bind_Ok_inv in Hcalc as (kernel & Hk & Hcalc).
  apply bind_Ok_inv in Hcalc as (r & Hr & Hcalc).
  exists lat, r. split; [done|].
  assert (kernel = Engine.numpy_kernel) as ->.
  { revert Hk. unfold Engine.select_kernel.
    cbn [Engine._advance_variables Engine._calc_method].
    rewrite decide_False by (destruct Hcm as [-> | ->]; discriminate).
    rewrite decide_True by done. by intros [= <-]. }
  split; [exact Hr|]. by injection Hcalc as <-.
Qed.

Lemma advance_sets_inflow0_to_daily_mean_witness :
  ∃ self self',
    chain2_engine None = Ok self
    ∧ chain2_step self = Ok self'
    ∧ Engine._seg_inflow0 (Engine._advance_variables self)
      = Engine._seg_inflow self.
Proof.
  destruct (chain2_engine None) as [self|] eqn:Hself;
    [|vm_compute in Hself; discriminate].
  destruct (chain2_step self) as [self'|] eqn:Hstep.
  - exists self, self'. split; [done|]. split; [done|].
    refine (proj1 (advance_sets_inflow0_to_daily_mean
                     no_kernel no_kernel self self' 86400%Q _ Hstep)).
    vm_compute in Hself. injection Hself as <-. by left.
  - vm_compute in Hself. injection Hself as <-.
    vm_compute in Hstep. discriminate.
Defined.

(** C3, refuted as stated. On the chain 0 -> 1 the first routing call
    leaves seg_inflow0 = [1, 2891/2916] (the averaged inflow of each
    segment's last closed sub-step) and the daily means
    seg_inflow = [1, 23353/34992]; the advance that precedes the next
    routing call replaces the former by the latter. *)
Lemma advance_overwrites_routed_inflow0 :
  ∃ e1, chain2_engine None ≫= chain2_step = Ok e1
        ∧ Engine._seg_inflow0 e1 = [1%Q; (2891 # 2916)%Q]
        ∧ Engine._seg_inflow0 (Engine._advance_variables e1)
          = [1%Q; (23353 # 34992)%Q]
        ∧ Engine._seg_inflow0 (Engine._advance_variables e1)
          ≠ Engine._seg_inflow0 e1.
Proof.
  eexists. split; [vm_compute; reflexivity|].
  split; [vm_compute; reflexivity|].
  split; [vm_compute; reflexivity|].
  vm_compute. discriminate.
Qed.

(** ** The kernel selector (C9) *)







(** ** Seeding the internal inflow (C10) *)

Section Seed.
Context {F : Type} `{Float64 F}.
Variables (n : nat) (tosegment : list Z) (seg_outflow : list F).

Local Abbreviation seeded_upto := (seeded_upto n tosegment seg_outflow).

Lemma seed_body_step (k : nat) (acc acc' : list F) :
  seeded_upto k acc →
  Engine.seed_body tosegment seg_outflow acc (Z.of_nat k) = Ok acc' →
  seeded_upto (S k) acc'.
Proof.
  intros (Hlen & Hlast & Hnone) Hbody. unfold Engine.seed_body in Hbody.
  apply bind_Ok_inv in Hbody as (jseg & Hj & Hbody).
  apply getitem_nonneg_inv in Hj; [|lia]. rewrite Nat2Z.id in Hj.
  destruct (decide (jseg < 0)) as [Hneg|Hpos].
  - simplify_eq. split; [done|]. split.
    + intros i j Hi Hij Hj0 Hmax.
      destruct (decide (i = k)) as [->|Hne]; [simplify_eq; lia|].
      apply Hlast; [lia|done|done|]. intros i' Hi'. apply Hmax. lia.
    + intros j Hjn Hno. apply Hnone; [done|]. intros i Hi. apply Hno. lia.
  - apply bind_Ok_inv in Hbody as (q & Hq & Hbody).
    apply getitem_nonneg_inv in Hq; [|lia]. rewrite Nat2Z.id in Hq.
    apply setitem_nonneg_inv in Hbody as [-> Hin]; [|lia].
    split; [by rewrite length_insert|]. split.
    + intros i j Hi Hij Hj0 Hmax.
      destruct (decide (i = k)) as [->|Hne].
      * simplify_eq. exists q. split; [done|].
        by apply list_lookup_insert_eq.
      * assert (jseg ≠ j) as Hjj.
        { intros ->. apply (Hmax k); [lia|done]. }
        rewrite list_lookup_insert_ne by lia.
        apply Hlast; [lia|done|done|]. intros i' Hi'. apply Hmax. lia.
    + intros j Hjn Hno.
      assert (jseg ≠ Z.of_nat j) as Hjj.
      { intros ->. by apply (Hno k); [lia|]. }
      rewrite list_lookup_insert_ne by lia.
      apply Hnone; [done|]. intros i Hi. apply Hno. lia.
Qed.

Lemma seed_inflow_spec (seeded : list F) :
  Engine.seed_inflow n tosegment seg_outflow = Ok seeded →
  seeded_upto n seeded.
Proof.
  unfold Engine.seed_inflow. intros Hs.
  assert (seeded_upto (length (Network.range n)) seeded) as Hfin.
  { apply (foldM_inv _ (λ pre acc, seeded_upto (length pre) acc)
                     _ _ _) in Hs; [done| |].
    - split; [by rewrite length_replicate|]. split.
      + intros i j Hi. simpl in Hi. lia.
      + intros j Hj _. by apply lookup_replicate_2.
    - intros pre x post st st' Hr HP Hf.
      apply range_prefix in Hr as (_ & -> & _).
      rewrite length_app. simpl. rewrite Nat.add_1_r.
      by eapply seed_body_step. }
  unfold Network.range in Hfin.
  by rewrite length_fmap, length_seq in Hfin.
Qed.
End Seed.

(** C10. When construction succeeds, the seeded internal inflow of a
    segment j that has an upstream segment is the initial flow of the
    upstream segment with the largest index: for the last i (below
    nsegment) whose one-based tosegment is j + 1, _seg_inflow[j] is
    segment_flow_init[i]. The loop assigns, so earlier upstream segments
    leave no trace; a segment without an upstream segment keeps 0.0. *)
Theorem seed_is_last_upstream {F} `{Float64 F} np_sqrt np_power LAKE nan
        (p : Params.t F) (sroff ssres gwres : list F) (cm : option string)
        (self : Engine.t (F:=F)) (i : nat) (j : Z) :
  Engine.__init__ np_sqrt np_power LAKE nan p sroff ssres gwres cm
  = Ok self →
  (i < Params.nsegment p)%nat →
  Params.tosegment p !! i = Some (j + 1) →
  0 ≤ j →
  (∀ i', (i < i' < Params.nsegment p)%nat →
         Params.tosegment p !! i' ≠ Some (j + 1)) →
  ∃ q, Params.segment_flow_init p !! i = Some q
       ∧ Engine._seg_inflow self !! Z.to_nat j = Some q.
Proof.
  intros Hinit Hi Hij Hj Hmax.
  unfold Engine.__init__, Engine._initialize_channel_data in Hinit.
  simpl in Hinit.
  apply bind_Ok_inv in Hinit as ([mask order] & _ & Hinit).
  apply bind_Ok_inv in Hinit as (seeded & Hseed & Hinit).
  simplify_eq. simpl.
  apply seed_inflow_spec in Hseed as (_ & Hlast & _).
  apply (Hlast i j); [done| |done|].
  - unfold Network.rebase. rewrite list_lookup_fmap, Hij. simpl.
    f_equal. lia.
  - intros i' Hi'. unfold Network.rebase. rewrite list_lookup_fmap.
    intros Heq. apply fmap_Some in Heq as (v & Hv & Hjv).
    apply (Hmax i' Hi'). rewrite Hv. f_equal. lia.
Qed.

Lemma seed_is_last_upstream_witness :
  ∃ self, Engine.__init__ q_sqrt q_power 2 0%Q confluence [] [] [] None
          = Ok self
  ∧ ∃ q, Params.segment_flow_init confluence !! 1%nat = Some q
         ∧ Engine._seg_inflow self !! Z.to_nat 2 = Some q.
Proof.
  destruct (Engine.__init__ q_sqrt q_power 2 0%Q confluence [] [] [] None)
    as [self|] eqn:Hself; [|vm_compute in Hself; discriminate].
  exists self. split; [done|].
  apply (seed_is_last_upstream q_sqrt q_power 2 0%Q confluence [] [] []
                               None self 1 2 Hself).
  - simpl. lia.
  - reflexivity.
  - lia.
  - simpl. intros i' Hi'. assert (i' = 2%nat) as -> by lia. discriminate.
Defined.

Example seed_is_not_the_sum :
  ∃ self, Engine.__init__ q_sqrt q_power 2 0%Q confluence [] [] [] None
          = Ok self
  ∧ Engine._seg_inflow self = [0%Q; 0%Q; 5%Q].
Proof. eexists. split; vm_compute; reflexivity. Qed.

(** ** The lateral aggregation (C8) *)

Section Lateral.
Context {F : Type} `{Float64 F}.
Variables (nhru : nat) (hru_segment : list Z) (s_per_time : F).
Variables (sroff ssres gwres lat0 : list F).
Hypothesis Hhru : (nhru ≤ length hru_segment)%nat.
Hypothesis Hsroff : (nhru ≤ length sroff)%nat.
Hypothesis Hssres : (nhru ≤ length ssres)%nat.
Hypothesis Hgwres : (nhru ≤ length gwres)%nat.
Hypothesis Hrange : ∀ (h : nat) iseg,
  (h < nhru)%nat → hru_segment !! h = Some iseg →
  iseg < Z.of_nat (length lat0).

Local Notation sum_upto k s :=
  (lateral_sum hru_segment sroff ssres gwres s_per_time s (seq 0 k)).
Local Abbreviation lateral_upto :=
  (lateral_upto hru_segment s_per_time sroff ssres gwres lat0).

Lemma zero_orphans_length (k : nat) (a : list F) :
  length (zero_orphans hru_segment k a) = length a.
Proof. apply length_imap. Qed.

Lemma zero_orphans_lookup_next (k : nat) (a : list F) :
  zero_orphans hru_segment k a !! k = a !! k.
Proof.
  unfold zero_orphans. rewrite list_lookup_imap.
  destruct (a !! k) as [x|]; [simpl|done].
  destruct (hru_segment !! k) as [iseg|]; [|done].
  by rewrite decide_False by lia.
Qed.

Lemma zero_orphans_skip (k : nat) (a : list F) (iseg : Z) :
  hru_segment !! k = Some iseg → ¬ iseg < 0 →
  zero_orphans hru_segment (S k) a = zero_orphans hru_segment k a.
Proof.
  intros Hk Hpos. unfold zero_orphans. apply imap_ext. intros h x _.
  destruct (hru_segment !! h) as [j|] eqn:Hj; [|done].
  destruct (decide (h = k)) as [->|Hne].
  - simplify_eq. rewrite !decide_False by lia. done.
  - repeat case_decide; try done; lia.
Qed.

Lemma zero_orphans_zero (k : nat) (a : list F) (iseg : Z) :
  hru_segment !! k = Some iseg → iseg < 0 →
  <[k := Kernel.zero]> (zero_orphans hru_segment k a)
  = zero_orphans hru_segment (S k) a.
Proof.
  intros Hk Hneg. apply list_eq. intros h.
  destruct (decide (h = k)) as [->|Hne].
  - destruct (decide (k < length a)%nat) as [Hlt|Hge].
    + rewrite list_lookup_insert_eq by (by rewrite zero_orphans_length).
      unfold zero_orphans. rewrite list_lookup_imap.
      destruct (lookup_lt_is_Some_2 a k Hlt) as [x ->]. simpl.
      rewrite Hk. by rewrite decide_True by lia.
    + rewrite list_insert_ge by (rewrite zero_orphans_length; lia).
      unfold zero_orphans. rewrite !list_lookup_imap.
      by rewrite (lookup_ge_None_2 a k) by lia.
  - rewrite list_lookup_insert_ne by done.
    unfold zero_orphans. rewrite !list_lookup_imap.
    destruct (a !! h) as [x|]; [simpl|done].
    destruct (hru_segment !! h) as [j|]; [|done].
    repeat case_decide; try done; lia.
Qed.

Lemma sum_upto_S (k : nat) (s : Z) :
  sum_upto (S k) s
  = match hru_segment !! k, sroff !! k, ssres !! k, gwres !! k with
    | Some iseg, Some a, Some b, Some c =>
        if decide (iseg = s)
        then (sum_upto k s + (a + b + c) / s_per_time)%f64
        else sum_upto k s
    | _, _, _, _ => sum_upto k s
    end.
Proof. unfold lateral_sum. by rewrite seq_S, foldl_app. Qed.

Lemma lateral_body_step (k : nat) (st : Engine.lateral (F:=F)) :
  (k < nhru)%nat → lateral_upto k st →
  ∃ st', Engine.lateral_body hru_segment s_per_time st (Z.of_nat k) = Ok st'
         ∧ lateral_upto (S k) st'.
Proof.
  intros Hk (Hlen & Hsum & Ha & Hb & Hc). unfold Engine.lateral_body.
  destruct (lookup_lt_is_Some_2 hru_segment k) as [iseg Hiseg]; [lia|].
  destruct (lookup_lt_is_Some_2 sroff k) as [a Hak]; [lia|].
  destruct (lookup_lt_is_Some_2 ssres k) as [b Hbk]; [lia|].
  destruct (lookup_lt_is_Some_2 gwres k) as [c Hck]; [lia|].
  rewrite (getitem_inrange hru_segment _ iseg) by (rewrite ?Nat2Z.id; done || lia).
  simpl. destruct (decide (iseg < 0)) as [Hneg|Hpos].
  - rewrite !setitem_inrange
      by (rewrite ?Ha, ?Hb, ?Hc, zero_orphans_length; lia).
    simpl. eexists. split; [done|]. rewrite Nat2Z.id.
    unfold lateral_upto. cbn [Engine.l_seg_lateral_inflow Engine.l_sroff_vol
           Engine.l_ssres_flow_vol Engine.l_gwres_flow_vol].
    split; [done|]. split.
    + intros s Hs. rewrite Hsum by done. rewrite sum_upto_S.
      rewrite Hiseg, Hak, Hbk, Hck. by rewrite decide_False by lia.
    + rewrite Ha, Hb, Hc. by rewrite !(zero_orphans_zero k _ iseg).
  - rewrite (getitem_inrange (Engine.l_sroff_vol st) _ a)
      by (rewrite ?Nat2Z.id, ?Ha, ?zero_orphans_lookup_next; done || lia).
    simpl.
    rewrite (getitem_inrange (Engine.l_ssres_flow_vol st) _ b)
      by (rewrite ?Nat2Z.id, ?Hb, ?zero_orphans_lookup_next; done || lia).
    simpl.
    rewrite (getitem_inrange (Engine.l_gwres_flow_vol st) _ c)
      by (rewrite ?Nat2Z.id, ?Hc, ?zero_orphans_lookup_next; done || lia).
    simpl.
    assert (Z.to_nat iseg < length lat0)%nat as Hin.
    { specialize (Hrange k iseg Hk Hiseg). lia. }
    rewrite (moditem_inrange _ _ _ (sum_upto k iseg)); [|lia|].
    2:{ rewrite Hsum by done. by rewrite Z2Nat.id by lia. }
    simpl. eexists. split; [done|].
    unfold lateral_upto. cbn [Engine.l_seg_lateral_inflow Engine.l_sroff_vol
           Engine.l_ssres_flow_vol Engine.l_gwres_flow_vol].
    split; [by rewrite length_insert|]. split.
    + intros s Hs. rewrite sum_upto_S, Hiseg, Hak, Hbk, Hck.
      destruct (decide (iseg = Z.of_nat s)) as [->|Hne].
      * rewrite Nat2Z.id. rewrite list_lookup_insert_eq by lia. done.
      * rewrite list_lookup_insert_ne by lia. by apply Hsum.
    + rewrite Ha, Hb, Hc. by rewrite !(zero_orphans_skip k _ iseg).
Qed.

Lemma lateral_flow_upto :
  ∃ r, Engine.lateral_flow nhru hru_segment s_per_time sroff ssres gwres lat0
       = Ok r ∧ lateral_upto nhru r.
Proof.
  unfold Engine.lateral_flow.
  destruct (foldM_rule (Engine.lateral_body hru_segment s_per_time)
              (λ pre st, lateral_upto (length pre) st)
              (Network.range nhru)
              {| Engine.l_sroff_vol := sroff; Engine.l_ssres_flow_vol := ssres;
                 Engine.l_gwres_flow_vol := gwres;
                 Engine.l_seg_lateral_inflow := (λ _, f_lit 0%Q) <$> lat0 |})
    as (r & Hr & Hinv).
  - split; [simpl; by rewrite length_fmap|]. simpl. split.
    + intros s Hs. rewrite list_lookup_fmap.
      destruct (lookup_lt_is_Some_2 lat0 s Hs) as [x ->]. done.
    + unfold zero_orphans.
      assert (∀ a : list F,
                a = imap (λ h x, match hru_segment !! h with
                                 | Some iseg =>
                                     if decide ((h < 0)%nat ∧ iseg < 0)
                                     then Kernel.zero else x
                                 | None => x
                                 end) a) as Hid.
      { intros a. apply list_eq. intros h. rewrite list_lookup_imap.
        destruct (a !! h) as [x|]; [simpl|done].
        by destruct (hru_segment !! h). }
      by rewrite <- !Hid.
  - intros pre x post st Hl HP.
    apply range_prefix in Hl as (_ & -> & Hlt).
    rewrite length_app. simpl. rewrite Nat.add_1_r.
    by apply lateral_body_step.
  - exists r. split; [done|]. unfold Network.range in Hinv.
    by rewrite length_fmap, length_seq in Hinv.
Qed.

Lemma zero_orphans_orphan (k h : nat) (a : list F) (iseg : Z) :
  (h < k)%nat → (h < length a)%nat → hru_segment !! h = Some iseg →
  iseg < 0 → zero_orphans hru_segment k a !! h = Some Kernel.zero.
Proof.
  intros Hh Hlen Hi Hneg. unfold zero_orphans. rewrite list_lookup_imap.
  destruct (lookup_lt_is_Some_2 a h Hlen) as [x ->]. simpl.
  rewrite Hi. by rewrite decide_True.
Qed.

Lemma zero_orphans_mapped (k h : nat) (a : list F) (iseg : Z) :
  hru_segment !! h = Some iseg → 0 ≤ iseg →
  zero_orphans hru_segment k a !! h = a !! h.
Proof.
  intros Hi Hpos. unfold zero_orphans. rewrite list_lookup_imap.
  destruct (a !! h) as [x|]; [simpl|done].
  rewrite Hi. by rewrite decide_False by lia.
Qed.
End Lateral.

(** C8. For HRU arrays of at least nhru entries and a zero-based
    hru_segment whose entries lie below the number of segments, the
    lateral aggregation returns, and then: seg_lateral_inflow[s] is the
    sum, over the HRUs h in index order with hru_segment[h] == s, of
    (sroff_vol[h] + ssres_flow_vol[h] + gwres_flow_vol[h]) / s_per_time,
    starting from 0.0 (so no HRU with a negative hru_segment enters any
    sum); the three input entries of every HRU with hru_segment[h] < 0
    are zero; the input entries of every mapped HRU are unchanged. It
    holds for every float64 arithmetic, bit for bit. *)
Theorem lateral_aggregation {F} `{Float64 F} (nhru : nat)
        (hru_segment : list Z) (s_per_time : F)
        (sroff ssres gwres lat0 : list F) :
  (nhru ≤ length hru_segment)%nat →
  (nhru ≤ length sroff)%nat →
  (nhru ≤ length ssres)%nat →
  (nhru ≤ length gwres)%nat →
  (∀ (h : nat) iseg, (h < nhru)%nat → hru_segment !! h = Some iseg →
                     iseg < Z.of_nat (length lat0)) →
  ∃ r, Engine.lateral_flow nhru hru_segment s_per_time sroff ssres gwres lat0
       = Ok r
       ∧ aggregated nhru hru_segment s_per_time sroff ssres gwres lat0 r.
Proof.
  intros Hhru Hsroff Hssres Hgwres Hrange.
  destruct (lateral_flow_upto nhru hru_segment s_per_time sroff ssres gwres
              lat0 Hhru Hsroff Hssres Hgwres Hrange)
    as (r & Hr & _ & Hsum & Ha & Hb & Hc).
  exists r. split; [done|]. split; [done|]. split.
  - intros h iseg Hh Hi Hneg. rewrite Ha, Hb, Hc.
    repeat split; eapply zero_orphans_orphan; eauto; lia.
  - intros h iseg Hi Hpos. rewrite Ha, Hb, Hc.
    repeat split; eapply zero_orphans_mapped; eauto.
Qed.

Lemma lateral_aggregation_witness :
  ∃ r, Engine.lateral_flow (F:=Q) 3 [0; -1; 1] 2%Q
         [2%Q; 4%Q; 6%Q] [0%Q; 8%Q; 0%Q] [0%Q; 0%Q; 10%Q] [7%Q; 7%Q]
       = Ok r
       ∧ aggregated (F:=Q) 3 [0; -1; 1] 2%Q
           [2%Q; 4%Q; 6%Q] [0%Q; 8%Q; 0%Q] [0%Q; 0%Q; 10%Q] [7%Q; 7%Q] r.
Proof.
  apply lateral_aggregation; simpl; try lia.
  intros h iseg Hh Hi.
  destruct h as [|[|[|h]]]; simpl in Hi; simplify_eq; lia.
Defined.

(** [_calculate] stores what the aggregation returned. *)
Lemma calculate_stores_lateral {F} `{Float64 F}
      (numba fortran : Engine.kernel_type (F:=F))
      (self self' : Engine.t (F:=F)) (s_per_time : F) :
  Engine._calculate numba fortran self s_per_time = Ok self' →
  ∃ r, Engine.lateral_flow
         (Params.nhru (Engine.params self))
         (Params.hru_segment (Engine.params self)) s_per_time
         (Engine.sroff_vol self) (Engine.ssres_flow_vol self)
         (Engine.gwres_flow_vol self) (Engine.seg_lateral_inflow self) = Ok r
       ∧ Engine.seg_lateral_inflow self' = Engine.l_seg_lateral_inflow r
       ∧ Engine.sroff_vol self' = Engine.l_sroff_vol r
       ∧ Engine.ssres_flow_vol self' = Engine.l_ssres_flow_vol r
       ∧ Engine.gwres_flow_vol self' = Engine.l_gwres_flow_vol r.
Proof.
  unfold Engine._calculate. intros Hc.
  apply bind_Ok_inv in Hc as (r & Hr & Hc).
  apply bind_Ok_inv in Hc as (kernel & _ & Hc).
  apply bind_Ok_inv in Hc as (kr & _ & Hc).
  exists r. split; [done|]. by simplify_eq.
Qed.

(** ** The routing kernel *)

Lemma array_of_lookup {A} (n : nat) (P : A → Prop) (a : list A) (j : Z) :
  array_of n P a → 0 ≤ j < Z.of_nat n →
  ∃ x, getitem a j = Ok x ∧ a !! Z.to_nat j = Some x ∧ P x.
Proof.
  intros [Hlen HP] Hj.
  destruct (getitem_is_Ok a j) as (x & Hg & Hx); [lia|].
  exists x. repeat split; [done|done|]. by eapply Forall_lookup_1.
Qed.

Lemma array_of_insert {A} (n : nat) (P : A → Prop) (a : list A) (k : nat)
      (x : A) :
  array_of n P a → P x → array_of n P (<[k:=x]> a).
Proof.
  intros [Hlen HP] Hx. split; [by rewrite length_insert|].
  by apply Forall_insert.
Qed.

Lemma array_of_setitem {A} (n : nat) (P : A → Prop) (a : list A) (j : Z)
      (x : A) :
  array_of n P a → 0 ≤ j < Z.of_nat n → P x →
  setitem a j x = Ok (<[Z.to_nat j := x]> a)
  ∧ array_of n P (<[Z.to_nat j := x]> a).
Proof.
  intros Ha Hj Hx. split; [|by apply array_of_insert].
  apply setitem_inrange. destruct Ha as [-> _]. done.
Qed.

Lemma array_of_moditem {A} (n : nat) (P : A → Prop) (a : list A) (j : Z)
      (f : A → A) :
  array_of n P a → 0 ≤ j < Z.of_nat n → (∀ x, P x → P (f x)) →
  ∃ x, a !! Z.to_nat j = Some x
       ∧ moditem a j f = Ok (<[Z.to_nat j := f x]> a)
       ∧ array_of n P (<[Z.to_nat j := f x]> a).
Proof.
  intros Ha Hj Hf.
  destruct (array_of_lookup n P a j Ha Hj) as (x & Hg & Hx & HPx).
  exists x. split; [done|]. split.
  - apply moditem_inrange; [lia|done].
  - apply array_of_insert; auto.
Qed.

Lemma array_of_fmap {A} (n : nat) (P : A → Prop) (a : list A) (f : A → A) :
  array_of n P a → (∀ x, P x → P (f x)) → array_of n P (f <$> a).
Proof.
  intros [Hlen HP] Hf. split; [by rewrite length_fmap|].
  apply Forall_fmap. eapply Forall_impl; [done|]. intros x. apply Hf.
Qed.

Section KernelFacts.
Context {F : Type} `{Float64 F}.
Variables (n : nat) (P : F → Prop).
Variables (segment_order to_segment : list Z) (seg_lateral_inflow : list F)
          (tsi : list Z) (ts c0 c1 c2 : list F).
Hypothesis HP : closed_under P.
Hypothesis Hargs : kernel_args n P segment_order to_segment
                               seg_lateral_inflow tsi ts c0 c1 c2.

Local Abbreviation route_segment := (Kernel.route_segment tsi ts c0 c1 c2).
Local Abbreviation segment_body :=
  (Kernel.segment_body to_segment seg_lateral_inflow tsi ts c0 c1 c2).
Local Abbreviation hour_body :=
  (Kernel.hour_body to_segment seg_lateral_inflow tsi ts c0 c1 c2).

Ltac get_item a j x Hx HPx :=
  let Ha := fresh in
  let Hg := fresh in
  assert (array_of n P a) as Ha by tauto;
  destruct (array_of_lookup n P a j Ha) as (x & Hg & Hx & HPx); [done|];
  rewrite Hg; clear Ha Hg; cbn [mbind result_bind].

(** The sub-step closure succeeds, keeps the invariant, leaves a zero
    in the segment's inflow_ts cell and touches no other cell of it. *)
Lemma route_segment_ok (jseg : Z) (st : Kernel.kstate (F:=F)) :
  0 ≤ jseg < Z.of_nat n → seg_inv n P st →
  ∃ st', route_segment jseg st = Ok st' ∧ seg_inv n P st'
         ∧ Kernel.inflow_ts st' !! Z.to_nat jseg = Some (f_lit 0%Q)
         ∧ ∀ k, k ≠ Z.to_nat jseg →
                Kernel.inflow_ts st' !! k = Kernel.inflow_ts st !! k.
Proof.
  intros Hj ((Hi0 & Hin & Hout & Hout0 & Hits & Hots & Hsum) & Hup).
  destruct HP as (P0 & P24 & Padd & Pmul & Pdiv).
  destruct Hargs as (_ & _ & _ & Htsi & Hts & Hc0 & Hc1 & Hc2).
  unfold Kernel.route_segment.
  get_item ts jseg ts_j Hts_j Pts_j.
  destruct (array_of_moditem n P (Kernel.inflow_ts st) jseg
              (λ x, x / ts_j)%f64 Hits Hj) as (i_j & Hi_j & -> & Hits1);
    [auto|]. cbn [mbind result_bind].
  destruct (getitem_is_Ok tsi jseg) as (tsi_j & -> & _); [lia|].
  cbn [mbind result_bind].
  set (i1 := <[Z.to_nat jseg := (i_j / ts_j)%f64]> (Kernel.inflow_ts st))
    in *.
  assert (i1 !! Z.to_nat jseg = Some (i_j / ts_j)%f64) as Hi1.
  { apply list_lookup_insert_eq. apply lookup_lt_Some in Hi_j. done. }
  assert (P (i_j / ts_j)%f64) as Pin.
  { apply Pdiv; [|done]. destruct Hits as [_ Hall].
    by eapply Forall_lookup_1. }
  rewrite !(getitem_inrange i1 jseg _ (proj1 Hj) Hi1).
  cbn [mbind result_bind].
  assert (∃ o1, (if decide (tsi_j > 0)
                 then c0_j ← getitem c0 jseg;
                      prev_j ← getitem (Kernel.seg_inflow0 st) jseg;
                      c1_j ← getitem c1 jseg;
                      out_j ← getitem (Kernel.outflow_ts st) jseg;
                      c2_j ← getitem c2 jseg;
                      setitem (Kernel.outflow_ts st) jseg
                        (i_j / ts_j * c0_j + prev_j * c1_j + out_j * c2_j)%f64
                 else setitem (Kernel.outflow_ts st) jseg (i_j / ts_j)%f64)
                = Ok o1 ∧ array_of n P o1) as (o1 & -> & Ho1).
  { destruct (decide (tsi_j > 0)).
    - get_item c0 jseg c0_j Hc0_j Pc0_j.
      get_item (Kernel.seg_inflow0 st) jseg prev_j Hprev_j Pprev_j.
      get_item c1 jseg c1_j Hc1_j Pc1_j.
      get_item (Kernel.outflow_ts st) jseg out_j Hout_j Pout_j.
      get_item c2 jseg c2_j Hc2_j Pc2_j.
      eexists. apply array_of_setitem; auto.
    - eexists. apply array_of_setitem; auto. }
  cbn [mbind result_bind].
  destruct (array_of_setitem n P (Kernel.seg_inflow0 st) jseg
              (i_j / ts_j)%f64 Hi0 Hj Pin) as [-> Hi01].
  cbn [mbind result_bind].
  destruct (array_of_setitem n P i1 jseg (f_lit 0%Q) Hits1 Hj P0)
    as [-> Hits2].
  cbn [mbind result_bind].
  eexists. split; [done|]. split; [|split].
  - unfold seg_inv, day_inv. cbn. tauto.
  - cbn. apply list_lookup_insert_eq. destruct Hits1 as [-> _]. lia.
  - intros k Hk. cbn. rewrite list_lookup_insert_ne by done.
    unfold i1. by rewrite list_lookup_insert_ne.
Qed.

(** One segment at one hour: the body succeeds, keeps the invariant,
    touches no inflow_ts cell but its own, and leaves that cell zero
    when the hour closes a sub-step of the segment. *)
Lemma segment_body_ok (ihr jseg : Z) (st : Kernel.kstate (F:=F)) :
  0 ≤ jseg < Z.of_nat n → seg_inv n P st →
  ∃ st', segment_body ihr st jseg = Ok st' ∧ seg_inv n P st'
         ∧ (∀ k, k ≠ Z.to_nat jseg →
                 Kernel.inflow_ts st' !! k = Kernel.inflow_ts st !! k)
         ∧ (all_close tsi ihr →
            Kernel.inflow_ts st' !! Z.to_nat jseg = Some (f_lit 0%Q)).
Proof.
  intros Hj Hinv.
  pose proof Hinv as ((Hi0 & Hin & Hout & Hout0 & Hits & Hots & Hsum) & Hup).
  pose proof HP as (P0 & P24 & Padd & Pmul & Pdiv).
  pose proof Hargs as (_ & Hto & Hlat & Htsi & _).
  unfold Kernel.segment_body.
  get_item seg_lateral_inflow jseg lat_j Hlat_j Plat_j.
  get_item (Kernel.seg_upstream_inflow st) jseg up_j Hup_j Pup_j.
  destruct (array_of_moditem n P (Kernel.seg_inflow st) jseg
              (λ x, x + (lat_j + up_j))%f64 Hin Hj) as (a & _ & -> & Hin1);
    [auto|]. cbn [mbind result_bind].
  destruct (array_of_moditem n P (Kernel.inflow_ts st) jseg
              (λ x, x + (lat_j + up_j))%f64 Hits Hj) as (b & _ & -> & Hits1);
    [auto|]. cbn [mbind result_bind].
  destruct (array_of_moditem n P (Kernel.seg_current_sum st) jseg
              (λ x, x + up_j)%f64 Hsum Hj) as (c & _ & -> & Hsum1);
    [auto|]. cbn [mbind result_bind].
  destruct (getitem_is_Ok tsi jseg) as (tsi_j & -> & Htsi_j); [lia|].
  cbn [mbind result_bind].
  match goal with
  | |- context [route_segment jseg ?s] => set (st1 := s)
  end.
  assert (seg_inv n P st1) as Hinv1.
  { unfold seg_inv, day_inv, st1. cbn. tauto. }
  assert (∃ st2, (if decide (np_mod (ihr + 1) tsi_j = 0)
                  then route_segment jseg st1 else Ok st1) = Ok st2
                 ∧ seg_inv n P st2
                 ∧ (∀ k, k ≠ Z.to_nat jseg →
                         Kernel.inflow_ts st2 !! k = Kernel.inflow_ts st !! k)
                 ∧ (np_mod (ihr + 1) tsi_j = 0 →
                    Kernel.inflow_ts st2 !! Z.to_nat jseg
                    = Some (f_lit 0%Q)))
    as (st2 & -> & Hinv2 & Hframe2 & Hzero2).
  { destruct (decide (np_mod (ihr + 1) tsi_j = 0)) as [Hrem|Hrem].
    - destruct (route_segment_ok jseg st1 Hj Hinv1)
        as (st2 & Hr & Hinv2 & Hz & Hfr).
      exists st2. split; [done|]. split; [done|]. split; [|done].
      intros k Hk. rewrite Hfr by done. unfold st1. cbn.
      by rewrite list_lookup_insert_ne.
    - exists st1. split; [done|]. split; [done|]. split; [|done].
      intros k Hk. unfold st1. cbn. by rewrite list_lookup_insert_ne. }
  cbn [mbind result_bind]. clear Hinv1.
  destruct Hinv2 as ((Hi0' & Hin' & Hout' & Hout0' & Hits' & Hots' & Hsum')
                     & Hup').
  get_item (Kernel.outflow_ts st2) jseg out_j Hout_j Pout_j.
  destruct (array_of_moditem n P (Kernel.seg_outflow st2) jseg
              (λ x, x + out_j)%f64 Hout' Hj) as (d & _ & -> & Hout1);
    [auto|]. cbn [mbind result_bind].
  destruct (array_of_setitem n P (Kernel.seg_outflow0 st2) jseg out_j
              Hout0' Hj Pout_j) as [-> Hout01].
  cbn [mbind result_bind].
  destruct (array_of_lookup n _ to_segment jseg Hto Hj)
    as (to_seg & -> & _ & Hto_seg).
  cbn [mbind result_bind].
  assert (∃ u1, (if decide (to_seg >= 0)
                 then moditem (Kernel.seg_upstream_inflow st2) to_seg
                              (λ x, x + out_j)%f64
                 else Ok (Kernel.seg_upstream_inflow st2)) = Ok u1
                ∧ array_of n P u1) as (u1 & -> & Hu1).
  { destruct (decide (to_seg >= 0)) as [Hge|Hlt]; [|by eexists].
    destruct (array_of_moditem n P (Kernel.seg_upstream_inflow st2) to_seg
                (λ x, x + out_j)%f64 Hup') as (e & _ & -> & Hu1);
      [lia|auto|]. by eexists. }
  cbn [mbind result_bind].
  eexists. split; [done|]. split; [|split].
  - unfold seg_inv, day_inv. cbn. tauto.
  - cbn. done.
  - intros Hclose. cbn. apply Hzero2.
    unfold all_close in Hclose. by eapply Forall_lookup_1 in Hclose.
Qed.

(** One hour: the pass over the segment order succeeds and keeps the
    invariant; a segment outside the order keeps its inflow_ts cell, and
    when the hour closes every stride the cells of the segments in the
    order are zero. *)
Lemma hour_body_ok (ihr : Z) (st : Kernel.kstate (F:=F)) :
  day_inv n P st →
  ∃ st', hour_body segment_order st ihr = Ok st' ∧ day_inv n P st'
         ∧ (∀ k : nat, Z.of_nat k ∉ segment_order →
              Kernel.inflow_ts st' !! k = Kernel.inflow_ts st !! k)
         ∧ (all_close tsi ihr →
            ∀ k : nat, Z.of_nat k ∈ segment_order →
              Kernel.inflow_ts st' !! k = Some (f_lit 0%Q)).
Proof.
  intros Hinv. unfold Kernel.hour_body.
  pose proof HP as (P0 & P24 & Padd & Pmul & Pdiv).
  pose proof Hargs as (Horder & _).
  match goal with
  | |- context [foldM _ _ ?s] => set (st0 := s)
  end.
  destruct (foldM_rule (segment_body ihr)
              (λ pre s, seg_inv n P s
                        ∧ (∀ k : nat, Z.of_nat k ∉ pre →
                             Kernel.inflow_ts s !! k
                             = Kernel.inflow_ts st !! k)
                        ∧ (all_close tsi ihr →
                           ∀ k : nat, Z.of_nat k ∈ pre →
                             Kernel.inflow_ts s !! k = Some (f_lit 0%Q)))
              segment_order st0) as (r & Hr & Hinvr & Hfr & Hz).
  - split; [|split].
    + destruct Hinv as (Hi0 & Hin & Hout & Hout0 & Hits & Hots & Hsum).
      split; [unfold day_inv, st0; cbn; tauto|].
      unfold st0. cbn. apply array_of_fmap; [done|].
      intros x Hx. by apply Pmul.
    + done.
    + intros _ k Hk. by apply elem_of_nil in Hk.
  - intros pre x post s Hl (Hs & Hfr & Hz).
    assert (0 ≤ x < Z.of_nat n) as Hx.
    { eapply Forall_forall in Horder; [done|]. rewrite Hl.
      apply elem_of_app. right. by left. }
    destruct (segment_body_ok ihr x s Hx Hs) as (s' & Hb & Hs' & Hfr' & Hz').
    exists s'. split; [done|]. split; [done|]. split.
    + intros k Hk. rewrite elem_of_app, list_elem_of_singleton in Hk.
      rewrite Hfr' by (intros ->; apply Hk; right; lia).
      apply Hfr. tauto.
    + intros Hclose k Hk. rewrite elem_of_app, list_elem_of_singleton in Hk.
      destruct (decide (k = Z.to_nat x)) as [->|Hne]; [by apply Hz'|].
      rewrite Hfr' by done. apply Hz; [done|].
      destruct Hk as [Hk|Hk]; [done|lia].
  - exists r. split; [done|]. split; [by destruct Hinvr|]. split; [done|].
    done.
Qed.

(** The 24 hours: the loop succeeds and keeps the invariant; a segment
    outside the order still has its initial inflow_ts cell, and when the
    last hour closes every stride the cells of the segments in the order
    are zero. *)
Lemma day_loop_ok (seg_inflow0_in outflow_ts_in : list F) :
  array_of n P seg_inflow0_in → array_of n P outflow_ts_in →
  ∃ st, Kernel.day_loop to_segment seg_lateral_inflow tsi ts c0 c1 c2
          segment_order seg_inflow0_in outflow_ts_in = Ok st
        ∧ day_inv n P st
        ∧ (∀ k : nat, Z.of_nat k ∉ segment_order →
             Kernel.inflow_ts st !! k
             = Kernel.times_zero seg_inflow0_in !! k)
        ∧ (all_close tsi 23 →
           ∀ k : nat, Z.of_nat k ∈ segment_order →
             Kernel.inflow_ts st !! k = Some (f_lit 0%Q)).
Proof.
  intros Hi0 Hots. unfold Kernel.day_loop.
  pose proof HP as (P0 & P24 & Padd & Pmul & Pdiv).
  assert (array_of n P (Kernel.times_zero seg_inflow0_in)) as Hz0.
  { apply array_of_fmap; [done|]. intros x Hx. by apply Pmul. }
  destruct (foldM_rule (hour_body segment_order)
              (λ pre s, day_inv n P s
                        ∧ (∀ k : nat, Z.of_nat k ∉ segment_order →
                             Kernel.inflow_ts s !! k
                             = Kernel.times_zero seg_inflow0_in !! k)
                        ∧ (last pre = Some 23 → all_close tsi 23 →
                           ∀ k : nat, Z.of_nat k ∈ segment_order →
                             Kernel.inflow_ts s !! k = Some (f_lit 0%Q)))
              Kernel.hours
              (Kernel.init_day seg_inflow0_in outflow_ts_in))
    as (r & Hr & Hinv & Hfr & Hz).
  - split; [|split]; [|done|done].
    unfold day_inv, Kernel.init_day. cbn. tauto.
  - intros pre x post s Hl (Hs & Hfr & _).
    destruct (hour_body_ok x s Hs) as (s' & Hb & Hs' & Hfr' & Hz').
    exists s'. split; [done|]. split; [done|]. split.
    + intros k Hk. rewrite Hfr' by done. by apply Hfr.
    + rewrite last_snoc. intros [= ->]. done.
  - exists r. split; [done|]. split; [done|]. split; [done|].
    by apply Hz.
Qed.

(** The kernel returns, and its result keeps the invariant. *)
Lemma muskingum_mann_ok (seg_inflow0_in outflow_ts_in : list F) :
  array_of n P seg_inflow0_in → array_of n P outflow_ts_in →
  ∃ r, Kernel._muskingum_mann_numpy to_segment seg_lateral_inflow tsi ts
         c0 c1 c2 segment_order seg_inflow0_in outflow_ts_in = Ok r
       ∧ day_inv n P r
       ∧ array_of n P (Kernel.seg_upstream_inflow r)
       ∧ (∀ k : nat, Z.of_nat k ∉ segment_order →
            Kernel.inflow_ts r !! k = Kernel.times_zero seg_inflow0_in !! k)
       ∧ (all_close tsi 23 →
          ∀ k : nat, Z.of_nat k ∈ segment_order →
            Kernel.inflow_ts r !! k = Some (f_lit 0%Q)).
Proof.
  intros Hi0 Hots. unfold Kernel._muskingum_mann_numpy.
  pose proof HP as (P0 & P24 & Padd & Pmul & Pdiv).
  destruct (day_loop_ok seg_inflow0_in outflow_ts_in Hi0 Hots)
    as (st & -> & Hinv & Hfr & Hz).
  cbn [mbind result_bind]. eexists. split; [done|].
  destruct Hinv as (Hi0' & Hin & Hout & Hout0 & Hits & Hots' & Hsum).
  assert (∀ a, array_of n P a →
               array_of n P ((λ x, x / f_lit 24%Q)%f64 <$> a)) as Hmean.
  { intros a Ha. apply array_of_fmap; [done|]. intros x Hx. by apply Pdiv. }
  split; [|split; [|split]].
  - unfold day_inv, Kernel.daily_means. cbn.
    split; [done|]. split; [by apply Hmean|]. split; [by apply Hmean|].
    tauto.
  - cbn. by apply Hmean.
  - done.
  - done.
Qed.
End KernelFacts.


Lemma closed_under_True {F} `{Float64 F} : closed_under (λ _ : F, True).
Proof. unfold closed_under. tauto. Qed.

Lemma Q_nonneg_closed : closed_under (F:=Q) (λ x, (0 <= x)%Q).
Proof.
  unfold closed_under. cbn. repeat split.
  - done.
  - done.
  - intros x y Hx Hy. rewrite Qred_correct.
    change 0%Q with (0 + 0)%Q. by apply Qplus_le_compat.
  - intros x y Hx Hy. rewrite Qred_correct. by apply Qmult_le_0_compat.
  - intros x y Hx Hy. rewrite Qred_correct. unfold Qdiv.
    apply Qmult_le_0_compat; [done|]. by apply Qinv_le_0_compat.
Qed.

(** ** The inflow_ts accumulator at the end of the day (C7) *)

(** The banding loop yields one of the nine strides, whatever K is (a NaN
    falls through to the last band), in every float64 arithmetic. *)
Lemma band_valid {F} `{Float64 F} (k : F) : valid_tsi (Precond.band k).2.
Proof.
  unfold Precond.band, valid_tsi.
  repeat (destruct (_ <? _)%f64; [cbn; set_solver|]). cbn. set_solver.
Qed.

Lemma tsi_of_valid {F} `{Float64 F} (Kcoef : list F) :
  Forall valid_tsi (Precond.tsi_of Kcoef).
Proof.
  unfold Precond.tsi_of. apply Forall_fmap, Forall_forall.
  intros k _. apply band_valid.
Qed.




(** ** The preconditioner (C6) *)

Section CoefArrays.
Context {F : Type} `{Float64 F}.

Ltac invert_lookups :=
  repeat match goal with
         | Hl : zip_with _ _ _ !! _ = Some _ |- _ =>
             apply lookup_zip_with_Some in Hl as (? & ? & ? & ? & ?)
         | Hl : (_ <$> _) !! _ = Some _ |- _ =>
             apply list_lookup_fmap_Some_1 in Hl as (? & ? & ?)
         end; simplify_eq.

Lemma d_of_lookup (K x ts : list F) (i : nat) (v : F) :
  Precond.d_of K x ts !! i = Some v →
  ∃ k xi t, K !! i = Some k ∧ x !! i = Some xi ∧ ts !! i = Some t
            ∧ v = d_at k xi t.
Proof.
  unfold Precond.d_of, Precond.half. intros Hv. invert_lookups.
  eauto 10.
Qed.

Lemma c0_raw_lookup (K x ts : list F) (i : nat) (v : F) :
  Precond.c0_raw K x ts !! i = Some v →
  ∃ k xi t, K !! i = Some k ∧ x !! i = Some xi ∧ ts !! i = Some t
            ∧ v = c0_at k xi t.
Proof.
  unfold Precond.c0_raw, Precond.half. intros Hv. invert_lookups.
  match goal with
  | Hd : Precond.d_of _ _ _ !! _ = Some _ |- _ =>
      apply d_of_lookup in Hd as (k & xi & t & ? & ? & ? & ->)
  end.
  simplify_eq. eauto 10.
Qed.

Lemma c1_raw_lookup (K x ts : list F) (i : nat) (v : F) :
  Precond.c1_raw K x ts !! i = Some v →
  ∃ k xi t, K !! i = Some k ∧ x !! i = Some xi ∧ ts !! i = Some t
            ∧ v = c1_at k xi t.
Proof.
  unfold Precond.c1_raw, Precond.half. intros Hv. invert_lookups.
  match goal with
  | Hd : Precond.d_of _ _ _ !! _ = Some _ |- _ =>
      apply d_of_lookup in Hd as (k & xi & t & ? & ? & ? & ->)
  end.
  simplify_eq. eauto 10.
Qed.

Lemma c2_raw_lookup (K x ts : list F) (i : nat) (v : F) :
  Precond.c2_raw K x ts !! i = Some v →
  ∃ k xi t, K !! i = Some k ∧ x !! i = Some xi ∧ ts !! i = Some t
            ∧ v = c2_at k xi t.
Proof.
  unfold Precond.c2_raw, Precond.half. intros Hv. invert_lookups.
  match goal with
  | Hd : Precond.d_of _ _ _ !! _ = Some _ |- _ =>
      apply d_of_lookup in Hd as (k & xi & t & ? & ? & ? & ->)
  end.
  simplify_eq. eauto 10.
Qed.

(** The corrected c1 array holds, segment by segment, the corrected c1
    of the specification. *)
Lemma c1_of_lookup (K x ts : list F) (i : nat) (v : F) :
  Precond.c1_of K x ts !! i = Some v →
  ∃ k xi t, K !! i = Some k ∧ x !! i = Some xi ∧ ts !! i = Some t
            ∧ v = c1_corrected k xi t.
Proof.
  unfold Precond.c1_of, Precond.absorb. intros Hv. invert_lookups.
  repeat match goal with
  | Hd : Precond.c0_raw _ _ _ !! _ = Some _ |- _ =>
      apply c0_raw_lookup in Hd as (? & ? & ? & ? & ? & ? & ->)
  | Hd : Precond.c1_raw _ _ _ !! _ = Some _ |- _ =>
      apply c1_raw_lookup in Hd as (? & ? & ? & ? & ? & ? & ->)
  | Hd : Precond.c2_raw _ _ _ !! _ = Some _ |- _ =>
      apply c2_raw_lookup in Hd as (? & ? & ? & ? & ? & ? & ->)
  end.
  simplify_eq. eauto 10.
Qed.
End CoefArrays.

(** *** Exact arithmetic *)

Lemma Q_ltb_true (x y : Q) : (x <? y)%f64 = true ↔ (x < y)%Q.
Proof.
  cbn. rewrite negb_true_iff, <- not_true_iff_false, Qle_bool_iff.
  split; [apply Qnot_le_lt | apply Qlt_not_le].
Qed.

Lemma Q_ltb_false (x y : Q) : (x <? y)%f64 = false ↔ (y <= x)%Q.
Proof. cbn. by rewrite negb_false_iff, Qle_bool_iff. Qed.

(** The algebra behind the corrections: over a positive denominator,
    c1 alone, c1 + c2, c1 + c0 and c1 + c2 + c0 have the numerators
    K x + h, K, 2 h and K - K x + h. *)
Lemma coef_algebra (K x h D : Q) :
  (0 <= K)%Q → (0 <= x)%Q → (x <= 1)%Q → (0 <= h)%Q → (0 < D)%Q →
  (0 <= (K * x + h) / D)%Q
  ∧ (0 <= (K * x + h) / D + (K - K * x - h) / D)%Q
  ∧ (0 <= (K * x + h) / D + (- (K * x) + h) / D)%Q
  ∧ (0 <= (K * x + h) / D + (K - K * x - h) / D + (- (K * x) + h) / D)%Q.
Proof.
  intros HK Hx0 Hx1 Hh HD.
  assert (0 <= K * x)%Q as HKx by (by apply Qmult_le_0_compat).
  assert (K * x <= K)%Q as HKx1.
  { assert (0 <= K * (1 - x))%Q by (apply Qmult_le_0_compat; lra). lra. }
  assert (0 <= / D)%Q as HiD by (apply Qinv_le_0_compat; lra).
  unfold Qdiv. rewrite <- !Qmult_plus_distr_l.
  repeat split; apply Qmult_le_0_compat; try done; lra.
Qed.

Lemma Q_d_at_pos (k x t : Q) :
  (0 <= k)%Q → (0 <= x)%Q → (x <= 1)%Q → (0 <= t)%Q → (0 < d_at k x t)%Q.
Proof.
  intros Hk Hx0 Hx1 Ht. unfold d_at. cbv zeta.
  destruct (f_ltb (F:=Q) _ _) eqn:Hguard; [done|].
  apply Q_ltb_false in Hguard. cbn in *.
  rewrite !Qred_correct in *.
  assert (0 <= k * x)%Q as HKx by (by apply Qmult_le_0_compat).
  assert (k * x <= k)%Q as HKx1.
  { assert (0 <= k * (1 - x))%Q by (apply Qmult_le_0_compat; lra). lra. }
  rewrite Qabs_pos in Hguard by lra. lra.
Qed.

Lemma Q_c1_corrected_nonneg (k x t : Q) :
  (0 <= k)%Q → (0 <= x)%Q → (x <= 1)%Q → (0 <= t)%Q →
  (0 <= c1_corrected k x t)%Q.
Proof.
  intros Hk Hx0 Hx1 Ht.
  pose proof (Q_d_at_pos k x t Hk Hx0 Hx1 Ht) as HD.
  unfold c1_corrected, c0_at, c1_at, c2_at. cbv zeta.
  revert HD. generalize (d_at k x t). intros D HD.
  assert (0 <= (1 # 2) * t)%Q as Hh by lra.
  destruct (coef_algebra k x ((1 # 2) * t) D Hk Hx0 Hx1 Hh HD)
    as (H1 & H12 & H10 & H120).
  repeat destruct (f_ltb (F:=Q) _ _); cbn; rewrite !Qred_correct; done.
Qed.

Lemma Q_clamp0_nonneg (c : list Q) :
  Forall (λ v, (0 <= v)%Q) (Precond.clamp0 c).
Proof.
  unfold Precond.clamp0. apply Forall_fmap, Forall_forall. intros b _.
  unfold compose. cbn beta. destruct (f_ltb (F:=Q) _ _) eqn:Hb; [done|].
  by apply Q_ltb_false in Hb.
Qed.

(** K lies in [0.01, 24] whatever the velocity is. *)
Lemma Q_Kcoef_range np_sqrt np_power LAKE (n : nat) (segment_type : list Z)
      (seg_length mann_n seg_slope seg_depth : list Q) :
  Forall (λ k, (1 # 100 <= k)%Q ∧ (k <= 24)%Q)
         (Precond.Kcoef_of LAKE n segment_type seg_length
            (Precond.velocity np_sqrt np_power mann_n seg_slope seg_depth)).
Proof.
  unfold Precond.Kcoef_of. cbv zeta.
  apply Forall_fmap, Forall_fmap, Forall_forall. intros k _.
  unfold compose. cbn beta.
  destruct (k <? f_lit (1 # 100)%Q)%f64 eqn:Hlo.
  - destruct (f_ltb (F:=Q) _ _) eqn:Hhi; [done|]. done.
  - apply Q_ltb_false in Hlo. destruct (f_ltb (F:=Q) _ _) eqn:Hhi.
    + done.
    + apply Q_ltb_false in Hhi. done.
Qed.

Lemma Q_band_ts_nonneg (k : Q) : (0 <= (Precond.band k).1)%Q.
Proof.
  unfold Precond.band. repeat (destruct (f_ltb (F:=Q) _ _); [done|]). done.
Qed.

Lemma Q_coefficients_nonneg (K x : list Q) :
  Forall (λ k, (0 <= k)%Q) K →
  Forall (λ v, (0 <= v)%Q ∧ (v <= 1 # 2)%Q) x →
  Forall (λ v, (0 <= v)%Q) (Precond.c0_of K x (Precond.ts_of K))
  ∧ Forall (λ v, (0 <= v)%Q) (Precond.c1_of K x (Precond.ts_of K))
  ∧ Forall (λ v, (0 <= v)%Q) (Precond.c2_of K x (Precond.ts_of K)).
Proof.
  intros HK Hx. split; [apply Q_clamp0_nonneg|].
  split; [|apply Q_clamp0_nonneg].
  apply Forall_lookup. intros i v Hv.
  apply c1_of_lookup in Hv as (k & xi & t & Hk & Hxi & Ht & ->).
  unfold Precond.ts_of in Ht.
  apply list_lookup_fmap_Some_1 in Ht as (k' & -> & Hk').
  rewrite Hk in Hk'. injection Hk' as <-.
  eapply Forall_lookup_1 in HK; [|done].
  eapply Forall_lookup_1 in Hx as [Hx0 Hx1]; [|done].
  apply Q_c1_corrected_nonneg; [done|done|lra|apply Q_band_ts_nonneg].
Qed.



(** ** Non-negative outflow (C1) *)

Lemma Kcoef_of_length {F} `{Float64 F} np_sqrt np_power LAKE (n : nat)
      (segment_type : list Z) (seg_length mann_n seg_slope seg_depth : list F) :
  length segment_type = n → length seg_length = n → length mann_n = n →
  length seg_slope = n → length seg_depth = n →
  length (Precond.Kcoef_of LAKE n segment_type seg_length
            (Precond.velocity np_sqrt np_power mann_n seg_slope seg_depth))
  = n.
Proof.
  intros. unfold Precond.Kcoef_of, Precond.velocity. cbv zeta.
  repeat first [rewrite length_fmap | rewrite length_zip_with
               | rewrite length_replicate].
  lia.
Qed.

Lemma coefficient_lengths {F} `{Float64 F} (n : nat) (K x : list F) :
  length K = n → length x = n →
  length (Precond.ts_of K) = n ∧ length (Precond.tsi_of K) = n
  ∧ length (Precond.c0_of K x (Precond.ts_of K)) = n
  ∧ length (Precond.c1_of K x (Precond.ts_of K)) = n
  ∧ length (Precond.c2_of K x (Precond.ts_of K)) = n.
Proof.
  intros HK Hx.
  unfold Precond.ts_of, Precond.tsi_of, Precond.c0_of, Precond.c1_of,
    Precond.c2_of, Precond.clamp0, Precond.absorb, Precond.c0_raw,
    Precond.c1_raw, Precond.c2_raw, Precond.d_of, Precond.half.
  cbv zeta.
  repeat split;
    repeat first [rewrite length_fmap | rewrite length_zip_with]; lia.
Qed.



(** ** Kahn's algorithm on functional graphs *)

Lemma filter_ext_in {A} (P1 P2 : A → Prop) `{!∀ x, Decision (P1 x)}
      `{!∀ x, Decision (P2 x)} (l : list A) :
  (∀ x, x ∈ l → P1 x ↔ P2 x) → filter P1 l = filter P2 l.
Proof.
  induction l as [|x l IH]; intros Hext; [done|].
  rewrite !filter_cons.
  rewrite IH by (intros y Hy; apply Hext; by right).
  destruct (decide (P1 x)) as [H1|H1].
  - rewrite decide_True; [done|]. apply Hext; [by left|done].
  - rewrite decide_False; [done|]. intros H2. apply H1.
    apply Hext; [by left|done].
Qed.

Lemma filter_none {A} (P : A → Prop) `{!∀ x, Decision (P x)} (l : list A) :
  (∀ x, x ∈ l → ¬ P x) → filter P l = [].
Proof.
  induction l as [|x l IH]; intros Hno; [done|].
  rewrite filter_cons, decide_False by (apply Hno; by left).
  apply IH. intros y Hy. apply Hno. by right.
Qed.

Section Pending.
Variable D : list Z.

Lemma pending_edges_step (es : list (Z * Z)) (node c v : Z) :
  NoDup es.*1 → (node, c) ∈ es → node ∉ D →
  length (filter (λ e, e.2 = v ∧ e.1 ∉ D) es)
  = (length (filter (λ e, e.2 = v ∧ e.1 ∉ D ++ [node]) es)
     + if decide (v = c) then 1 else 0)%nat.
Proof.
  intros Hnd Hin HnD. induction es as [|[a b] es IH]; [by inversion Hin|].
  rewrite fmap_cons in Hnd. apply NoDup_cons in Hnd as [Ha Hnd].
  rewrite !filter_cons. cbn [fst snd].
  apply elem_of_cons in Hin as [[= <- <-]|Hin].
  - assert (filter (λ e, e.2 = v ∧ e.1 ∉ D ++ [node]) es
            = filter (λ e, e.2 = v ∧ e.1 ∉ D) es) as ->.
    { apply filter_ext_in. intros [a b] Hab. cbn.
      rewrite elem_of_app, list_elem_of_singleton.
      assert (a ≠ node); [|tauto].
      intros ->. apply Ha. apply list_elem_of_fmap. by exists (node, b). }
    destruct (decide (v = c)) as [->|Hne].
    + rewrite decide_True by done.
      rewrite decide_False
        by (rewrite elem_of_app, list_elem_of_singleton; tauto).
      cbn. lia.
    + rewrite !decide_False by (intros [? _]; congruence). lia.
  - specialize (IH Hnd Hin).
    assert (a ≠ node) as Hne.
    { intros ->. apply Ha. apply list_elem_of_fmap. by exists (node, c). }
    destruct (decide (b = v ∧ a ∉ D)) as [Hd|Hd].
    + rewrite decide_True
        by (rewrite elem_of_app, list_elem_of_singleton; tauto).
      cbn. lia.
    + rewrite decide_False
        by (rewrite elem_of_app, list_elem_of_singleton; tauto).
      done.
Qed.

Lemma pending_edges_skip (es : list (Z * Z)) (node v : Z) :
  node ∉ es.*1 →
  length (filter (λ e, e.2 = v ∧ e.1 ∉ D ++ [node]) es)
  = length (filter (λ e, e.2 = v ∧ e.1 ∉ D) es).
Proof.
  intros Hn. f_equal. apply filter_ext_in.
  intros [a b] Hab. cbn. rewrite elem_of_app, list_elem_of_singleton.
  assert (a ≠ node); [|tauto].
  intros ->. apply Hn. apply list_elem_of_fmap. by exists (node, b).
Qed.
End Pending.

Lemma neighbors_none (g : Nx.DiGraph) (node : Z) :
  node ∉ (Nx.edges g).*1 → Nx.neighbors g node = [].
Proof.
  intros Hn. unfold Nx.neighbors.
  rewrite filter_none; [done|].
  intros [a b] Hab. cbn. intros ->.
  apply Hn. apply list_elem_of_fmap. by exists (node, b).
Qed.

Lemma neighbors_one (g : Nx.DiGraph) (node c : Z) :
  NoDup (Nx.edges g).*1 → (node, c) ∈ Nx.edges g →
  Nx.neighbors g node = [c].
Proof.
  unfold Nx.neighbors. generalize (Nx.edges g). intros es Hnd Hin.
  induction es as [|[a b] es IH]; [by inversion Hin|].
  rewrite fmap_cons in Hnd. apply NoDup_cons in Hnd as [Ha Hnd].
  rewrite filter_cons. cbn [fst].
  apply elem_of_cons in Hin as [[= <- <-]|Hin].
  - rewrite decide_True by done. rewrite fmap_cons. cbn. f_equal.
    rewrite filter_none; [done|].
    intros [a b] Hab. cbn. intros ->.
    apply Ha. apply list_elem_of_fmap. by exists (node, b).
  - rewrite decide_False; [by apply IH|].
    intros ->. apply Ha. apply list_elem_of_fmap. by exists (node, c).
Qed.

Lemma pending_zero (g : Nx.DiGraph) (D : list Z) (u v : Z) :
  pending g D v = 0%nat → gedge g u v → u ∈ D.
Proof.
  unfold pending, gedge. intros Hp Huv.
  apply length_zero_iff_nil in Hp.
  destruct (decide (u ∈ D)) as [|Hn]; [done|]. exfalso.
  assert ((u, v) ∈ filter (λ e, e.2 = v ∧ e.1 ∉ D) (Nx.edges g)) as Hin.
  { apply list_elem_of_filter. by cbn. }
  rewrite Hp in Hin. by apply elem_of_nil in Hin.
Qed.

Lemma pending_nonzero (g : Nx.DiGraph) (D : list Z) (v : Z) :
  pending g D v ≠ 0%nat → ∃ u, gedge g u v ∧ u ∉ D.
Proof.
  unfold pending, gedge. intros Hp.
  destruct (filter (λ e, e.2 = v ∧ e.1 ∉ D) (Nx.edges g))
    as [|[a b] l] eqn:Hf; [done|].
  assert ((a, b) ∈ filter (λ e, e.2 = v ∧ e.1 ∉ D) (Nx.edges g)) as Hin.
  { rewrite Hf. by left. }
  apply list_elem_of_filter in Hin as [[Hb Ha] Hin]. cbn in *.
  subst. by exists a.
Qed.

Section Kahn.
Variables (g : Nx.DiGraph) (C : Z → Prop).
Hypothesis Hfun : functional g.
Hypothesis HC : ∀ v, C v → ∃ p, C p ∧ gedge g p v.

Lemma upstream_first_snoc (D : list Z) (node : Z) :
  upstream_first g D → pending g D node = 0%nat →
  upstream_first g (D ++ [node]).
Proof.
  intros Hup Hp l1 v l2 u Hl Huv.
  destruct l2 as [|x l2 _] using rev_ind.
  - apply app_inj_tail in Hl as [<- <-]. by eapply pending_zero.
  - rewrite app_comm_cons, app_assoc in Hl.
    apply app_inj_tail in Hl as [-> _]. by eapply Hup.
Qed.

(** Visiting one node of the current generation. *)
Lemma visit_ok (imap : gmap Z nat) (D Qrest Z' : list Z) (node : Z) :
  kahn_inv g C imap D (node :: Qrest) →
  ∃ imap' new, Nx.visit g (imap, Z') node = Ok (imap', Z' ++ new)
               ∧ kahn_inv g C imap' (D ++ [node]) (Qrest ++ new).
Proof.
  intros (Hnd & Hsub & Hmap & Hzero & HnC & Hup).
  destruct Hfun as (Hnodes & Hedges & Hends).
  assert (node ∉ D) as HnodeD.
  { apply NoDup_app in Hnd as (_ & Hdis & _). intros Hin.
    apply (Hdis node Hin). by left. }
  assert (pending g D node = 0%nat) as Hpnode.
  { apply Hzero; [apply Hsub|]; set_solver. }
  assert (NoDup ((D ++ [node]) ++ Qrest)) as Hnd'.
  { by rewrite <- app_assoc. }
  unfold Nx.visit.
  destruct (decide (node ∈ (Nx.edges g).*1)) as [Hout|Hout].
  - apply list_elem_of_fmap in Hout as ([a c] & -> & Hin). cbn [fst] in *.
    rewrite (neighbors_one g a c Hedges Hin). cbn [foldM].
    assert (∀ v, pending g D v
                 = (pending g (D ++ [a]) v
                    + if decide (v = c) then 1 else 0)%nat) as Hstep.
    { intros v. by apply pending_edges_step. }
    destruct (Hends a c Hin) as [_ Hc].
    unfold Nx.relax. cbn [fst snd]. rewrite Hmap.
    pose proof (Hstep c) as Hsc. rewrite decide_True in Hsc by done.
    rewrite decide_False by lia.
    assert (c ∉ D ++ a :: Qrest) as HcQ.
    { intros Hin'. apply Hzero in Hin'; [lia|done]. }
    destruct (decide (Nat.pred (pending g D c) = 0%nat)) as [Hlast|Hmore].
    + cbn [mbind result_bind]. exists (delete c imap), [c].
      split; [done|]. split; [|split; [|split; [|split; [|split]]]].
      * rewrite app_assoc. apply NoDup_app. split; [done|]. split.
        -- intros v Hv. rewrite list_elem_of_singleton. intros ->.
           apply HcQ. set_solver.
        -- apply NoDup_singleton.
      * intros v Hv. destruct (decide (v = c)) as [->|Hne]; [done|].
        apply Hsub. set_solver.
      * intros v. destruct (decide (v = c)) as [->|Hne].
        -- rewrite lookup_delete_eq. rewrite decide_True by lia. done.
        -- rewrite lookup_delete_ne by done. rewrite Hmap, (Hstep v).
           rewrite (decide_False (P := v = c)) by done.
           by rewrite Nat.add_0_r.
      * intros v Hv. destruct (decide (v = c)) as [->|Hne].
        -- split; [lia|set_solver].
        -- specialize (Hstep v).
           rewrite (decide_False (P := v = c)) in Hstep by done.
           rewrite Nat.add_0_r in Hstep.
           rewrite <- Hstep, <- (Hzero v Hv). set_solver.
      * intros v Hv. destruct (decide (v = c)) as [->|Hne].
        -- intros HCc. destruct (HC c HCc) as (p0 & HCp & Hpc).
           assert (p0 ∈ D ++ [a]) as Hp0.
           { eapply pending_zero; [|done]. lia. }
           apply (HnC p0); [set_solver|done].
        -- apply HnC. set_solver.
      * by apply upstream_first_snoc.
    + cbn [mbind result_bind]. exists (<[c := Nat.pred (pending g D c)]> imap), [].
      rewrite !app_nil_r. split; [done|].
      split; [done|]. split; [|split; [|split; [|split]]].
      * intros v Hv. apply Hsub. set_solver.
      * intros v. destruct (decide (v = c)) as [->|Hne].
        -- rewrite lookup_insert_eq. rewrite decide_False by lia.
           f_equal. lia.
        -- rewrite lookup_insert_ne by done. rewrite Hmap, (Hstep v).
           rewrite (decide_False (P := v = c)) by done.
           by rewrite Nat.add_0_r.
      * intros v Hv. destruct (decide (v = c)) as [->|Hne].
        -- split; [|lia]. intros Hin'. exfalso. apply HcQ. set_solver.
        -- specialize (Hstep v).
           rewrite (decide_False (P := v = c)) in Hstep by done.
           rewrite Nat.add_0_r in Hstep.
           rewrite <- Hstep, <- (Hzero v Hv). set_solver.
      * intros v Hv. apply HnC. set_solver.
      * by apply upstream_first_snoc.
  - rewrite (neighbors_none g node Hout). cbn [foldM].
    exists imap, []. rewrite !app_nil_r. split; [done|].
    assert (∀ v, pending g (D ++ [node]) v = pending g D v) as Hstep.
    { intros v. by apply pending_edges_skip. }
    split; [done|]. split; [|split; [|split; [|split]]].
    + intros v Hv. apply Hsub. set_solver.
    + intros v. by rewrite Hstep.
    + intros v Hv. rewrite Hstep, <- (Hzero v Hv). set_solver.
    + intros v Hv. apply HnC. set_solver.
    + by apply upstream_first_snoc.
Qed.

(** One generation. *)
Lemma process_ok (gen : list Z) :
  ∀ (imap : gmap Z nat) (D Z' : list Z),
    kahn_inv g C imap D (gen ++ Z') →
    ∃ imap' Z'', foldM (Nx.visit g) gen (imap, Z') = Ok (imap', Z'')
                 ∧ kahn_inv g C imap' (D ++ gen) Z''.
Proof.
  induction gen as [|node gen IH]; intros imap D Z' Hinv.
  - exists imap, Z'. by rewrite app_nil_r.
  - cbn [foldM]. rewrite <- app_comm_cons in Hinv.
    destruct (visit_ok imap D (gen ++ Z') Z' node Hinv)
      as (imap1 & new & -> & Hinv1).
    cbn [mbind result_bind]. rewrite <- app_assoc in Hinv1.
    destruct (IH imap1 (D ++ [node]) (Z' ++ new) Hinv1)
      as (imap2 & Z2 & Hfold & Hinv2).
    exists imap2, Z2. split; [done|]. by rewrite <- app_assoc in Hinv2.
Qed.

Lemma kahn_inv_length (imap : gmap Z nat) (D Q : list Z) :
  kahn_inv g C imap D Q →
  (length D + length Q ≤ length (Nx.nodes g))%nat.
Proof.
  intros (Hnd & Hsub & _). rewrite <- length_app.
  apply submseteq_length. by apply NoDup_submseteq.
Qed.

(** The loop over the generations ends with an empty queue, within the
    fuel; it yields the visited nodes when no count is left and raises
    NetworkXUnfeasible otherwise. *)
Lemma generations_ok (fuel : nat) :
  ∀ (imap : gmap Z nat) (D Q : list Z),
    kahn_inv g C imap D Q →
    (length (Nx.nodes g) ≤ fuel + length D)%nat →
    ∃ imap' D', kahn_inv g C imap' D' []
                ∧ Nx.generations g fuel imap Q D
                  = if decide (imap' = ∅) then Ok D'
                    else Raise NetworkXUnfeasible.
Proof.
  induction fuel as [|fuel IH]; intros imap D Q Hinv Hfuel.
  - destruct Q as [|q Q]; [by exists imap, D|].
    apply kahn_inv_length in Hinv. cbn in Hinv, Hfuel. lia.
  - destruct Q as [|q Q]; [by exists imap, D|].
    cbn [Nx.generations]. unfold Nx.process_generation.
    pose proof (kahn_inv_length _ _ _ Hinv) as Hlen.
    rewrite <- (app_nil_r (q :: Q)) in Hinv.
    destruct (process_ok (q :: Q) imap D [] Hinv)
      as (imap1 & Z1 & -> & Hinv1).
    cbn [mbind result_bind].
    apply IH; [done|]. rewrite length_app. cbn in *. lia.
Qed.

Lemma pending_nil (v : Z) : pending g [] v = Nx.in_degree g v.
Proof.
  unfold pending, Nx.in_degree. f_equal. apply filter_ext_in.
  intros e _. rewrite elem_of_nil. tauto.
Qed.

Lemma in_degree_node (v : Z) :
  Nx.in_degree g v ≠ 0%nat → v ∈ Nx.nodes g.
Proof.
  rewrite <- pending_nil. intros Hp.
  apply pending_nonzero in Hp as (u & Huv & _).
  destruct Hfun as (_ & _ & Hends). by apply (Hends u v).
Qed.

(** The state before the first generation. *)
Lemma kahn_inv_init :
  kahn_inv g C (Nx.indegree_map0 g) [] (Nx.zero_indegree0 g).
Proof.
  pose proof Hfun as (Hnodes & Hedges & Hends).
  unfold kahn_inv, Nx.zero_indegree0. cbn [app].
  split; [by apply NoDup_filter|].
  split; [intros v Hv; by apply list_elem_of_filter in Hv as [_ Hv]|].
  split; [|split; [|split]].
  - intros v. rewrite pending_nil. unfold Nx.indegree_map0.
    destruct (decide (Nx.in_degree g v = 0%nat)) as [Hz|Hnz].
    + apply not_elem_of_list_to_map_1. intros Hin.
      apply list_elem_of_fmap in Hin as ([v' d] & -> & Hin).
      apply list_elem_of_filter in Hin as [Hd Hin]. cbn in *.
      apply list_elem_of_fmap in Hin as (w & [= -> ->] & _). done.
    + apply elem_of_list_to_map_1.
      * apply NoDup_fmap_fst.
        -- intros x y1 y2 H1 H2.
           apply list_elem_of_filter in H1 as [_ H1].
           apply list_elem_of_filter in H2 as [_ H2].
           apply list_elem_of_fmap in H1 as (w1 & [= -> ->] & _).
           apply list_elem_of_fmap in H2 as (w2 & [= -> ->] & _). done.
        -- apply NoDup_filter. apply NoDup_fmap_2_strong; [|done].
           by intros x y _ _ [= ->].
      * apply list_elem_of_filter. split; [done|].
        apply list_elem_of_fmap. exists v. split; [done|].
        by apply in_degree_node.
  - intros v Hv. rewrite pending_nil, list_elem_of_filter. tauto.
  - intros v Hv HCv. apply list_elem_of_filter in Hv as [Hz _].
    destruct (HC v HCv) as (p0 & _ & Hpv).
    rewrite <- pending_nil in Hz.
    apply (pending_zero g [] p0 v Hz) in Hpv. by apply elem_of_nil in Hpv.
  - intros l1 v l2 u Hl. by destruct l1.
Qed.

(** The sort ends in one of two ways: it yields a list that visits
    every node once, upstream first, and avoids [C]; or it raises
    NetworkXUnfeasible and some node is left with a pending in-edge. *)
Lemma topological_sort_ok :
  (∃ l, Nx.topological_sort g = Ok l ∧ l ≡ₚ Nx.nodes g
        ∧ upstream_first g l ∧ ∀ v, v ∈ Nx.nodes g → ¬ C v)
  ∨ (Nx.topological_sort g = Raise NetworkXUnfeasible
     ∧ ∃ D : list Z, (∃ v, v ∈ Nx.nodes g ∧ v ∉ D)
            ∧ ∀ v, v ∈ Nx.nodes g → v ∉ D →
                   ∃ u, gedge g u v ∧ u ∈ Nx.nodes g ∧ u ∉ D).
Proof.
  unfold Nx.topological_sort.
  destruct (generations_ok (length (Nx.nodes g)) (Nx.indegree_map0 g) []
              (Nx.zero_indegree0 g) kahn_inv_init)
    as (imap & D & Hinv & ->); [cbn; lia|].
  destruct Hinv as (Hnd & Hsub & Hmap & Hzero & HnC & Hup).
  rewrite app_nil_r in *.
  pose proof Hfun as (Hnodes & Hedges & Hends).
  destruct (decide (imap = ∅)) as [->|Hne].
  - left. exists D. split; [done|].
    assert (∀ v, v ∈ Nx.nodes g → v ∈ D) as Hall.
    { intros v Hv. apply Hzero; [done|]. specialize (Hmap v).
      rewrite lookup_empty in Hmap. by case_decide. }
    split; [|split; [done|]].
    + apply NoDup_Permutation; [done|done|]. intros v. split; auto.
    + intros v Hv. apply HnC. by apply Hall.
  - right. split; [done|]. exists D. split.
    + apply map_choose in Hne as (v & d & Hv). rewrite Hmap in Hv.
      case_decide as Hp; [done|].
      assert (v ∈ Nx.nodes g) as Hvn.
      { apply pending_nonzero in Hp as (u & Huv & _). by apply (Hends u v). }
      exists v. split; [done|]. intros HvD. apply Hp. by apply Hzero.
    + intros v Hv HvD.
      assert (pending g D v ≠ 0%nat) as Hp.
      { intros Hp. apply HvD. by apply Hzero. }
      apply pending_nonzero in Hp as (u & Huv & HuD).
      exists u. split; [done|]. split; [|done]. by apply (Hends u v).
Qed.
End Kahn.

(** *** Nodes left behind lie on or below a cycle *)

Lemma tc_last_step {A} (R : relation A) (x y : A) :
  tc R x y → ∃ p, R p y ∧ (p = x ∨ tc R x p).
Proof.
  induction 1 as [x y Hxy|x y z Hxy Hyz (p & Hpz & Hp)].
  - exists x. auto.
  - exists p. split; [done|]. right.
    destruct Hp as [->|Hp]; [by apply tc_once|by eapply tc_l].
Qed.

(** A node on a cycle has a predecessor on a cycle. *)
Lemma cycle_pred (g : Nx.DiGraph) (v : Z) :
  tc (gedge g) v v → ∃ p, tc (gedge g) p p ∧ gedge g p v.
Proof.
  intros Hv. destruct (tc_last_step _ _ _ Hv) as (p & Hpv & [->|Hvp]).
  - by exists v.
  - exists p. split; [|done]. by eapply tc_l.
Qed.

(** Walking upstream inside a finite set in which every node has a
    predecessor must come back to a node already met. *)
Lemma upstream_walk_cycles (g : Nx.DiGraph) (S : Z → Prop) :
  (∀ v, S v → v ∈ Nx.nodes g) →
  (∀ v, S v → ∃ u, gedge g u v ∧ S u) →
  ∀ (fuel : nat) (W : list Z) (v : Z),
    S v → NoDup W → (∀ w, w ∈ W → w ∈ Nx.nodes g) →
    (∀ w, w ∈ W → tc (gedge g) v w) →
    (length (Nx.nodes g) < fuel + length W)%nat →
    cyclic g.
Proof.
  intros Hnodes Hpred. induction fuel as [|fuel IH];
    intros W v Hv Hnd Hsub Hreach Hlen.
  - assert (length W ≤ length (Nx.nodes g))%nat; [|lia].
    apply submseteq_length. by apply NoDup_submseteq.
  - destruct (decide (v ∈ W)) as [Hin|Hnin].
    + exists v. by apply Hreach.
    + destruct (Hpred v Hv) as (u & Huv & Hu).
      apply (IH (v :: W) u Hu).
      * by apply NoDup_cons.
      * intros w [->|Hw]%elem_of_cons; [by apply Hnodes|by apply Hsub].
      * intros w [->|Hw]%elem_of_cons; [by apply tc_once|].
        eapply tc_l; [done|]. by apply Hreach.
      * cbn. lia.
Qed.

(** [topological_sort] on a functional graph: it raises
    NetworkXUnfeasible exactly when the graph has a cycle, and otherwise
    yields every node once, upstream first. *)
Lemma topological_sort_spec (g : Nx.DiGraph) :
  functional g →
  (cyclic g ∧ Nx.topological_sort g = Raise NetworkXUnfeasible)
  ∨ (¬ cyclic g
     ∧ ∃ l, Nx.topological_sort g = Ok l ∧ l ≡ₚ Nx.nodes g
            ∧ upstream_first g l).
Proof.
  intros Hfun.
  destruct (topological_sort_ok g (λ v, tc (gedge g) v v) Hfun
              (cycle_pred g))
    as [(l & Hl & Hperm & Hup & Hnc)|(Hraise & D & (v0 & Hv0 & Hv0D) & Hpred)].
  - right. split; [|by exists l].
    intros [u Hu]. apply (Hnc u); [|done].
    apply tc_last_step in Hu as (p0 & Hpu & _).
    destruct Hfun as (_ & _ & Hends). by apply (Hends p0 u).
  - left. split; [|done].
    apply (upstream_walk_cycles g (λ v, v ∈ Nx.nodes g ∧ v ∉ D))
      with (fuel := S (length (Nx.nodes g))) (W := []) (v := v0).
    + by intros v [Hv _].
    + intros v [Hv HvD]. destruct (Hpred v Hv HvD) as (u & Huv & Hu & HuD).
      by exists u.
    + done.
    + constructor.
    + intros w Hw. by apply elem_of_nil in Hw.
    + intros w Hw. by apply elem_of_nil in Hw.
    + cbn. lia.
Qed.

(** ** The network builder (C4, C5) *)

Lemma add_node_spec (g : Nx.DiGraph) (u : Z) :
  NoDup (Nx.nodes g) →
  NoDup (Nx.nodes (Nx.add_node g u))
  ∧ (∀ v, v ∈ Nx.nodes (Nx.add_node g u) ↔ v ∈ Nx.nodes g ∨ v = u)
  ∧ Nx.edges (Nx.add_node g u) = Nx.edges g.
Proof.
  intros Hnd. unfold Nx.add_node.
  destruct (decide (u ∈ Nx.nodes g)) as [Hin|Hnin]; cbn.
  - split; [done|]. split; [|done]. intros v. split; [auto|].
    by intros [?| ->].
  - split; [|split; [|done]].
    + apply NoDup_app. split; [done|]. split; [|apply NoDup_singleton].
      intros v Hv. rewrite list_elem_of_singleton. by intros ->.
    + intros v. by rewrite elem_of_app, list_elem_of_singleton.
Qed.

Lemma add_edges_from_spec (es : list (Z * Z)) :
  ∀ g, NoDup (Nx.nodes g) → NoDup (Nx.edges g ++ es).*1 →
       let g' := Nx.add_edges_from g es in
       NoDup (Nx.nodes g')
       ∧ Nx.edges g' = Nx.edges g ++ es
       ∧ ∀ v, v ∈ Nx.nodes g'
              ↔ v ∈ Nx.nodes g ∨ ∃ e, e ∈ es ∧ (v = e.1 ∨ v = e.2).
Proof.
  induction es as [|e es IH]; intros g Hnd Hes; cbn zeta.
  - cbn. rewrite app_nil_r. split; [done|]. split; [done|].
    intros v. split; [auto|]. intros [?|(e & He & _)]; [done|].
    by apply elem_of_nil in He.
  - unfold Nx.add_edges_from. cbn [foldl].
    fold (Nx.add_edges_from (Nx.add_edge g e) es).
    destruct (add_node_spec g e.1 Hnd) as (Hnd1 & Hin1 & He1).
    destruct (add_node_spec (Nx.add_node g e.1) e.2 Hnd1)
      as (Hnd2 & Hin2 & He2).
    assert (e ∉ Nx.edges g) as Hfresh.
    { intros Hin. rewrite fmap_app, fmap_cons in Hes.
      apply NoDup_app in Hes as (_ & Hdis & _).
      apply (Hdis e.1); [by apply list_elem_of_fmap_2|by left]. }
    assert (Nx.nodes (Nx.add_edge g e)
            = Nx.nodes (Nx.add_node (Nx.add_node g e.1) e.2)
            ∧ Nx.edges (Nx.add_edge g e) = Nx.edges g ++ [e]) as [Hn He].
    { unfold Nx.add_edge. cbv zeta. rewrite He2, He1.
      by rewrite decide_False by done. }
    destruct (IH (Nx.add_edge g e)) as (Hnd' & He' & Hin').
    + by rewrite Hn.
    + by rewrite He, <- app_assoc.
    + split; [done|]. split; [by rewrite He', He, <- app_assoc|].
      intros v. rewrite Hin', Hn, Hin2, Hin1. split.
      * intros [[[?|?]|?]|(e' & He'' & Hv)]; eauto.
        -- right. exists e. split; [by left|auto].
        -- right. exists e. split; [by left|auto].
        -- right. exists e'. split; [by right|done].
      * intros [?|(e' & [->|He'']%elem_of_cons & Hv)]; eauto.
        destruct Hv; auto.
Qed.

(** The graph of a connectivity list with one edge per source. *)
Lemma connectivity_graph (es : list (Z * Z)) :
  NoDup es.*1 →
  let g := Nx.add_edges_from Nx.empty es in
  functional g ∧ Nx.edges g = es
  ∧ ∀ v, v ∈ Nx.nodes g ↔ ∃ e, e ∈ es ∧ (v = e.1 ∨ v = e.2).
Proof.
  intros Hes. cbv zeta.
  destruct (add_edges_from_spec es Nx.empty) as (Hnd & He & Hin).
  { constructor. }
  { done. }
  cbn in He. split; [|split; [done|]].
  - split; [done|]. split; [by rewrite He|].
    intros u v Huv. rewrite He in Huv. rewrite !Hin.
    split; right; exists (u, v); auto.
  - intros v. rewrite Hin. split; [|auto].
    intros [Hv|?]; [|done]. by apply elem_of_nil in Hv.
Qed.

Section Connectivity.
Variables (n : nat) (tosegment : list Z).
Hypothesis Hlen : (n ≤ length tosegment)%nat.

(** After [k] passes of the connectivity loop. *)
Lemma connectivity_loop_spec :
  ∃ mask conn,
    Network.connectivity_loop n tosegment = Ok (mask, conn)
    ∧ connected_upto tosegment n mask conn.
Proof.
  unfold Network.connectivity_loop.
  destruct (foldM_rule (Network.connectivity_body tosegment)
              (λ pre st, connected_upto tosegment (length pre) st.1 st.2)
              (Network.range n)
              (replicate (length tosegment) false, []))
    as ([mask conn] & Hr & Hinv).
  - cbn. split; [by rewrite length_replicate|]. split; [constructor|].
    split.
    + intros u v. unfold Network.drains_to. split.
      * intros Huv. by apply elem_of_nil in Huv.
      * intros [? _]. lia.
    + intros i. rewrite lookup_replicate. split; [|intros [? _]; lia].
      by intros [[=] _].
  - intros pre x post [mask conn] Hl (Hml & Hnd & Hconn & Hmask).
    apply range_prefix in Hl as (_ & -> & Hlt). cbn [fst snd] in *.
    set (k := length pre) in *.
    destruct (lookup_lt_is_Some_2 tosegment k) as [to_seg Hto]; [lia|].
    unfold Network.connectivity_body.
    rewrite (getitem_inrange tosegment _ to_seg)
      by (rewrite ?Nat2Z.id; done || lia).
    cbn [mbind result_bind fst snd]. rewrite length_app. cbn [length].
    rewrite Nat.add_1_r.
    destruct (decide (to_seg < 0)) as [Hneg|Hpos].
    + rewrite setitem_inrange by lia. cbn [mbind result_bind].
      eexists. split; [done|]. cbn [fst snd]. rewrite Nat2Z.id.
      split; [by rewrite length_insert|]. split; [done|]. split.
      * intros u v. rewrite Hconn. unfold Network.drains_to.
        split; [intros (? & ? & ?); repeat split; done || lia|].
        intros (Hu & Huv & Hv). repeat split; try done; try lia.
        destruct (decide (u = Z.of_nat k)) as [->|Hne]; [|lia].
        rewrite Nat2Z.id in Huv. simplify_eq. lia.
      * intros i. destruct (decide (i = k)) as [->|Hne].
        -- rewrite list_lookup_insert_eq by lia. split; [|done].
           intros _. split; [lia|]. by exists to_seg.
        -- rewrite list_lookup_insert_ne by done. rewrite Hmask.
           split; intros [Hi Hv]; (split; [lia|done]).
    + eexists. split; [done|]. cbn [fst snd].
      split; [done|]. split; [|split].
      * rewrite fmap_app. apply NoDup_app. split; [done|].
        split; [|apply NoDup_singleton].
        intros u Hu. cbn. rewrite list_elem_of_singleton. intros ->.
        apply list_elem_of_fmap in Hu as ([a b] & Heq & Hab).
        apply Hconn in Hab as ([_ Hlt'] & _). cbn in Heq. lia.
      * intros u v. rewrite elem_of_app, list_elem_of_singleton, Hconn.
        unfold Network.drains_to. split.
        -- intros [(? & ? & ?)|[= -> ->]].
           ++ repeat split; done || lia.
           ++ rewrite Nat2Z.id. repeat split; done || lia.
        -- intros (Hu & Huv & Hv).
           destruct (decide (u = Z.of_nat k)) as [->|Hne].
           ++ right. rewrite Nat2Z.id in Huv. by simplify_eq.
           ++ left. repeat split; done || lia.
      * intros i. rewrite Hmask. split; intros [Hi Hv].
        -- split; [lia|done].
        -- split; [|done]. destruct (decide (i = k)) as [->|Hne]; [|lia].
           destruct Hv as (v & Hv & Hneg). simplify_eq. lia.
  - exists mask, conn. split; [done|]. unfold Network.range in Hinv.
    by rewrite length_fmap, length_seq in Hinv.
Qed.
End Connectivity.

Lemma tc_impl {A} (R R' : relation A) (x y : A) :
  (∀ a b, R a b → R' a b) → tc R x y → tc R' x y.
Proof.
  intros HR. induction 1 as [x y Hxy|x y z Hxy Hyz IH].
  - apply tc_once. by apply HR.
  - eapply tc_l; [by apply HR|done].
Qed.

(** The builder on [n] segments: it raises NetworkXUnfeasible when there
    are at least two segments and the connectivity has a cycle; it
    yields the segments that have an edge, upstream first, when there
    are at least two segments and no cycle; it yields [0] otherwise. *)
Lemma build_spec (n : nat) (tosegment : list Z) :
  (n ≤ length tosegment)%nat →
  ((1 < n)%nat ∧ Network.has_cycle n tosegment
   ∧ Network.build n tosegment = Raise NetworkXUnfeasible)
  ∨ ((1 < n)%nat ∧ ¬ Network.has_cycle n tosegment
     ∧ ∃ mask order, Network.build n tosegment = Ok (mask, order)
                     ∧ ordered_segments n tosegment order)
  ∨ ((n ≤ 1)%nat
     ∧ ∃ mask, Network.build n tosegment = Ok (mask, [0])).
Proof.
  intros Hlen. unfold Network.build.
  destruct (connectivity_loop_spec n tosegment Hlen)
    as (mask & conn & -> & _ & Hnd & Hconn & _).
  cbn [mbind result_bind]. unfold Network.segment_order_of.
  destruct (decide (1 < n)%nat) as [Hn|Hn].
  2:{ right. right. split; [lia|]. by exists mask. }
  destruct (connectivity_graph conn Hnd) as (Hfun & Hedges & Hnodes).
  set (g := Nx.add_edges_from Nx.empty conn) in *.
  assert (∀ u v, gedge g u v ↔ Network.drains_to n tosegment u v) as Hedge.
  { intros u v. unfold gedge. by rewrite Hedges, Hconn. }
  assert (cyclic g ↔ Network.has_cycle n tosegment) as Hcyc.
  { unfold cyclic, Network.has_cycle.
    split; intros [u Hu]; exists u; revert Hu; apply tc_impl;
      intros a b; apply Hedge. }
  destruct (topological_sort_spec g Hfun)
    as [[Hc ->]|(Hnc & l & -> & Hperm & Hup)].
  - left. split; [done|]. split; [by apply Hcyc|done].
  - right. left. split; [done|]. split; [by rewrite <- Hcyc|].
    exists mask, l. split; [done|]. split; [|split].
    + rewrite Hperm. by destruct Hfun.
    + intros v. rewrite Hperm, Hnodes. split.
      * intros ([a b] & Hab & [->| ->]); cbn; apply Hconn in Hab; eauto.
      * intros (u & [Hvu|Huv]); apply Hconn in Hvu || apply Hconn in Huv.
        -- exists (v, u). auto.
        -- exists (u, v). auto.
    + intros l1 v l2 u Hl Huv. eapply Hup; [done|]. by apply Hedge.
Qed.

(** *** Seeding: where construction meets an out-of-range index *)

Lemma getitem_raises {A} (a : list A) (i : Z) (e : exn) :
  getitem a i = Raise e → e = IndexError.
Proof.
  unfold getitem, py_index. repeat case_decide; cbn; try by intros [=].
  all: destruct (a !! _); by intros [=].
Qed.

Lemma setitem_raises {A} (a : list A) (i : Z) (x : A) (e : exn) :
  setitem a i x = Raise e → e = IndexError.
Proof.
  unfold setitem, py_index. repeat case_decide; cbn; by intros [=].
Qed.

Lemma foldM_raises {A S} (f : S → A → result S) (e0 : exn) (l : list A) :
  (∀ st x e, f st x = Raise e → e = e0) →
  ∀ s e, foldM f l s = Raise e → e = e0.
Proof.
  intros Hf. induction l as [|x l IH]; intros s e; cbn; [by intros [=]|].
  destruct (f s x) as [s'|e'] eqn:Hfx; cbn.
  - apply IH.
  - intros [= <-]. by eapply Hf.
Qed.

Section SeedRange.
Context {F : Type} `{Float64 F}.
Variables (n : nat) (tosegment : list Z) (seg_outflow : list F).
Hypothesis Hto : (n ≤ length tosegment)%nat.
Hypothesis Hout : (n ≤ length seg_outflow)%nat.

Lemma seed_inflow_raises (e : exn) :
  Engine.seed_inflow n tosegment seg_outflow = Raise e → e = IndexError.
Proof.
  unfold Engine.seed_inflow. apply foldM_raises. intros st x e'.
  unfold Engine.seed_body.
  destruct (getitem tosegment x) as [jseg|e1] eqn:Hj; cbn;
    [|intros [= <-]; by eapply getitem_raises].
  destruct (decide (jseg < 0)); [by intros [=]|].
  destruct (getitem seg_outflow x) as [q|e1] eqn:Hq; cbn;
    [|intros [= <-]; by eapply getitem_raises].
  apply setitem_raises.
Qed.

(** Seeding succeeds exactly on downstream indices below [n]. *)
Lemma seed_inflow_in_range (seeded : list F) :
  Engine.seed_inflow n tosegment seg_outflow = Ok seeded →
  ¬ Network.out_of_range n tosegment.
Proof.
  unfold Engine.seed_inflow. intros Hs (i & v & Hi & Hv & Hge).
  apply (foldM_inv _ (λ pre acc,
           length acc = n
           ∧ ∀ (i : nat) v, (i < length pre)%nat → tosegment !! i = Some v →
                            v < Z.of_nat n)) in Hs.
  - destruct Hs as [_ Hs]. unfold Network.range in Hs.
    rewrite length_fmap, length_seq in Hs.
    specialize (Hs i v Hi Hv). lia.
  - split; [by rewrite length_replicate|]. intros ? ? Hlt. cbn in Hlt. lia.
  - intros pre x post st st' Hl [Hlen Hpre] Hbody.
    apply range_prefix in Hl as (_ & -> & Hlt).
    unfold Engine.seed_body in Hbody.
    apply bind_Ok_inv in Hbody as (jseg & Hj & Hbody).
    apply getitem_nonneg_inv in Hj; [|lia]. rewrite Nat2Z.id in Hj.
    rewrite length_app. cbn [length]. rewrite Nat.add_1_r.
    destruct (decide (jseg < 0)) as [Hneg|Hpos].
    + simplify_eq. split; [done|]. intros i' v' Hi' Hv'.
      destruct (decide (i' = length pre)) as [->|Hne];
        [simplify_eq; lia|apply (Hpre i'); [lia|done]].
    + apply bind_Ok_inv in Hbody as (q & Hq & Hbody).
      apply setitem_nonneg_inv in Hbody as [-> Hin]; [|lia].
      split; [by rewrite length_insert|]. intros i' v' Hi' Hv'.
      destruct (decide (i' = length pre)) as [->|Hne];
        [simplify_eq; lia|apply (Hpre i'); [lia|done]].
Qed.

Lemma seed_inflow_succeeds :
  ¬ Network.out_of_range n tosegment →
  is_Ok (Engine.seed_inflow n tosegment seg_outflow).
Proof.
  intros Hin. unfold Engine.seed_inflow.
  destruct (foldM_rule (Engine.seed_body tosegment seg_outflow)
              (λ _ acc, length acc = n) (Network.range n)
              (replicate n (f_lit 0%Q))) as (r & Hr & _).
  - by rewrite length_replicate.
  - intros pre x post st Hl Hlen.
    apply range_prefix in Hl as (_ & -> & Hlt).
    unfold Engine.seed_body.
    destruct (lookup_lt_is_Some_2 tosegment (length pre)) as [jseg Hj];
      [lia|].
    destruct (lookup_lt_is_Some_2 seg_outflow (length pre)) as [q Hq];
      [lia|].
    rewrite (getitem_inrange tosegment _ jseg)
      by (rewrite ?Nat2Z.id; done || lia).
    cbn [mbind result_bind].
    destruct (decide (jseg < 0)) as [Hneg|Hpos]; [by exists st|].
    rewrite (getitem_inrange seg_outflow _ q)
      by (rewrite ?Nat2Z.id; done || lia).
    cbn [mbind result_bind].
    assert (jseg < Z.of_nat n) as Hjn.
    { destruct (decide (jseg < Z.of_nat n)) as [|Hge]; [done|].
      exfalso. apply Hin. exists (length pre), jseg.
      split; [done|]. split; [done|lia]. }
    rewrite setitem_inrange by lia. eexists. split; [done|].
    by rewrite length_insert.
  - by exists r.
Qed.
End SeedRange.

Lemma out_of_range_dec (n : nat) (tosegment : list Z) :
  Network.out_of_range n tosegment ∨ ¬ Network.out_of_range n tosegment.
Proof.
  unfold Network.out_of_range.
  assert (∀ k : nat,
            (∃ (i : nat) v, (i < k)%nat ∧ tosegment !! i = Some v
                            ∧ Z.of_nat n ≤ v)
            ∨ ¬ (∃ (i : nat) v, (i < k)%nat ∧ tosegment !! i = Some v
                                ∧ Z.of_nat n ≤ v)) as Hk.
  { induction k as [|k [IH|IH]].
    - right. intros (i & v & Hi & _). lia.
    - left. destruct IH as (i & v & Hi & Hv). exists i, v.
      split; [lia|done].
    - destruct (tosegment !! k) as [v|] eqn:Hv.
      + destruct (decide (Z.of_nat n ≤ v)) as [Hge|Hlt].
        * left. exists k, v. split; [lia|done].
        * right. intros (i & w & Hi & Hw & Hge).
          destruct (decide (i = k)) as [->|Hne]; [simplify_eq; lia|].
          apply IH. exists i, w. split; [lia|done].
      + right. intros (i & w & Hi & Hw & Hge).
        destruct (decide (i = k)) as [->|Hne]; [simplify_eq|].
        apply IH. exists i, w. split; [lia|done]. }
  apply Hk.
Qed.

Section Construction.
Context {F : Type} `{Float64 F}.
Variables (np_sqrt : F → F) (np_power : F → F → F) (LAKE : Z) (nan : F).
Variables (p : Params.t F) (sroff ssres gwres : list F)
          (cm : option string).

Local Abbreviation n := (Params.nsegment p).
Local Abbreviation to := (Network.rebase (Params.tosegment p)).
Local Abbreviation init :=
  (Engine.__init__ np_sqrt np_power LAKE nan p sroff ssres gwres cm).

Hypothesis Hto : length (Params.tosegment p) = n.
Hypothesis Hflow : length (Params.segment_flow_init p) = n.

(** The three outcomes of construction. *)
Lemma init_outcome :
  ((1 < n)%nat ∧ Network.has_cycle n to ∧ init = Raise NetworkXUnfeasible)
  ∨ (¬ ((1 < n)%nat ∧ Network.has_cycle n to)
     ∧ Network.out_of_range n to ∧ init = Raise IndexError)
  ∨ (¬ ((1 < n)%nat ∧ Network.has_cycle n to)
     ∧ ¬ Network.out_of_range n to
     ∧ ∃ self, init = Ok self
               ∧ ∃ mask, Network.build n to
                         = Ok (mask, Engine._segment_order self)).
Proof.
  assert (n ≤ length to)%nat as Hlen.
  { unfold Network.rebase. rewrite length_fmap. lia. }
  assert ((Network.out_of_range n to
           ∧ Engine.seed_inflow n to (Params.segment_flow_init p)
             = Raise IndexError)
          ∨ (¬ Network.out_of_range n to
             ∧ is_Ok (Engine.seed_inflow n to (Params.segment_flow_init p))))
    as Hseed.
  { destruct (out_of_range_dec n to) as [Hout|Hin].
    - left. split; [done|].
      destruct (Engine.seed_inflow n to (Params.segment_flow_init p))
        as [seeded|e] eqn:Hs.
      + exfalso. eapply seed_inflow_in_range in Hs; [by apply Hs|..]; lia.
      + by apply seed_inflow_raises in Hs as ->.
    - right. split; [done|]. apply seed_inflow_succeeds; done || lia. }
  unfold Engine.__init__, Engine._initialize_channel_data.
  cbn [Engine.params Engine.seg_outflow].
  destruct (build_spec n to Hlen)
    as [(Hn & Hc & Hb)|[(Hn & Hnc & mask & order & Hb & _)
                       |(Hn & mask & Hb)]].
  - left. split; [done|]. split; [done|]. by rewrite Hb.
  - right. rewrite Hb. cbn [mbind result_bind].
    destruct Hseed as [[Hout ->]|[Hin [seeded ->]]].
    + left. split; [tauto|]. done.
    + right. split; [tauto|]. split; [done|]. cbn [mbind result_bind].
      eexists. split; [done|]. cbn [Engine._segment_order]. by exists mask.
  - right. rewrite Hb. cbn [mbind result_bind].
    destruct Hseed as [[Hout ->]|[Hin [seeded ->]]].
    + left. split; [lia|]. done.
    + right. split; [lia|]. split; [done|]. cbn [mbind result_bind].
      eexists. split; [done|]. cbn [Engine._segment_order]. by exists mask.
Qed.
End Construction.




(** C4. For an engine built on at least two segments, the stored segment
    order lists the segments that have an edge, each once, upstream
    before downstream; a segment with neither an upstream nor a
    downstream neighbour is not in it, so the order is not a permutation
    of [0, nsegment) when such a segment exists. *)
Theorem isolated_segment_not_ordered {F} `{Float64 F}
        np_sqrt np_power LAKE nan (p : Params.t F)
        (sroff ssres gwres : list F) (cm : option string)
        (self : Engine.t (F:=F)) (i : Z) :
  length (Params.tosegment p) = Params.nsegment p →
  length (Params.segment_flow_init p) = Params.nsegment p →
  (1 < Params.nsegment p)%nat →
  Engine.__init__ np_sqrt np_power LAKE nan p sroff ssres gwres cm
  = Ok self →
  Network.isolated (Params.nsegment p)
                   (Network.rebase (Params.tosegment p)) i →
  ordered_segments (Params.nsegment p)
                   (Network.rebase (Params.tosegment p))
                   (Engine._segment_order self)
  ∧ i ∉ Engine._segment_order self
  ∧ ¬ Engine._segment_order self ≡ₚ Network.range (Params.nsegment p).
Proof.
  intros Hto Hflow Hn Hinit Hiso.
  assert (Params.nsegment p
          ≤ length (Network.rebase (Params.tosegment p)))%nat as Hlen.
  { unfold Network.rebase. rewrite length_fmap. lia. }
  destruct (init_outcome np_sqrt np_power LAKE nan p sroff ssres gwres cm
              Hto Hflow)
    as [(_ & _ & Hi)|[(_ & _ & Hi)|(_ & _ & self' & Hi & mask & Hb)]];
    rewrite Hinit in Hi; try discriminate.
  injection Hi as <-.
  destruct (build_spec _ _ Hlen)
    as [(_ & _ & Hb')|[(_ & _ & mask' & order & Hb' & Hord)
                      |(Hn' & _)]];
    [rewrite Hb in Hb'; discriminate| |lia].
  rewrite Hb in Hb'. injection Hb' as <- <-.
  assert (i ∉ Engine._segment_order self) as Hni.
  { intros Hin. destruct Hord as (_ & Hmem & _).
    apply Hmem in Hin as (u & [Hiu|Hui]).
    - destruct Hiso as (_ & (v & Hv & Hneg) & _).
      destruct Hiu as (_ & Hiu & Hu). simplify_eq. lia.
    - destruct Hiso as (_ & _ & Hno). by apply (Hno u). }
  split; [done|]. split; [done|].
  intros Hperm. apply Hni. rewrite Hperm. apply elem_of_range.
  by destruct Hiso.
Qed.

Lemma isolated_segment_not_ordered_witness :
  ∃ self, Engine.__init__ q_sqrt q_power 2 0%Q two_outlets
                          [86400%Q; 0%Q] [0%Q; 0%Q] [0%Q; 0%Q] None
          = Ok self
          ∧ 0 ∉ Engine._segment_order self.
Proof.
  destruct (Engine.__init__ q_sqrt q_power 2 0%Q two_outlets
                            [86400%Q; 0%Q] [0%Q; 0%Q] [0%Q; 0%Q] None)
    as [self|] eqn:Hself; [|vm_compute in Hself; discriminate].
  exists self. split; [done|].
  refine (proj1 (proj2 (isolated_segment_not_ordered
            q_sqrt q_power 2 0%Q two_outlets
            [86400%Q; 0%Q] [0%Q; 0%Q] [0%Q; 0%Q] None self 0
            eq_refl eq_refl _ Hself _))).
  - cbn. lia.
  - split; [cbn; lia|]. split.
    + exists (-1). split; [done|lia].
    + intros u (Hu & Hu0 & _). cbn in Hu.
      assert (u = 0 ∨ u = 1) as [->| ->] by lia; cbn in Hu0;
        simplify_eq; lia.
Defined.

(** The failing input of C4, evaluated: the builder returns the empty
    order for two segments that both flow out of the domain, and the
    routing kernel then leaves their outflow at zero whatever flows in. *)
Example two_outlets_unrouted :
  Network.build 2 [-1; -1] = Ok ([true; true], [])
  ∧ ∃ self, Engine.__init__ q_sqrt q_power 2 0%Q two_outlets
                            [86400%Q; 86400%Q] [0%Q; 0%Q] [0%Q; 0%Q] None
            ≫= chain2_step = Ok self
            ∧ Engine._segment_order self = []
            ∧ Engine.seg_lateral_inflow self = [1%Q; 1%Q]
            ∧ Engine.seg_outflow self = [0%Q; 0%Q].
Proof.
  split; [vm_compute; reflexivity|].
  eexists. split; [vm_compute; reflexivity|].
  split; [vm_compute; reflexivity|].
  split; vm_compute; reflexivity.
Qed.

(** * Further properties of the engine *)

(** ** What construction stores *)

(** Every attribute [__init__] leaves behind, in terms of the parameters
    it was given. *)
Lemma init_fields {F} `{Float64 F} np_sqrt np_power LAKE nan
      (p : Params.t F) (sroff ssres gwres : list F) (cm : option string)
      (self : Engine.t (F:=F)) :
  Engine.__init__ np_sqrt np_power LAKE nan p sroff ssres gwres cm
  = Ok self →
  let n := Params.nsegment p in
  let to := Network.rebase (Params.tosegment p) in
  let K := Precond.Kcoef_of LAKE n (Params.segment_type p)
             (Params.seg_length p)
             (Precond.velocity np_sqrt np_power (Params.mann_n p)
                (Params.seg_slope p) (Params.seg_depth p)) in
  Network.build n to
  = Ok (Engine._outflow_mask self, Engine._segment_order self)
  ∧ Engine.seed_inflow n to (Params.segment_flow_init p)
    = Ok (Engine._seg_inflow self)
  ∧ Engine.params self
    = Params.mk (Params.nhru p) n (Network.rebase (Params.hru_segment p)) to
        (Params.mann_n p) (Params.seg_depth p) (Params.seg_length p)
        (Precond.floor_slope (Params.seg_slope p)) (Params.segment_type p)
        (Params.x_coef p) (Params.segment_flow_init p)
  ∧ Engine._Kcoef self = K
  ∧ Engine._ts self = Precond.ts_of K
  ∧ Engine._tsi self = Precond.tsi_of K
  ∧ Engine._c0 self = Precond.c0_of K (Params.x_coef p) (Precond.ts_of K)
  ∧ Engine._c1 self = Precond.c1_of K (Params.x_coef p) (Precond.ts_of K)
  ∧ Engine._c2 self = Precond.c2_of K (Params.x_coef p) (Precond.ts_of K)
  ∧ Engine._outflow_ts self = replicate n (f_lit 0%Q)
  ∧ Engine.seg_outflow self = Params.segment_flow_init p
  ∧ Engine.sroff_vol self = sroff ∧ Engine.ssres_flow_vol self = ssres
  ∧ Engine.gwres_flow_vol self = gwres
  ∧ Engine.seg_lateral_inflow self = replicate n Kernel.zero
  ∧ Engine._calc_method self = py_str cm.
Proof.
  intros Hinit. cbv zeta.
  unfold Engine.__init__, Engine._initialize_channel_data in Hinit.
  cbn [Engine.params Engine.seg_outflow] in Hinit.
  apply bind_Ok_inv in Hinit as ([mask order] & Hb & Hinit).
  apply bind_Ok_inv in Hinit as (seeded & Hs & Hinit).
  injection Hinit as <-. cbn. rewrite Hb, Hs. repeat split.
Qed.

(** ** The outflow mask *)

(** X1. After construction the outflow mask has one entry per segment,
    and its entry for a segment is True exactly when the segment's
    tosegment, as loaded (one-based), is 0 or less: the segments that
    drain out of the domain, and no others. *)
Theorem outflow_mask_marks_outlets {F} `{Float64 F} np_sqrt np_power LAKE nan
        (p : Params.t F) (sroff ssres gwres : list F) (cm : option string)
        (self : Engine.t (F:=F)) :
  length (Params.tosegment p) = Params.nsegment p →
  Engine.__init__ np_sqrt np_power LAKE nan p sroff ssres gwres cm
  = Ok self →
  length (Engine._outflow_mask self) = Params.nsegment p
  ∧ ∀ (i : nat) (m : bool),
      Engine._outflow_mask self !! i = Some m →
      ∃ v, Params.tosegment p !! i = Some v ∧ (m = true ↔ v ≤ 0).
Proof.
  intros Hto Hinit.
  apply init_fields in Hinit as (Hb & _). cbv zeta in Hb.
  set (n := Params.nsegment p) in *.
  set (to := Network.rebase (Params.tosegment p)) in *.
  assert (length to = n) as Hlen.
  { unfold to, Network.rebase. by rewrite length_fmap. }
  destruct (connectivity_loop_spec n to) as (mask & conn & Hloop & Hc);
    [lia|].
  unfold Network.build in Hb. rewrite Hloop in Hb.
  cbn [mbind result_bind] in Hb.
  apply bind_Ok_inv in Hb as (order & _ & Hb). injection Hb as Hm _.
  rewrite <- Hm. destruct Hc as (Hml & _ & _ & Hmask).
  split; [lia|]. intros i m Hi.
  assert (i < n)%nat as Hin by (apply lookup_lt_Some in Hi; lia).
  destruct (lookup_lt_is_Some_2 (Params.tosegment p) i) as [v Hv]; [lia|].
  assert (to !! i = Some (v - 1)) as Hv'.
  { unfold to, Network.rebase. by rewrite list_lookup_fmap, Hv. }
  exists v. split; [done|]. split.
  - intros ->. apply Hmask in Hi as (_ & w & Hw & Hneg). simplify_eq. lia.
  - intros Hle. destruct m; [done|].
    assert (mask !! i = Some true) as Ht.
    { apply Hmask. split; [done|]. exists (v - 1). split; [done|lia]. }
    congruence.
Qed.

Lemma outflow_mask_marks_outlets_witness :
  ∃ self, chain2_engine None = Ok self
          ∧ length (Engine._outflow_mask self) = 2%nat.
Proof.
  destruct (chain2_engine None) as [self|] eqn:Hself;
    [|vm_compute in Hself; discriminate].
  exists self. split; [done|].
  exact (proj1 (outflow_mask_marks_outlets q_sqrt q_power 2 0%Q chain2
                  [86400%Q; 0%Q] [0%Q; 0%Q] [0%Q; 0%Q] None self
                  eq_refl Hself)).
Defined.

(** ** The segment order of a connected network *)

(** X2. For an engine built on a single segment, or on a network in
    which every segment has a downstream or an upstream neighbour, the
    stored segment order is a permutation of [0, nsegment); on two
    segments or more every segment stands after all the segments that
    drain to it. *)
Theorem segment_order_is_permutation {F} `{Float64 F}
        np_sqrt np_power LAKE nan (p : Params.t F)
        (sroff ssres gwres : list F) (cm : option string)
        (self : Engine.t (F:=F)) :
  let n := Params.nsegment p in
  let to := Network.rebase (Params.tosegment p) in
  length (Params.tosegment p) = n →
  length (Params.segment_flow_init p) = n →
  Engine.__init__ np_sqrt np_power LAKE nan p sroff ssres gwres cm
  = Ok self →
  (0 < n)%nat →
  ((1 < n)%nat →
   ∀ i, 0 ≤ i < Z.of_nat n →
        ∃ u, Network.drains_to n to i u ∨ Network.drains_to n to u i) →
  Engine._segment_order self ≡ₚ Network.range n
  ∧ ((1 < n)%nat →
     ∀ l1 v l2 u, Engine._segment_order self = l1 ++ v :: l2 →
                  Network.drains_to n to u v → u ∈ l1).
Proof.
  intros n to Hto Hflow Hinit Hpos Hconn.
  assert (n ≤ length to)%nat as Hlen.
  { unfold to, Network.rebase. rewrite length_fmap. lia. }
  pose proof (init_fields _ _ _ _ _ _ _ _ _ _ Hinit) as (Hb & Hs & _).
  cbv zeta in Hb, Hs. fold n to in Hb, Hs.
  assert (¬ Network.out_of_range n to) as Hin.
  { eapply seed_inflow_in_range; [| |exact Hs]; lia. }
  destruct (build_spec n to Hlen)
    as [(_ & _ & Hb')|[(Hn & _ & mask' & order & Hb' & Hord)
                      |(Hn & mask' & Hb')]];
    rewrite Hb in Hb'; [discriminate| |].
  - injection Hb' as _ <-. specialize (Hconn Hn).
    destruct Hord as (Hnd & Hmem & Hup).
    split; [|intros _; exact Hup].
    apply NoDup_Permutation; [done| |].
    + unfold Network.range. apply NoDup_fmap; [apply _|apply NoDup_seq].
    + intros v. rewrite Hmem, elem_of_range. split.
      * intros (u & [(Hv & _)|(Hu & Huv & Hv)]); [done|].
        split; [done|].
        destruct (decide (v < Z.of_nat n)) as [|Hge]; [done|].
        exfalso. apply Hin. exists (Z.to_nat u), v.
        split; [lia|]. split; [done|lia].
      * apply Hconn.
  - injection Hb' as _ ->. split; [|lia].
    replace n with 1%nat by lia. reflexivity.
Qed.

Lemma segment_order_is_permutation_witness :
  ∃ self, chain2_engine None = Ok self
          ∧ Engine._segment_order self ≡ₚ Network.range 2.
Proof.
  destruct (chain2_engine None) as [self|] eqn:Hself;
    [|vm_compute in Hself; discriminate].
  exists self. split; [done|].
  refine (proj1 (segment_order_is_permutation q_sqrt q_power 2 0%Q chain2
                   [86400%Q; 0%Q] [0%Q; 0%Q] [0%Q; 0%Q] None self
                   eq_refl eq_refl Hself _ _)).
  - cbn. lia.
  - intros _ i Hi. cbn in Hi.
    assert (i = 0 ∨ i = 1) as [->| ->] by lia.
    + exists 1. left. unfold Network.drains_to. cbn. split; [lia|].
      split; [done|lia].
    + exists 0. right. unfold Network.drains_to. cbn. split; [lia|].
      split; [done|lia].
Defined.

(** ** The travel time K and the strides *)

Lemma Kcoef_of_lookup {F} `{Float64 F} (LAKE : Z) (n : nat)
      (segment_type : list Z) (seg_length velocity : list F) (i : nat)
      (k : F) :
  Precond.Kcoef_of LAKE n segment_type seg_length velocity !! i = Some k →
  ∃ t len v, segment_type !! i = Some t ∧ seg_length !! i = Some len
             ∧ velocity !! i = Some v ∧ k = K_at LAKE t len v.
Proof.
  unfold Precond.Kcoef_of. cbv zeta. intros Hk.
  repeat match goal with
         | Hl : zip_with _ _ _ !! _ = Some _ |- _ =>
             apply lookup_zip_with_Some in Hl as (? & ? & ? & ? & ?)
         | Hl : (_ <$> _) !! _ = Some _ |- _ =>
             apply list_lookup_fmap_Some_1 in Hl as (? & ? & ?)
         | Hl : replicate _ _ !! _ = Some _ |- _ =>
             apply lookup_replicate in Hl as [? ?]
         | Hl : zip _ _ !! _ = Some _ |- _ =>
             apply lookup_zip_with_Some in Hl as (? & ? & ? & ? & ?)
         end; simplify_eq.
  eexists _, _, _. repeat split; try done.
Qed.

(** X3. In exact arithmetic the stored travel time K of every segment
    lies in [0.01, 24], and it is exactly 24 on every segment whose
    segment_type is the lake type, whatever its length and velocity. *)
Theorem Kcoef_bounds_and_lakes np_sqrt np_power LAKE nan (p : Params.t Q)
        (sroff ssres gwres : list Q) (cm : option string)
        (self : Engine.t (F:=Q)) :
  Engine.__init__ np_sqrt np_power LAKE nan p sroff ssres gwres cm
  = Ok self →
  Forall (λ k, (1 # 100 <= k)%Q ∧ (k <= 24)%Q) (Engine._Kcoef self)
  ∧ ∀ (i : nat) k, Params.segment_type p !! i = Some LAKE →
                   Engine._Kcoef self !! i = Some k → k = 24%Q.
Proof.
  intros Hinit.
  apply init_fields in Hinit as (_ & _ & _ & HK & _). cbv zeta in HK.
  rewrite HK. split; [apply Q_Kcoef_range|].
  intros i k Ht Hk.
  apply Kcoef_of_lookup in Hk as (t & len & v & Ht' & _ & _ & ->).
  rewrite Ht in Ht'. injection Ht' as <-.
  unfold K_at. cbv zeta. by rewrite decide_True.
Qed.

Lemma Kcoef_bounds_and_lakes_witness :
  ∃ self, chain2_engine None = Ok self
          ∧ Forall (λ k, (1 # 100 <= k)%Q ∧ (k <= 24)%Q)
                   (Engine._Kcoef self).
Proof.
  destruct (chain2_engine None) as [self|] eqn:Hself;
    [|vm_compute in Hself; discriminate].
  exists self. split; [done|].
  exact (proj1 (Kcoef_bounds_and_lakes q_sqrt q_power 2 0%Q chain2
                  [86400%Q; 0%Q] [0%Q; 0%Q] [0%Q; 0%Q] None self Hself)).
Defined.

(** One row of the banding table: the stride divides the 24 hours of
    the day, and the float [ts] is the stride, or 1.0 in the first
    band. *)
Lemma band_row {F} `{Float64 F} (k : F) :
  np_mod 24 (Precond.band k).2 = 0
  ∧ (Precond.band k).1 = f_lit (inject_Z (Z.max 1 (Precond.band k).2)).
Proof.
  unfold Precond.band.
  repeat (destruct (_ <? _)%f64; [by cbn|]). by cbn.
Qed.

(** X4. In every float64 arithmetic the banding loop leaves the two
    stride arrays consistent: they have the same length, every tsi is
    one of -1, 1, 2, 3, 4, 6, 8, 12, 24, hour 24 closes a sub-step for it
    (24 mod tsi = 0), and ts is the float of tsi, or 1.0 where tsi is
    -1. *)
Theorem strides_divide_the_day {F} `{Float64 F} np_sqrt np_power LAKE nan
        (p : Params.t F) (sroff ssres gwres : list F) (cm : option string)
        (self : Engine.t (F:=F)) :
  Engine.__init__ np_sqrt np_power LAKE nan p sroff ssres gwres cm
  = Ok self →
  length (Engine._ts self) = length (Engine._tsi self)
  ∧ ∀ (i : nat) (t : Z),
      Engine._tsi self !! i = Some t →
      valid_tsi t ∧ np_mod 24 t = 0
      ∧ Engine._ts self !! i = Some (f_lit (inject_Z (Z.max 1 t))).
Proof.
  intros Hinit.
  apply init_fields in Hinit as (_ & _ & _ & _ & Hts & Htsi & _).
  cbv zeta in Hts, Htsi. rewrite Hts, Htsi.
  unfold Precond.ts_of, Precond.tsi_of. split; [by rewrite !length_fmap|].
  intros i t Ht. apply list_lookup_fmap_Some_1 in Ht as (k & -> & Hk).
  split; [apply band_valid|]. split; [apply band_row|].
  rewrite list_lookup_fmap, Hk. cbn. f_equal. apply band_row.
Qed.

Lemma strides_divide_the_day_witness :
  ∃ self, chain2_engine None = Ok self
          ∧ length (Engine._ts self) = length (Engine._tsi self).
Proof.
  destruct (chain2_engine None) as [self|] eqn:Hself;
    [|vm_compute in Hself; discriminate].
  exists self. split; [done|].
  exact (proj1 (strides_divide_the_day q_sqrt q_power 2 0%Q chain2
                  [86400%Q; 0%Q] [0%Q; 0%Q] [0%Q; 0%Q] None self Hself)).
Defined.

(** *** Monotonicity in the segment length, in exact arithmetic *)

Lemma Q_K_at_mono (LAKE t : Z) (len len' v : Q) :
  (len <= len')%Q → (K_at LAKE t len v <= K_at LAKE t len' v)%Q.
Proof.
  intros Hl. unfold K_at. cbv zeta.
  assert (∀ a b : Q, (a <= b)%Q →
            ((if (f_lit 24%Q <? (if (a <? f_lit (1 # 100)%Q)%f64
                                 then f_lit (1 # 100)%Q else a))%f64
              then f_lit 24%Q
              else if (a <? f_lit (1 # 100)%Q)%f64
                   then f_lit (1 # 100)%Q else a)
             <= (if (f_lit 24%Q <? (if (b <? f_lit (1 # 100)%Q)%f64
                                    then f_lit (1 # 100)%Q else b))%f64
                 then f_lit 24%Q
                 else if (b <? f_lit (1 # 100)%Q)%f64
                      then f_lit (1 # 100)%Q else b))%Q) as Hclamp.
  { intros a b Hab.
    destruct (f_ltb (F:=Q) a _) eqn:Ha; destruct (f_ltb (F:=Q) b _) eqn:Hb;
      repeat match goal with
             | |- context [f_ltb (F:=Q) ?x ?y] =>
                 let E := fresh in destruct (f_ltb (F:=Q) x y) eqn:E
             end;
      repeat match goal with
             | E : f_ltb _ _ = true |- _ => apply Q_ltb_true in E
             | E : f_ltb _ _ = false |- _ => apply Q_ltb_false in E
             end;
      cbn in *; lra. }
  destruct (decide (t = LAKE)); [apply Hclamp; lra|].
  destruct (f_ltb (F:=Q) _ v) eqn:Hv; [|apply Hclamp; lra].
  apply Hclamp. apply Q_ltb_true in Hv.
  change (f_lit (F:=Q) 0%Q) with 0%Q in Hv. cbn [f_div Q_float64].
  rewrite !Qred_correct. unfold Qdiv.
  apply Qmult_le_compat_r; [done|]. apply Qinv_le_0_compat. lra.
Qed.

(** Evaluate the literals of the goal and the hypotheses. *)
Ltac Q_literals :=
  repeat match goal with
         | |- context [Qred (?n # ?d)] =>
             let v := eval vm_compute in (Qred (n # d)) in
             change (Qred (n # d)) with v in *
         | H : context [Qred (?n # ?d)] |- _ =>
             let v := eval vm_compute in (Qred (n # d)) in
             change (Qred (n # d)) with v in *
         end.

Lemma Q_band_mono (k k' : Q) :
  (k <= k')%Q →
  ((Precond.band k).1 <= (Precond.band k').1)%Q
  ∧ (Precond.band k).2 ≤ (Precond.band k').2.
Proof.
  intros Hk. unfold Precond.band.
  repeat match goal with
         | |- context [f_ltb (F:=Q) k ?y] =>
             let E := fresh in
             destruct (f_ltb (F:=Q) k y) eqn:E;
             [apply Q_ltb_true in E | apply Q_ltb_false in E]
         end;
    repeat match goal with
           | |- context [f_ltb (F:=Q) k' ?y] =>
               let E := fresh in
               destruct (f_ltb (F:=Q) k' y) eqn:E;
               [apply Q_ltb_true in E | apply Q_ltb_false in E]
           end;
    cbn in *; Q_literals; try (exfalso; lra); (split; [lra | lia]).
Qed.

(** X5. In exact arithmetic K and the stride are monotone in the
    segment length: of two parameter sets that differ in seg_length
    only, the one with the longer segment i has the larger or equal K,
    ts and tsi on segment i. *)
Theorem longer_segment_longer_stride (LAKE : Z) (n : nat)
        (segment_type : list Z) (seg_length seg_length' velocity : list Q)
        (i : nat) (l l' k k' : Q) :
  seg_length !! i = Some l → seg_length' !! i = Some l' → (l <= l')%Q →
  Precond.Kcoef_of LAKE n segment_type seg_length velocity !! i = Some k →
  Precond.Kcoef_of LAKE n segment_type seg_length' velocity !! i = Some k' →
  (k <= k')%Q
  ∧ ((Precond.band k).1 <= (Precond.band k').1)%Q
  ∧ (Precond.band k).2 ≤ (Precond.band k').2.
Proof.
  intros Hl Hl' Hle Hk Hk'.
  apply Kcoef_of_lookup in Hk as (t & len & v & Ht & Hlen & Hv & ->).
  apply Kcoef_of_lookup in Hk' as (t' & len' & v' & Ht' & Hlen' & Hv' & ->).
  simplify_eq.
  pose proof (Q_K_at_mono LAKE t l l' v Hle) as HK.
  split; [done|]. by apply Q_band_mono.
Qed.

Lemma longer_segment_longer_stride_witness :
  (K_at 2 0 3600%Q 7200%Q <= K_at 2 0 36000%Q 7200%Q)%Q
  ∧ ((Precond.band (K_at 2 0 3600%Q 7200%Q)).1
     <= (Precond.band (K_at 2 0 36000%Q 7200%Q)).1)%Q
  ∧ (Precond.band (K_at 2 0 3600%Q 7200%Q)).2
    ≤ (Precond.band (K_at 2 0 36000%Q 7200%Q)).2.
Proof.
  apply (longer_segment_longer_stride 2 1 [0] [3600%Q] [36000%Q] [7200%Q]
           0 3600%Q 36000%Q); try reflexivity.
  apply Qle_bool_imp_le. reflexivity.
Defined.

(** ** The slope floor *)

(** X6. In exact arithmetic the seg_slope the engine stores is never
    below 1e-7: an entry below 1e-7 is stored as 0.0001, every other
    entry as it was given. *)
Theorem stored_slope_floored np_sqrt np_power LAKE nan (p : Params.t Q)
        (sroff ssres gwres : list Q) (cm : option string)
        (self : Engine.t (F:=Q)) :
  Engine.__init__ np_sqrt np_power LAKE nan p sroff ssres gwres cm
  = Ok self →
  Forall (λ s, (1 # 10000000 <= s)%Q)
         (Params.seg_slope (Engine.params self))
  ∧ ∀ (i : nat) s, Params.seg_slope p !! i = Some s →
      ((s < 1 # 10000000)%Q →
       Params.seg_slope (Engine.params self) !! i = Some (1 # 10000)%Q)
      ∧ ((1 # 10000000 <= s)%Q →
         Params.seg_slope (Engine.params self) !! i = Some s).
Proof.
  intros Hinit.
  apply init_fields in Hinit as (_ & _ & Hp & _). cbv zeta in Hp.
  rewrite Hp. cbn [Params.seg_slope]. unfold Precond.floor_slope. split.
  - apply Forall_fmap, Forall_forall. intros s _. unfold compose. cbn beta.
    destruct (f_ltb (F:=Q) _ _) eqn:Hs; [done|]. by apply Q_ltb_false in Hs.
  - intros i s Hs. rewrite list_lookup_fmap, Hs.
    cbn [fmap option_fmap option_map].
    destruct (f_ltb (F:=Q) _ _) eqn:Hlt.
    + apply Q_ltb_true in Hlt. split; [done|]. intros Hge.
      by apply Qle_not_lt in Hge.
    + apply Q_ltb_false in Hlt. split; [|done]. intros Hl.
      by apply Qle_not_lt in Hlt.
Qed.

Lemma stored_slope_floored_witness :
  ∃ self, chain2_engine None = Ok self
          ∧ Forall (λ s, (1 # 10000000 <= s)%Q)
                   (Params.seg_slope (Engine.params self)).
Proof.
  destruct (chain2_engine None) as [self|] eqn:Hself;
    [|vm_compute in Hself; discriminate].
  exists self. split; [done|].
  exact (proj1 (stored_slope_floored q_sqrt q_power 2 0%Q chain2
                  [86400%Q; 0%Q] [0%Q; 0%Q] [0%Q; 0%Q] None self Hself)).
Defined.

(** ** The coefficients sum to one *)

Lemma clamp0_lookup {F} `{Float64 F} (c : list F) (i : nat) (v : F) :
  Precond.clamp0 c !! i = Some v → ∃ r, c !! i = Some r ∧ v = clamped r.
Proof.
  unfold Precond.clamp0. intros Hv.
  apply list_lookup_fmap_Some_1 in Hv as (r & -> & Hr). by exists r.
Qed.

Lemma Q_band_ts_ge1 (k : Q) : (1 <= (Precond.band k).1)%Q.
Proof.
  unfold Precond.band. repeat (destruct (f_ltb (F:=Q) _ _); [done|]). done.
Qed.

(** With K >= 0, x <= 1 and ts >= 1 the denominator is at least 0.5, so
    the guard on a small denominator does not fire. *)
Lemma Q_d_at_exact (k x t : Q) :
  (0 <= k)%Q → (x <= 1)%Q → (1 <= t)%Q →
  (d_at k x t == k - k * x + (1 # 2) * t)%Q ∧ (0 < d_at k x t)%Q.
Proof.
  intros Hk Hx Ht. unfold d_at. cbv zeta.
  assert (0 <= k * (1 - x))%Q as Hkx by (apply Qmult_le_0_compat; lra).
  destruct (f_ltb (F:=Q) _ _) eqn:Hguard.
  - exfalso. apply Q_ltb_true in Hguard. cbn in Hguard.
    rewrite !Qred_correct in Hguard.
    rewrite Qabs_pos in Hguard by lra. lra.
  - cbn. rewrite !Qred_correct. split; [reflexivity|lra].
Qed.

Lemma Q_coefficients_sum (k x t : Q) :
  (0 <= k)%Q → (x <= 1)%Q → (1 <= t)%Q →
  (clamped (c0_at k x t) + c1_corrected k x t + clamped (c2_at k x t)
   == 1)%Q.
Proof.
  intros Hk Hx Ht.
  destruct (Q_d_at_exact k x t Hk Hx Ht) as [HD Hpos].
  unfold clamped, c1_corrected, c0_at, c1_at, c2_at. cbv zeta.
  revert HD Hpos. generalize (d_at k x t). intros D HD Hpos.
  assert (¬ (D == 0)%Q) as HD0 by (intros E; rewrite E in Hpos; lra).
  assert (((- (k * x) + (1 # 2) * t) / D + (k * x + (1 # 2) * t) / D
           + (k - k * x - (1 # 2) * t) / D == 1)%Q) as Hsum.
  { unfold Qdiv. rewrite <- !Qmult_plus_distr_l.
    transitivity (D * / D)%Q; [|by apply Qmult_inv_r].
    apply Qmult_comp; [|reflexivity]. rewrite HD. ring. }
  repeat destruct (f_ltb (F:=Q) _ _); cbn; rewrite !Qred_correct;
    rewrite <- Hsum; ring.
Qed.

(** X7. In exact arithmetic, for x_coef entries of at most 1, the
    stored coefficients of every segment satisfy c0 + c1 + c2 = 1, after
    the two corrections as before them: a negative c2 or c0 is added to
    c1 before it is set to zero, and the guard on a small denominator
    never fires since d is at least 0.5. *)
Theorem coefficients_sum_to_one np_sqrt np_power LAKE nan (p : Params.t Q)
        (sroff ssres gwres : list Q) (cm : option string)
        (self : Engine.t (F:=Q)) :
  Engine.__init__ np_sqrt np_power LAKE nan p sroff ssres gwres cm
  = Ok self →
  Forall (λ v, (v <= 1)%Q) (Params.x_coef p) →
  ∀ (i : nat) (a b c : Q),
    Engine._c0 self !! i = Some a → Engine._c1 self !! i = Some b →
    Engine._c2 self !! i = Some c → (a + b + c == 1)%Q.
Proof.
  intros Hinit Hx i a b c Ha Hb Hc.
  apply init_fields in Hinit
    as (_ & _ & _ & _ & _ & _ & Hc0 & Hc1 & Hc2 & _).
  cbv zeta in Hc0, Hc1, Hc2. rewrite Hc0 in Ha. rewrite Hc1 in Hb.
  rewrite Hc2 in Hc. clear Hc0 Hc1 Hc2.
  match type of Ha with
  | Precond.c0_of ?K' _ _ !! _ = _ => set (K := K') in *
  end.
  unfold Precond.c0_of in Ha. unfold Precond.c2_of in Hc.
  apply clamp0_lookup in Ha as (r0 & Hr0 & ->).
  apply clamp0_lookup in Hc as (r2 & Hr2 & ->).
  apply c0_raw_lookup in Hr0 as (k & xi & t & Hk & Hxi & Ht & ->).
  apply c2_raw_lookup in Hr2 as (k2 & xi2 & t2 & Hk2 & Hxi2 & Ht2 & ->).
  apply c1_of_lookup in Hb as (k1 & xi1 & t1 & Hk1 & Hxi1 & Ht1 & ->).
  simplify_eq.
  unfold Precond.ts_of in Ht.
  apply list_lookup_fmap_Some_1 in Ht as (k' & -> & Hk').
  rewrite Hk in Hk'. injection Hk' as <-.
  apply Q_coefficients_sum.
  - pose proof (Q_Kcoef_range np_sqrt np_power LAKE (Params.nsegment p)
                  (Params.segment_type p) (Params.seg_length p)
                  (Params.mann_n p) (Params.seg_slope p)
                  (Params.seg_depth p)) as HK.
    eapply Forall_lookup_1 in HK as [HK _]; [|exact Hk]. lra.
  - by eapply Forall_lookup_1 in Hx.
  - apply Q_band_ts_ge1.
Qed.

Lemma coefficients_sum_to_one_witness :
  ∃ self, chain2_engine None = Ok self
          ∧ ∀ (i : nat) (a b c : Q),
              Engine._c0 self !! i = Some a → Engine._c1 self !! i = Some b →
              Engine._c2 self !! i = Some c → (a + b + c == 1)%Q.
Proof.
  destruct (chain2_engine None) as [self|] eqn:Hself;
    [|vm_compute in Hself; discriminate].
  exists self. split; [done|].
  apply (coefficients_sum_to_one q_sqrt q_power 2 0%Q chain2
           [86400%Q; 0%Q] [0%Q; 0%Q] [0%Q; 0%Q] None self Hself).
  cbn. repeat constructor; apply Qle_bool_imp_le; reflexivity.
Defined.

(** ** What the kernel can raise *)

Lemma ieo_ret {A} (a : A) : index_error_only (Ok a).
Proof. by intros e [=]. Qed.

Lemma ieo_bind {A B} (m : result A) (f : A → result B) :
  index_error_only m → (∀ a, index_error_only (f a)) →
  index_error_only (m ≫= f).
Proof.
  intros Hm Hf e. destruct m as [a|e']; cbn; [apply Hf|].
  intros [= <-]. by apply Hm.
Qed.

Lemma ieo_getitem {A} (a : list A) (i : Z) : index_error_only (getitem a i).
Proof. intros e. apply getitem_raises. Qed.

Lemma ieo_setitem {A} (a : list A) (i : Z) (x : A) :
  index_error_only (setitem a i x).
Proof. intros e. apply setitem_raises. Qed.

Lemma ieo_moditem {A} (a : list A) (i : Z) (f : A → A) :
  index_error_only (moditem a i f).
Proof.
  unfold moditem. apply ieo_bind; [apply ieo_getitem|].
  intros x. apply ieo_setitem.
Qed.

Lemma ieo_foldM {A S} (f : S → A → result S) (l : list A) (s : S) :
  (∀ st x, index_error_only (f st x)) → index_error_only (foldM f l s).
Proof. intros Hf e. by apply foldM_raises. Qed.

Ltac ieo :=
  repeat first
    [ apply ieo_ret | apply ieo_getitem | apply ieo_setitem
    | apply ieo_moditem | apply ieo_bind; [|intros ?] | case_decide ].

Lemma ieo_segment_body {F} `{Float64 F} (to_segment : list Z)
      (seg_lateral_inflow : list F) (tsi : list Z) (ts c0 c1 c2 : list F)
      (ihr : Z) (st : Kernel.kstate (F:=F)) (jseg : Z) :
  index_error_only
    (Kernel.segment_body to_segment seg_lateral_inflow tsi ts c0 c1 c2
       ihr st jseg).
Proof.
  unfold Kernel.segment_body, Kernel.route_segment. cbv zeta. ieo.
Qed.

Lemma foldM_raises_at {A S} (f : S → A → result S) (l : list A) (x : A) :
  (∀ s, ∃ e, f s x = Raise e) → x ∈ l →
  ∀ s, ∃ e, foldM f l s = Raise e.
Proof.
  intros Hx. induction l as [|y l IH]; intros Hin s.
  - by apply elem_of_nil in Hin.
  - cbn. destruct (f s y) as [s'|e] eqn:Hy; cbn; [|by exists e].
    apply elem_of_cons in Hin as [->|Hin]; [|by apply IH].
    destruct (Hx s) as [e He]. congruence.
Qed.

(** X8. In every float64 arithmetic the only exception the routing
    kernel can raise is IndexError, and it does raise it when the
    segment order holds an index equal to the number of segments or
    more. *)
Theorem kernel_raises_only_IndexError {F} `{Float64 F}
        (to_segment : list Z) (seg_lateral_inflow : list F) (tsi : list Z)
        (ts c0 c1 c2 : list F) (segment_order : list Z)
        (seg_inflow0 outflow_ts : list F) :
  index_error_only
    (Kernel._muskingum_mann_numpy to_segment seg_lateral_inflow tsi ts
       c0 c1 c2 segment_order seg_inflow0 outflow_ts)
  ∧ ∀ j, j ∈ segment_order → Z.of_nat (length seg_lateral_inflow) ≤ j →
         Kernel._muskingum_mann_numpy to_segment seg_lateral_inflow tsi ts
           c0 c1 c2 segment_order seg_inflow0 outflow_ts
         = Raise IndexError.
Proof.
  assert (index_error_only
            (Kernel._muskingum_mann_numpy to_segment seg_lateral_inflow tsi
               ts c0 c1 c2 segment_order seg_inflow0 outflow_ts)) as Hieo.
  { unfold Kernel._muskingum_mann_numpy, Kernel.day_loop.
    apply ieo_bind; [|intros; apply ieo_ret].
    apply ieo_foldM. intros st ihr. unfold Kernel.hour_body. cbv zeta.
    apply ieo_foldM. intros st' jseg. apply ieo_segment_body. }
  split; [done|]. intros j Hj Hge.
  destruct (Kernel._muskingum_mann_numpy to_segment seg_lateral_inflow tsi
              ts c0 c1 c2 segment_order seg_inflow0 outflow_ts)
    as [r|e] eqn:Hr; [|by rewrite (Hieo e eq_refl)].
  exfalso. unfold Kernel._muskingum_mann_numpy, Kernel.day_loop in Hr.
  apply bind_Ok_inv in Hr as (st & Hst & _).
  change Kernel.hours with (0 :: (Z.of_nat <$> seq 1 23)) in Hst.
  cbn [foldM] in Hst. apply bind_Ok_inv in Hst as (st1 & Hh & _).
  unfold Kernel.hour_body in Hh. cbv zeta in Hh.
  match type of Hh with
  | foldM ?f _ ?s0 = _ =>
      assert (∀ s, ∃ e, f s j = Raise e) as Hraise;
      [|destruct (foldM_raises_at f segment_order j Hraise Hj s0) as [e He];
        congruence]
  end.
  intros s. exists IndexError. unfold Kernel.segment_body.
  rewrite (getitem_out_of_range seg_lateral_inflow j) by lia. reflexivity.
Qed.

(** ** The kernel, step by step *)

Section KernelExact.
Context {F : Type} `{Float64 F}.
Variables (n : nat) (segment_order to_segment : list Z)
          (seg_lateral_inflow : list F) (tsi : list Z) (ts c0 c1 c2 : list F).
Hypothesis Hargs : kernel_args n (λ _, True) segment_order to_segment
                               seg_lateral_inflow tsi ts c0 c1 c2.

Local Abbreviation route_segment := (Kernel.route_segment tsi ts c0 c1 c2).
Local Abbreviation segment_body :=
  (Kernel.segment_body to_segment seg_lateral_inflow tsi ts c0 c1 c2).
Local Abbreviation inv := (seg_inv n (λ _ : F, True)).

Ltac look a j x Hx :=
  destruct (lookup_lt_is_Some_2 a (Z.to_nat j)) as [x Hx]; [lia|].

(** The sub-step closure in range: what it reads and what it writes. *)
Lemma route_segment_exact (jseg : Z) (st : Kernel.kstate (F:=F)) :
  0 ≤ jseg < Z.of_nat n → inv st →
  ∃ b ts_j tsi_j c0_j c1_j c2_j prev out,
    Kernel.inflow_ts st !! Z.to_nat jseg = Some b
    ∧ ts !! Z.to_nat jseg = Some ts_j
    ∧ tsi !! Z.to_nat jseg = Some tsi_j
    ∧ c0 !! Z.to_nat jseg = Some c0_j
    ∧ c1 !! Z.to_nat jseg = Some c1_j
    ∧ c2 !! Z.to_nat jseg = Some c2_j
    ∧ Kernel.seg_inflow0 st !! Z.to_nat jseg = Some prev
    ∧ Kernel.outflow_ts st !! Z.to_nat jseg = Some out
    ∧ route_segment jseg st
      = Ok {| Kernel.seg_upstream_inflow := Kernel.seg_upstream_inflow st;
              Kernel.seg_inflow0 :=
                <[Z.to_nat jseg := (b / ts_j)%f64]> (Kernel.seg_inflow0 st);
              Kernel.seg_inflow := Kernel.seg_inflow st;
              Kernel.seg_outflow := Kernel.seg_outflow st;
              Kernel.seg_outflow0 := Kernel.seg_outflow0 st;
              Kernel.inflow_ts :=
                <[Z.to_nat jseg := f_lit 0%Q]> (Kernel.inflow_ts st);
              Kernel.outflow_ts :=
                <[Z.to_nat jseg := closing tsi_j (b / ts_j)%f64
                                     c0_j c1_j c2_j prev out]>
                  (Kernel.outflow_ts st);
              Kernel.seg_current_sum := Kernel.seg_current_sum st |}.
Proof.
  intros Hj (([Hi0 _] & [Hin _] & [Hout _] & [Hout0 _] & [Hits _]
              & [Hots _] & [Hsum _]) & [Hup _]).
  destruct Hargs as (_ & _ & _ & Htsi & [Hts _] & [Hc0 _] & [Hc1 _]
                     & [Hc2 _]).
  look (Kernel.inflow_ts st) jseg b Hb.
  look ts jseg ts_j Hts_j. look tsi jseg tsi_j Htsi_j.
  look c0 jseg c0_j Hc0_j. look c1 jseg c1_j Hc1_j. look c2 jseg c2_j Hc2_j.
  look (Kernel.seg_inflow0 st) jseg prev Hprev.
  look (Kernel.outflow_ts st) jseg out Hout_j.
  exists b, ts_j, tsi_j, c0_j, c1_j, c2_j, prev, out.
  repeat (split; [done|]).
  unfold Kernel.route_segment.
  rewrite (getitem_inrange ts jseg ts_j) by (lia || done).
  cbn [mbind result_bind].
  rewrite (moditem_inrange (Kernel.inflow_ts st) jseg _ b) by (lia || done).
  cbn [mbind result_bind].
  rewrite (getitem_inrange tsi jseg tsi_j) by (lia || done).
  cbn [mbind result_bind].
  set (i1 := <[Z.to_nat jseg := (b / ts_j)%f64]> (Kernel.inflow_ts st)).
  assert (i1 !! Z.to_nat jseg = Some (b / ts_j)%f64) as Hi1.
  { apply list_lookup_insert_eq. lia. }
  rewrite !(getitem_inrange i1 jseg _ (proj1 Hj) Hi1).
  cbn [mbind result_bind].
  assert ((if decide (tsi_j > 0)
           then c0_j ← getitem c0 jseg;
                prev_j ← getitem (Kernel.seg_inflow0 st) jseg;
                c1_j ← getitem c1 jseg;
                out_j ← getitem (Kernel.outflow_ts st) jseg;
                c2_j ← getitem c2 jseg;
                setitem (Kernel.outflow_ts st) jseg
                  (b / ts_j * c0_j + prev_j * c1_j + out_j * c2_j)%f64
           else setitem (Kernel.outflow_ts st) jseg (b / ts_j)%f64)
          = Ok (<[Z.to_nat jseg := closing tsi_j (b / ts_j)%f64
                                     c0_j c1_j c2_j prev out]>
                  (Kernel.outflow_ts st))) as ->.
  { unfold closing. destruct (decide (tsi_j > 0)).
    - rewrite (getitem_inrange c0 jseg c0_j) by (lia || done).
      rewrite (getitem_inrange (Kernel.seg_inflow0 st) jseg prev)
        by (lia || done).
      rewrite (getitem_inrange c1 jseg c1_j) by (lia || done).
      rewrite (getitem_inrange (Kernel.outflow_ts st) jseg out)
        by (lia || done).
      rewrite (getitem_inrange c2 jseg c2_j) by (lia || done).
      cbn [mbind result_bind]. apply setitem_inrange. lia.
    - apply setitem_inrange. lia. }
  cbn [mbind result_bind].
  rewrite (setitem_inrange (Kernel.seg_inflow0 st)) by lia.
  cbn [mbind result_bind].
  rewrite (setitem_inrange i1)
    by (unfold i1; rewrite length_insert; lia).
  cbn [mbind result_bind]. unfold i1. by rewrite list_insert_insert_eq.
Qed.

(** One segment at one hour in range: the accumulators after the body,
    the state [st2] after the sub-step closure when the hour closes one,
    and the share handed downstream. *)
Lemma segment_body_exact (ihr jseg : Z) (st : Kernel.kstate (F:=F)) :
  0 ≤ jseg < Z.of_nat n → inv st →
  ∃ l u a b c o tsi_j to_seg st2 w up',
    seg_lateral_inflow !! Z.to_nat jseg = Some l
    ∧ Kernel.seg_upstream_inflow st !! Z.to_nat jseg = Some u
    ∧ Kernel.seg_inflow st !! Z.to_nat jseg = Some a
    ∧ Kernel.inflow_ts st !! Z.to_nat jseg = Some b
    ∧ Kernel.seg_current_sum st !! Z.to_nat jseg = Some c
    ∧ Kernel.seg_outflow st !! Z.to_nat jseg = Some o
    ∧ tsi !! Z.to_nat jseg = Some tsi_j
    ∧ to_segment !! Z.to_nat jseg = Some to_seg
    ∧ (let st1 :=
         {| Kernel.seg_upstream_inflow := Kernel.seg_upstream_inflow st;
            Kernel.seg_inflow0 := Kernel.seg_inflow0 st;
            Kernel.seg_inflow :=
              <[Z.to_nat jseg := (a + (l + u))%f64]> (Kernel.seg_inflow st);
            Kernel.seg_outflow := Kernel.seg_outflow st;
            Kernel.seg_outflow0 := Kernel.seg_outflow0 st;
            Kernel.inflow_ts :=
              <[Z.to_nat jseg := (b + (l + u))%f64]> (Kernel.inflow_ts st);
            Kernel.outflow_ts := Kernel.outflow_ts st;
            Kernel.seg_current_sum :=
              <[Z.to_nat jseg := (c + u)%f64]> (Kernel.seg_current_sum st)
         |} in
       inv st1
       ∧ if decide (np_mod (ihr + 1) tsi_j = 0)
         then route_segment jseg st1 = Ok st2 else st2 = st1)
    ∧ Kernel.outflow_ts st2 !! Z.to_nat jseg = Some w
    ∧ (if decide (to_seg >= 0)
       then ∃ e, Kernel.seg_upstream_inflow st !! Z.to_nat to_seg = Some e
                 ∧ up' = <[Z.to_nat to_seg := (e + w)%f64]>
                           (Kernel.seg_upstream_inflow st)
       else up' = Kernel.seg_upstream_inflow st)
    ∧ segment_body ihr st jseg
      = Ok {| Kernel.seg_upstream_inflow := up';
              Kernel.seg_inflow0 := Kernel.seg_inflow0 st2;
              Kernel.seg_inflow :=
                <[Z.to_nat jseg := (a + (l + u))%f64]> (Kernel.seg_inflow st);
              Kernel.seg_outflow :=
                <[Z.to_nat jseg := (o + w)%f64]> (Kernel.seg_outflow st);
              Kernel.seg_outflow0 :=
                <[Z.to_nat jseg := w]> (Kernel.seg_outflow0 st);
              Kernel.inflow_ts := Kernel.inflow_ts st2;
              Kernel.outflow_ts := Kernel.outflow_ts st2;
              Kernel.seg_current_sum :=
                <[Z.to_nat jseg := (c + u)%f64]> (Kernel.seg_current_sum st)
           |}.
Proof.
  intros Hj Hinv.
  pose proof Hinv as (([Hi0 ?] & [Hin ?] & [Hout ?] & [Hout0 ?] & [Hits ?]
                       & [Hots ?] & [Hsum ?]) & [Hup ?]).
  pose proof Hargs as (_ & [Hto Hto_lt] & [Hlat _] & Htsi & _).
  look seg_lateral_inflow jseg l Hl.
  look (Kernel.seg_upstream_inflow st) jseg u Hu.
  look (Kernel.seg_inflow st) jseg a Ha.
  look (Kernel.inflow_ts st) jseg b Hb.
  look (Kernel.seg_current_sum st) jseg c Hc.
  look (Kernel.seg_outflow st) jseg o Ho.
  look tsi jseg tsi_j Htsi_j. look to_segment jseg to_seg Hto_seg.
  set (st1 :=
         {| Kernel.seg_upstream_inflow := Kernel.seg_upstream_inflow st;
            Kernel.seg_inflow0 := Kernel.seg_inflow0 st;
            Kernel.seg_inflow :=
              <[Z.to_nat jseg := (a + (l + u))%f64]> (Kernel.seg_inflow st);
            Kernel.seg_outflow := Kernel.seg_outflow st;
            Kernel.seg_outflow0 := Kernel.seg_outflow0 st;
            Kernel.inflow_ts :=
              <[Z.to_nat jseg := (b + (l + u))%f64]> (Kernel.inflow_ts st);
            Kernel.outflow_ts := Kernel.outflow_ts st;
            Kernel.seg_current_sum :=
              <[Z.to_nat jseg := (c + u)%f64]> (Kernel.seg_current_sum st)
         |}).
  assert (inv st1) as Hinv1.
  { unfold seg_inv, day_inv, array_of, st1. cbn.
    rewrite !length_insert. repeat split; try done; by apply Forall_true. }
  assert (∃ st2, (if decide (np_mod (ihr + 1) tsi_j = 0)
                  then route_segment jseg st1 = Ok st2 else st2 = st1)
                 ∧ (if decide (np_mod (ihr + 1) tsi_j = 0)
                    then route_segment jseg st1 else Ok st1) = Ok st2
                 ∧ Kernel.seg_upstream_inflow st2
                   = Kernel.seg_upstream_inflow st
                 ∧ Kernel.seg_outflow st2 = Kernel.seg_outflow st
                 ∧ Kernel.seg_outflow0 st2 = Kernel.seg_outflow0 st
                 ∧ Kernel.seg_inflow st2 = Kernel.seg_inflow st1
                 ∧ Kernel.seg_current_sum st2 = Kernel.seg_current_sum st1
                 ∧ length (Kernel.outflow_ts st2) = n)
    as (st2 & Hst2 & Hst2' & Hup2 & Hout2 & Hout02 & Hin2 & Hsum2 & Hots2).
  { destruct (decide (np_mod (ihr + 1) tsi_j = 0)).
    - destruct (route_segment_exact jseg st1 Hj Hinv1)
        as (? & ? & ? & ? & ? & ? & ? & ? & _ & _ & _ & _ & _ & _ & _ & _
            & Hr).
      eexists. split; [exact Hr|]. split; [exact Hr|]. cbn.
      rewrite length_insert. done.
    - exists st1. done. }
  look (Kernel.outflow_ts st2) jseg w Hw.
  assert (∃ up', if decide (to_seg >= 0)
                 then ∃ e, Kernel.seg_upstream_inflow st !! Z.to_nat to_seg
                           = Some e
                           ∧ up' = <[Z.to_nat to_seg := (e + w)%f64]>
                                     (Kernel.seg_upstream_inflow st)
                 else up' = Kernel.seg_upstream_inflow st) as [up' Hup'].
  { destruct (decide (to_seg >= 0)); [|by eexists].
    destruct (lookup_lt_is_Some_2 (Kernel.seg_upstream_inflow st)
                (Z.to_nat to_seg)) as [e He].
    { eapply Forall_lookup_1 in Hto_lt; [|exact Hto_seg]. cbn beta in *.
      lia. }
    eexists. exists e. done. }
  exists l, u, a, b, c, o, tsi_j, to_seg, st2, w, up'.
  repeat (split; [done|]).
  unfold Kernel.segment_body.
  rewrite (getitem_inrange seg_lateral_inflow jseg l) by (lia || done).
  cbn [mbind result_bind].
  rewrite !(getitem_inrange (Kernel.seg_upstream_inflow st) jseg u)
    by (lia || done).
  cbn [mbind result_bind]. cbv zeta.
  rewrite (moditem_inrange (Kernel.seg_inflow st) jseg _ a) by (lia || done).
  cbn [mbind result_bind].
  rewrite (moditem_inrange (Kernel.inflow_ts st) jseg _ b) by (lia || done).
  cbn [mbind result_bind].
  rewrite (moditem_inrange (Kernel.seg_current_sum st) jseg _ c)
    by (lia || done).
  cbn [mbind result_bind].
  rewrite (getitem_inrange tsi jseg tsi_j) by (lia || done).
  cbn [mbind result_bind]. fold st1. rewrite Hst2'.
  cbn [mbind result_bind].
  rewrite !(getitem_inrange (Kernel.outflow_ts st2) jseg w) by (lia || done).
  cbn [mbind result_bind]. rewrite Hout2, Hout02, Hup2, Hin2, Hsum2.
  rewrite (moditem_inrange (Kernel.seg_outflow st) jseg _ o) by (lia || done).
  cbn [mbind result_bind].
  rewrite (setitem_inrange (Kernel.seg_outflow0 st)) by lia.
  cbn [mbind result_bind].
  rewrite (getitem_inrange to_segment jseg to_seg) by (lia || done).
  cbn [mbind result_bind].
  destruct (decide (to_seg >= 0)) as [Hge|Hlt].
  - destruct Hup' as (e & He & ->).
    rewrite (moditem_inrange (Kernel.seg_upstream_inflow st) to_seg _ e)
      by (lia || done).
    done.
  - by rewrite Hup'.
Qed.
End KernelExact.

(** ** A loop rule for the routing kernel *)

Section KernelRule.
Context {F : Type} `{Float64 F}.
Variables (n : nat) (segment_order to_segment : list Z)
          (seg_lateral_inflow : list F) (tsi : list Z) (ts c0 c1 c2 : list F).
Hypothesis Hargs : kernel_args n (λ _, True) segment_order to_segment
                               seg_lateral_inflow tsi ts c0 c1 c2.

Local Abbreviation segment_body :=
  (Kernel.segment_body to_segment seg_lateral_inflow tsi ts c0 c1 c2).
Local Abbreviation hour_body :=
  (Kernel.hour_body to_segment seg_lateral_inflow tsi ts c0 c1 c2).
Local Abbreviation inv := (seg_inv n (λ _ : F, True)).

(** [R h] holds between hours, after [h] of them; [W h pre] holds inside
    hour [h], after the segments [pre]. *)
Variables (R : nat → Kernel.kstate (F:=F) → Prop)
          (W : nat → list Z → Kernel.kstate (F:=F) → Prop).
Hypothesis Hstart : ∀ h st,
  (h < 24)%nat → day_inv n (λ _, True) st → R h st →
  W h [] {| Kernel.seg_upstream_inflow :=
              Kernel.times_zero (Kernel.seg_inflow st);
            Kernel.seg_inflow0 := Kernel.seg_inflow0 st;
            Kernel.seg_inflow := Kernel.seg_inflow st;
            Kernel.seg_outflow := Kernel.seg_outflow st;
            Kernel.seg_outflow0 := Kernel.seg_outflow0 st;
            Kernel.inflow_ts := Kernel.inflow_ts st;
            Kernel.outflow_ts := Kernel.outflow_ts st;
            Kernel.seg_current_sum := Kernel.seg_current_sum st |}.
Hypothesis Hstep : ∀ h pre x post st st',
  segment_order = pre ++ x :: post → (h < 24)%nat → 0 ≤ x < Z.of_nat n →
  inv st → W h pre st → segment_body (Z.of_nat h) st x = Ok st' →
  W h (pre ++ [x]) st'.
Hypothesis Hend : ∀ h st,
  (h < 24)%nat → inv st → W h segment_order st → R (S h) st.

Lemma day_loop_rule (seg_inflow0_in outflow_ts_in : list F) :
  length seg_inflow0_in = n → length outflow_ts_in = n →
  R 0 (Kernel.init_day seg_inflow0_in outflow_ts_in) →
  ∃ st, Kernel.day_loop to_segment seg_lateral_inflow tsi ts c0 c1 c2
          segment_order seg_inflow0_in outflow_ts_in = Ok st
        ∧ day_inv n (λ _, True) st ∧ R 24 st.
Proof.
  intros Hi0 Hots HR0. unfold Kernel.day_loop.
  change Kernel.hours with (Network.range 24).
  pose proof Hargs as (Horder & _).
  assert (∀ a : list F, length a = n → array_of n (λ _ : F, True) a) as Harr.
  { intros a Ha. split; [done|]. by apply Forall_true. }
  destruct (foldM_rule (hour_body segment_order)
              (λ pre s, day_inv n (λ _, True) s ∧ R (length pre) s)
              (Network.range 24)
              (Kernel.init_day seg_inflow0_in outflow_ts_in))
    as (r & Hr & Hinv & HR).
  - split; [|done]. unfold day_inv, Kernel.init_day, Kernel.times_zero. cbn.
    repeat split; try apply Harr; rewrite ?length_fmap; done.
  - intros pre x post s Hl [Hd HRs].
    apply range_prefix in Hl as (_ & -> & Hlt).
    set (h := length pre) in *. unfold Kernel.hour_body.
    match goal with
    | |- context [foldM _ _ ?s0] => set (st0 := s0)
    end.
    destruct (foldM_rule (segment_body (Z.of_nat h))
                (λ pre' s', inv s' ∧ W h pre' s') segment_order st0)
      as (s' & Hs' & Hinv' & HW).
    + split; [|by apply Hstart].
      pose proof Hd as (_ & [Hin _] & _).
      split; [exact Hd|].
      unfold st0, Kernel.times_zero. cbn. apply Harr.
      by rewrite length_fmap.
    + intros pre' y post' s1 Hl' [Hinv1 HW1].
      assert (0 ≤ y < Z.of_nat n) as Hy.
      { eapply Forall_forall in Horder; [done|]. rewrite Hl'.
        apply elem_of_app. right. by left. }
      destruct (segment_body_ok n (λ _, True) segment_order to_segment
                  seg_lateral_inflow tsi ts c0 c1 c2 closed_under_True
                  Hargs (Z.of_nat h) y s1 Hy Hinv1)
        as (s2 & Hb & Hinv2 & _).
      exists s2. split; [done|]. split; [done|].
      exact (Hstep h pre' y post' s1 s2 Hl' Hlt Hy Hinv1 HW1 Hb).
    + exists s'. split; [done|]. split; [by destruct Hinv'|].
      rewrite length_app. cbn [length]. rewrite Nat.add_1_r.
      by apply Hend.
  - exists r. split; [done|]. split; [done|].
    unfold Network.range in HR. by rewrite length_fmap, length_seq in HR.
Qed.
End KernelRule.

(** ** The inflow balance of a segment *)

Lemma Qn_S (m : nat) : (Qn (S m) == Qn m + 1)%Q.
Proof.
  unfold Qn. rewrite Nat2Z.inj_succ, <- Z.add_1_r.
  by rewrite inject_Z_plus.
Qed.

Lemma Qn_plus (a b : nat) : (Qn (a + b) == Qn a + Qn b)%Q.
Proof. unfold Qn. by rewrite Nat2Z.inj_add, inject_Z_plus. Qed.

Lemma Qn_mult (a b : nat) : (Qn (a * b) == Qn a * Qn b)%Q.
Proof. unfold Qn. by rewrite Nat2Z.inj_mul, inject_Z_mult. Qed.

Lemma times_in_snoc (l : list Z) (x j : Z) :
  times_in (l ++ [x]) j
  = (times_in l j + if decide (x = j) then 1 else 0)%nat.
Proof.
  unfold times_in. rewrite filter_app, length_app. f_equal.
  rewrite filter_cons, filter_nil. by destruct (decide (x = j)).
Qed.

Lemma times_in_NoDup (l : list Z) (j : Z) :
  NoDup l → times_in l j = if decide (j ∈ l) then 1%nat else 0%nat.
Proof.
  unfold times_in. induction 1 as [|x l Hx Hnd IH]; [done|].
  rewrite filter_cons. destruct (decide (x = j)) as [->|Hne].
  - cbn [length]. rewrite IH. rewrite decide_False by done.
    by rewrite decide_True by left.
  - rewrite IH. destruct (decide (j ∈ l)) as [Hin|Hnin].
    + by rewrite decide_True by (by right).
    + rewrite decide_False; [done|]. rewrite elem_of_cons.
      intros [->|?]; done.
Qed.

Section InflowBalance.
Variables (n : nat) (segment_order to_segment : list Z)
          (seg_lateral_inflow : list Q) (tsi : list Z) (ts c0 c1 c2 : list Q).
Hypothesis Hargs : kernel_args n (λ _, True) segment_order to_segment
                               seg_lateral_inflow tsi ts c0 c1 c2.

(** The summed inflow of segment [j] is [m] times its lateral inflow
    plus its summed upstream inflow. *)
Local Abbreviation balanced m st :=
  (∀ j : nat, (j < n)%nat →
     ∃ a c l, Kernel.seg_inflow st !! j = Some a
              ∧ Kernel.seg_current_sum st !! j = Some c
              ∧ seg_lateral_inflow !! j = Some l
              ∧ (a == Qn (m (Z.of_nat j)) * l + c)%Q).

Lemma day_loop_balance (seg_inflow0 outflow_ts : list Q) :
  length seg_inflow0 = n → length outflow_ts = n →
  ∃ st, Kernel.day_loop to_segment seg_lateral_inflow tsi ts c0 c1 c2
          segment_order seg_inflow0 outflow_ts = Ok st
        ∧ day_inv n (λ _, True) st
        ∧ balanced (λ j, 24 * times_in segment_order j)%nat st.
Proof.
  intros Hi0 Hots.
  pose proof Hargs as (_ & _ & [Hlat _] & _).
  apply (day_loop_rule n segment_order to_segment seg_lateral_inflow tsi ts
           c0 c1 c2 Hargs
           (λ h st, balanced (λ j, h * times_in segment_order j)%nat st)
           (λ h pre st,
              balanced (λ j, h * times_in segment_order j
                             + times_in pre j)%nat st)).
  - intros h st Hh Hd HR j Hj. destruct (HR j Hj) as (a & c & l & ? & ? & ? & E).
    exists a, c, l. cbn. repeat (split; [done|]).
    by rewrite Nat.add_0_r.
  - intros h pre x post st st' Hl Hh Hx Hinv HW Hb j Hj.
    destruct (segment_body_exact n segment_order to_segment
                seg_lateral_inflow tsi ts c0 c1 c2 Hargs (Z.of_nat h) x st
                Hx Hinv)
      as (l & u & a & b & c & o & tsi_j & to_seg & st2 & w & up' & Hl_x
          & Hu & Ha & _ & Hc & _ & _ & _ & _ & _ & _ & Hbody).
    rewrite Hbody in Hb. injection Hb as <-. cbn.
    destruct (HW j Hj) as (a' & c' & l' & Ha' & Hc' & Hl' & E).
    rewrite times_in_snoc.
    destruct (decide (x = Z.of_nat j)) as [->|Hne].
    + rewrite Nat2Z.id in Hl_x, Hu, Ha, Hc |- *.
      rewrite Ha in Ha'. rewrite Hc in Hc'. rewrite Hl_x in Hl'.
      injection Ha' as <-. injection Hc' as <-. injection Hl' as <-.
      exists (a + (l + u))%f64, (c + u)%f64, l.
      split; [apply list_lookup_insert_eq; by apply lookup_lt_Some in Ha|].
      split; [apply list_lookup_insert_eq; by apply lookup_lt_Some in Hc|].
      split; [done|]. cbn [f_add Q_float64].
      rewrite !Qred_correct, Nat.add_assoc, Nat.add_1_r, Qn_S, E. ring.
    + exists a', c', l'.
      rewrite !list_lookup_insert_ne by lia.
      repeat (split; [done|]). by rewrite Nat.add_0_r.
  - intros h st Hh Hinv HW j Hj.
    destruct (HW j Hj) as (a & c & l & ? & ? & ? & E).
    exists a, c, l. repeat (split; [done|]). rewrite E.
    by replace (S h * times_in segment_order (Z.of_nat j))%nat
      with (h * times_in segment_order (Z.of_nat j)
            + times_in segment_order (Z.of_nat j))%nat by lia.
  - done.
  - done.
  - intros j Hj. cbn. rewrite times_zero_Q.
    destruct (lookup_lt_is_Some_2 seg_lateral_inflow j) as [l Hl]; [lia|].
    exists 0%Q, 0%Q, l. rewrite lookup_replicate_2 by lia.
    repeat (split; [done|]).
    change (Qn 0) with 0%Q. ring.
Qed.
End InflowBalance.

Lemma kernel_inflow_balance (n : nat)
        (segment_order to_segment : list Z) (seg_lateral_inflow : list Q)
        (tsi : list Z) (ts c0 c1 c2 seg_inflow0 outflow_ts : list Q) :
  kernel_args n (λ _, True) segment_order to_segment seg_lateral_inflow
              tsi ts c0 c1 c2 →
  length seg_inflow0 = n → length outflow_ts = n →
  NoDup segment_order →
  ∃ r, Kernel._muskingum_mann_numpy to_segment seg_lateral_inflow tsi ts
         c0 c1 c2 segment_order seg_inflow0 outflow_ts = Ok r
       ∧ ∀ j : nat, (j < n)%nat →
           ∃ a u l, Kernel.seg_inflow r !! j = Some a
                    ∧ Kernel.seg_upstream_inflow r !! j = Some u
                    ∧ seg_lateral_inflow !! j = Some l
                    ∧ (Z.of_nat j ∈ segment_order → a == l + u)%Q
                    ∧ (Z.of_nat j ∉ segment_order → a == u)%Q.
Proof.
  intros Hargs Hi0 Hots Hnd.
  destruct (day_loop_balance n segment_order to_segment seg_lateral_inflow
              tsi ts c0 c1 c2 Hargs seg_inflow0 outflow_ts Hi0 Hots)
    as (st & Hst & _ & Hbal).
  unfold Kernel._muskingum_mann_numpy. rewrite Hst. cbn [mbind result_bind].
  eexists. split; [done|]. intros j Hj.
  destruct (Hbal j Hj) as (a & c & l & Ha & Hc & Hl & E).
  cbn [Kernel.daily_means Kernel.seg_inflow Kernel.seg_upstream_inflow].
  rewrite !list_lookup_fmap, Ha, Hc. cbn [fmap option_fmap option_map].
  eexists _, _, l. repeat (split; [done|]).
  rewrite times_in_NoDup in E by done. split.
  - intros Hin. rewrite decide_True in E by done.
    cbn [f_div f_lit Q_float64]. rewrite !Qred_correct, E.
    unfold Qn. cbn. field.
  - intros Hnin. rewrite decide_False in E by done.
    cbn [f_div f_lit Q_float64]. rewrite !Qred_correct, E.
    unfold Qn. cbn. field.
Qed.

(** X9. In exact arithmetic, for in-range arguments and a segment
    order without repetition, the kernel returns, and for every segment
    of the order the daily-mean seg_inflow equals seg_lateral_inflow
    plus the returned seg_upstream_inflow; for a segment outside the
    order it equals the returned seg_upstream_inflow (both are zero
    sums). *)
Theorem inflow_is_lateral_plus_upstream (n : nat)
        (segment_order to_segment : list Z) (seg_lateral_inflow : list Q)
        (tsi : list Z) (ts c0 c1 c2 seg_inflow0 outflow_ts : list Q) :
  kernel_args n (λ _, True) segment_order to_segment seg_lateral_inflow
              tsi ts c0 c1 c2 →
  length seg_inflow0 = n → length outflow_ts = n →
  NoDup segment_order →
  ∃ r, Kernel._muskingum_mann_numpy to_segment seg_lateral_inflow tsi ts
         c0 c1 c2 segment_order seg_inflow0 outflow_ts = Ok r
       ∧ ∀ j : nat, (j < n)%nat →
           ∃ a u l, Kernel.seg_inflow r !! j = Some a
                    ∧ Kernel.seg_upstream_inflow r !! j = Some u
                    ∧ seg_lateral_inflow !! j = Some l
                    ∧ (Z.of_nat j ∈ segment_order → a == l + u)%Q
                    ∧ (Z.of_nat j ∉ segment_order → a == u)%Q.
Proof. apply kernel_inflow_balance. Qed.

(** ** Pass-through segments *)

Lemma np_mod_minus_one (a : Z) : np_mod a (-1) = 0.
Proof.
  unfold np_mod. rewrite decide_False by lia.
  pose proof (Z.mod_neg_bound a (-1)). lia.
Qed.

Section PassThrough.
Variables (n : nat) (segment_order to_segment : list Z)
          (seg_lateral_inflow : list Q) (tsi : list Z) (ts c0 c1 c2 : list Q).
Hypothesis Hargs : kernel_args n (λ _, True) segment_order to_segment
                               seg_lateral_inflow tsi ts c0 c1 c2.
Variable j0 : nat.
Hypothesis Htsi0 : tsi !! j0 = Some (-1).
Hypothesis Hts0 : ts !! j0 = Some 1%Q.

(** The summed outflow of the segment equals its summed inflow, and its
    sub-step accumulator is empty. *)
Local Abbreviation passed st :=
  (∃ a o b, Kernel.seg_inflow st !! j0 = Some a
            ∧ Kernel.seg_outflow st !! j0 = Some o
            ∧ Kernel.inflow_ts st !! j0 = Some b
            ∧ (o == a)%Q ∧ (b == 0)%Q).

Lemma day_loop_pass_through (seg_inflow0 outflow_ts : list Q) :
  length seg_inflow0 = n → length outflow_ts = n →
  ∃ st, Kernel.day_loop to_segment seg_lateral_inflow tsi ts c0 c1 c2
          segment_order seg_inflow0 outflow_ts = Ok st
        ∧ day_inv n (λ _, True) st ∧ passed st.
Proof.
  intros Hi0 Hots.
  assert (j0 < n)%nat as Hj0.
  { apply lookup_lt_Some in Htsi0. destruct Hargs as (_ & _ & _ & <- & _).
    done. }
  apply (day_loop_rule n segment_order to_segment seg_lateral_inflow tsi ts
           c0 c1 c2 Hargs (λ _ st, passed st) (λ _ _ st, passed st)).
  - intros h st _ _ HR. exact HR.
  - intros h pre x post st st' _ _ Hx Hinv (a0 & o0 & b0 & Ha0 & Ho0 & Hb0
                                            & Eo & Eb) Hb.
    destruct (segment_body_exact n segment_order to_segment
                seg_lateral_inflow tsi ts c0 c1 c2 Hargs (Z.of_nat h) x st
                Hx Hinv)
      as (l & u & a & b & c & o & tsi_j & to_seg & st2 & w & up' & Hl_x
          & Hu & Ha & Hb_x & Hc & Ho & Htsi_j & _ & [Hinv1 Hst2] & Hw & _
          & Hbody).
    rewrite Hbody in Hb. injection Hb as <-.
    cbn [Kernel.seg_inflow Kernel.seg_outflow Kernel.inflow_ts].
    match type of Hinv1 with
    | seg_inv _ _ ?s => set (st1 := s) in *
    end.
    destruct (route_segment_exact n segment_order to_segment
                seg_lateral_inflow tsi ts c0 c1 c2 Hargs x st1 Hx Hinv1)
      as (b1 & ts_j & tsi_j' & c0_j & c1_j & c2_j & prev & out & Hb1 & Hts_j
          & Htsi_j' & _ & _ & _ & _ & _ & Hroute).
    unfold st1 in Hb1, Hroute, Hst2. clear Hinv1 st1.
    cbn [Kernel.seg_upstream_inflow Kernel.seg_inflow0 Kernel.seg_inflow
         Kernel.seg_outflow Kernel.seg_outflow0 Kernel.inflow_ts
         Kernel.outflow_ts Kernel.seg_current_sum] in Hb1, Hroute.
    destruct (decide (Z.to_nat x = j0)) as [Hxj|Hne].
    + rewrite Hxj in *.
      rewrite Htsi0 in Htsi_j, Htsi_j'. injection Htsi_j as <-.
      injection Htsi_j' as <-. rewrite Hts0 in Hts_j. injection Hts_j as <-.
      rewrite Ha0 in Ha. injection Ha as <-.
      rewrite Ho0 in Ho. injection Ho as <-.
      rewrite Hb0 in Hb_x. injection Hb_x as <-.
      rewrite decide_True in Hst2 by apply np_mod_minus_one.
      rewrite Hroute in Hst2. injection Hst2 as <-.
      cbn [Kernel.outflow_ts Kernel.inflow_ts] in Hw |- *.
      rewrite list_lookup_insert_eq in Hb1
        by (by apply lookup_lt_Some in Hb0).
      injection Hb1 as <-.
      rewrite list_lookup_insert_eq in Hw.
      2:{ destruct Hinv as ((_ & _ & _ & _ & _ & [-> _] & _) & _). done. }
      injection Hw as <-.
      eexists _, _, _.
      split; [apply list_lookup_insert_eq; by apply lookup_lt_Some in Ha0|].
      split; [apply list_lookup_insert_eq; by apply lookup_lt_Some in Ho0|].
      split.
      { apply list_lookup_insert_eq. rewrite length_insert.
        by apply lookup_lt_Some in Hb0. }
      split; [|done].
      unfold closing. rewrite decide_False by lia.
      cbn [f_add f_div Q_float64]. rewrite !Qred_correct, Eo, Eb. field.
    + exists a0, o0, b0.
      rewrite !list_lookup_insert_ne by done.
      split; [done|]. split; [done|]. split; [|done].
      destruct (decide (np_mod (Z.of_nat h + 1) tsi_j = 0)).
      * rewrite Hroute in Hst2. injection Hst2 as <-.
        cbn [Kernel.inflow_ts]. by rewrite !list_lookup_insert_ne by done.
      * rewrite Hst2. cbn [Kernel.inflow_ts].
        by rewrite list_lookup_insert_ne.
  - intros h st _ _ HW. exact HW.
  - done.
  - done.
  - cbn. rewrite times_zero_Q. exists 0%Q, 0%Q, 0%Q.
    rewrite lookup_replicate_2 by lia. done.
Qed.
End PassThrough.

Lemma kernel_pass_through (n : nat)
        (segment_order to_segment : list Z) (seg_lateral_inflow : list Q)
        (tsi : list Z) (ts c0 c1 c2 seg_inflow0 outflow_ts : list Q)
        (j : nat) :
  kernel_args n (λ _, True) segment_order to_segment seg_lateral_inflow
              tsi ts c0 c1 c2 →
  length seg_inflow0 = n → length outflow_ts = n →
  tsi !! j = Some (-1) → ts !! j = Some 1%Q →
  ∃ r q, Kernel._muskingum_mann_numpy to_segment seg_lateral_inflow tsi ts
           c0 c1 c2 segment_order seg_inflow0 outflow_ts = Ok r
         ∧ Kernel.seg_outflow r !! j = Some q
         ∧ Kernel.seg_inflow r !! j = Some q.
Proof.
  intros Hargs Hi0 Hots Htsi Hts.
  destruct (day_loop_pass_through n segment_order to_segment
              seg_lateral_inflow tsi ts c0 c1 c2 Hargs j Htsi Hts
              seg_inflow0 outflow_ts Hi0 Hots)
    as (st & Hst & _ & a & o & b & Ha & Ho & _ & Eo & _).
  unfold Kernel._muskingum_mann_numpy. rewrite Hst. cbn [mbind result_bind].
  eexists _, _. split; [done|].
  cbn [Kernel.daily_means Kernel.seg_inflow Kernel.seg_outflow].
  rewrite !list_lookup_fmap, Ha, Ho. cbn [fmap option_fmap option_map].
  split; [done|]. f_equal. cbn [f_div Q_float64].
  apply Qred_complete. by rewrite Eo.
Qed.

(** X10. In exact arithmetic a pass-through segment (tsi = -1 with
    ts = 1, as the banding loop sets them) has a daily-mean seg_outflow
    equal to its daily-mean seg_inflow, whatever the state, the
    coefficients and the place of the segment in the network. *)
Theorem pass_through_outflow_is_inflow (n : nat)
        (segment_order to_segment : list Z) (seg_lateral_inflow : list Q)
        (tsi : list Z) (ts c0 c1 c2 seg_inflow0 outflow_ts : list Q)
        (j : nat) :
  kernel_args n (λ _, True) segment_order to_segment seg_lateral_inflow
              tsi ts c0 c1 c2 →
  length seg_inflow0 = n → length outflow_ts = n →
  tsi !! j = Some (-1) → ts !! j = Some 1%Q →
  ∃ r q, Kernel._muskingum_mann_numpy to_segment seg_lateral_inflow tsi ts
           c0 c1 c2 segment_order seg_inflow0 outflow_ts = Ok r
         ∧ Kernel.seg_outflow r !! j = Some q
         ∧ Kernel.seg_inflow r !! j = Some q.
Proof. apply kernel_pass_through. Qed.

(** ** Continuity at the junctions *)

Lemma upstream_total_insert (to_segment : list Z) (a : list Q) (x : nat)
      (t j : Z) (o v : Q) :
  to_segment !! x = Some t → a !! x = Some o →
  (upstream_total to_segment (<[x:=v]> a) j
   == upstream_total to_segment a j
      + (if decide (t = j) then v - o else 0))%Q.
Proof.
  unfold upstream_total. revert a x.
  induction to_segment as [|t' to IH]; intros a x Ht Ho; [done|].
  destruct a as [|y a]; [done|]. destruct x as [|x]; cbn in Ht, Ho |- *.
  - simplify_eq. destruct (decide (t = j)); ring.
  - rewrite (IH a x Ht Ho). ring.
Qed.

Lemma upstream_total_mean (to_segment : list Z) (a : list Q) (j : Z) :
  (upstream_total to_segment ((λ x, x / f_lit 24%Q)%f64 <$> a) j
   == upstream_total to_segment a j / 24)%Q.
Proof.
  unfold upstream_total. revert a.
  induction to_segment as [|t to IH]; intros a; [done|].
  destruct a as [|y a]; [done|]. cbn [fmap list_fmap zip_with foldr].
  rewrite IH. cbn [f_div f_lit Q_float64].
  destruct (decide (t = j)); rewrite ?Qred_correct; field.
Qed.

Lemma upstream_total_zero (to_segment : list Z) (m : nat) (j : Z) :
  (upstream_total to_segment (replicate m 0%Q) j == 0)%Q.
Proof.
  unfold upstream_total. revert m.
  induction to_segment as [|t to IH]; intros m; [done|].
  destruct m as [|m]; [done|]. cbn [replicate zip_with foldr].
  rewrite IH. destruct (decide (t = j)); ring.
Qed.

Section Continuity.
Variables (n : nat) (segment_order to_segment : list Z)
          (seg_lateral_inflow : list Q) (tsi : list Z) (ts c0 c1 c2 : list Q).
Hypothesis Hargs : kernel_args n (λ _, True) segment_order to_segment
                               seg_lateral_inflow tsi ts c0 c1 c2.
Hypothesis Hnd : NoDup segment_order.
Hypothesis Hfirst : ∀ l1 v l2 u,
  segment_order = l1 ++ v :: l2 → Network.drains_to n to_segment u v →
  u ∈ l1.

Lemma not_before_itself (pre post : list Z) (x j : Z) :
  segment_order = pre ++ x :: post → j ∈ pre → 0 ≤ x < Z.of_nat n →
  ¬ (to_segment !! Z.to_nat x = Some j ∧ 0 ≤ j).
Proof.
  intros Hl Hj Hx [Hto Hj0].
  apply list_elem_of_split in Hj as (p1 & p2 & ->).
  assert (x ∈ p1) as Hin.
  { apply (Hfirst p1 j (p2 ++ x :: post) x).
    - rewrite Hl. by rewrite <- app_assoc.
    - done. }
  rewrite Hl in Hnd. apply NoDup_app in Hnd as (_ & Hdis & _).
  apply (Hdis x); [|by left]. apply elem_of_app. by left.
Qed.

(** The invariant inside an hour: the summed upstream inflow of a
    segment already processed, and the sum plus the hour's buffer of one
    still to come, equal the summed outflow of its upstream
    neighbours. *)
Lemma day_loop_continuity (seg_inflow0 outflow_ts : list Q) :
  length seg_inflow0 = n → length outflow_ts = n →
  ∃ st, Kernel.day_loop to_segment seg_lateral_inflow tsi ts c0 c1 c2
          segment_order seg_inflow0 outflow_ts = Ok st
        ∧ day_inv n (λ _, True) st
        ∧ ∀ j, j ∈ segment_order →
            ∃ c, Kernel.seg_current_sum st !! Z.to_nat j = Some c
                 ∧ (c == upstream_total to_segment (Kernel.seg_outflow st) j)%Q.
Proof.
  intros Hi0 Hots.
  pose proof Hargs as (Horder & _).
  assert (∀ j, j ∈ segment_order → 0 ≤ j < Z.of_nat n) as Hrange.
  { intros j Hj. by eapply Forall_forall in Horder. }
  apply (day_loop_rule n segment_order to_segment seg_lateral_inflow tsi ts
           c0 c1 c2 Hargs
           (λ _ st, ∀ j, j ∈ segment_order →
              ∃ c, Kernel.seg_current_sum st !! Z.to_nat j = Some c
                   ∧ (c == upstream_total to_segment
                             (Kernel.seg_outflow st) j)%Q)
           (λ _ pre st, ∀ j, j ∈ segment_order →
              ∃ c u, Kernel.seg_current_sum st !! Z.to_nat j = Some c
                     ∧ Kernel.seg_upstream_inflow st !! Z.to_nat j = Some u
                     ∧ ((if decide (j ∈ pre) then c else (c + u)%Q)
                        == upstream_total to_segment
                             (Kernel.seg_outflow st) j)%Q)).
  - intros h st _ Hd HR j Hj. destruct (HR j Hj) as (c & Hc & E).
    exists c, 0%Q. cbn. split; [done|]. split.
    + rewrite times_zero_Q. apply lookup_replicate_2.
      destruct Hd as (_ & [-> _] & _). specialize (Hrange j Hj). lia.
    + rewrite decide_False by apply not_elem_of_nil. rewrite <- E. ring.
  - intros h pre x post st st' Hl _ Hx Hinv HW Hb j Hj.
    destruct (segment_body_exact n segment_order to_segment
                seg_lateral_inflow tsi ts c0 c1 c2 Hargs (Z.of_nat h) x st
                Hx Hinv)
      as (l & u & a & b & c & o & tsi_j & to_seg & st2 & w & up' & _
          & Hu & _ & _ & Hc & Ho & _ & Hto_seg & _ & _ & Hup' & Hbody).
    rewrite Hbody in Hb. injection Hb as <-.
    cbn [Kernel.seg_current_sum Kernel.seg_upstream_inflow
         Kernel.seg_outflow].
    destruct (HW j Hj) as (cj & uj & Hcj & Huj & E).
    pose proof (Hrange j Hj) as Hjr.
    assert (x ∉ pre) as Hxpre.
    { rewrite Hl in Hnd. apply NoDup_app in Hnd as (_ & Hdis & _).
      intros Hin. apply (Hdis x Hin). by left. }
    pose proof (upstream_total_insert to_segment (Kernel.seg_outflow st)
                  (Z.to_nat x) to_seg j o (o + w)%f64 Hto_seg Ho) as Etot.
    cbn [f_add Q_float64] in Etot.
    destruct (decide (j = x)) as [->|Hne].
    + rewrite Hc in Hcj. injection Hcj as <-.
      rewrite Hu in Huj. injection Huj as <-.
      rewrite decide_False in E by done.
      assert (to_seg ≠ x) as Hself.
      { intros ->. apply Hxpre. apply (Hfirst pre x post x Hl).
        split; [done|]. split; [done|lia]. }
      assert (∃ u', up' !! Z.to_nat x = Some u') as [u' Hu'].
      { apply lookup_lt_is_Some_2.
        destruct (decide (to_seg >= 0)).
        - destruct Hup' as (e & _ & ->). rewrite length_insert.
          by apply lookup_lt_Some in Hu.
        - rewrite Hup'. by apply lookup_lt_Some in Hu. }
      exists (c + u)%f64, u'.
      split; [apply list_lookup_insert_eq; by apply lookup_lt_Some in Hc|].
      split; [done|].
      rewrite decide_True by (apply elem_of_app; right; by left).
      rewrite Etot, decide_False by done. cbn [f_add Q_float64].
      rewrite Qred_correct, E. ring.
    + assert (Z.to_nat j ≠ Z.to_nat x) as Hne' by lia.
      rewrite list_lookup_insert_ne by done.
      destruct (decide (j ∈ pre)) as [Hin|Hnin].
      * assert (to_seg ≠ j) as Hto.
        { intros ->. apply (not_before_itself pre post x j Hl Hin Hx).
          split; [done|lia]. }
        assert (∃ u', up' !! Z.to_nat j = Some u') as [u' Hu'].
        { apply lookup_lt_is_Some_2.
          destruct (decide (to_seg >= 0)).
          - destruct Hup' as (e & _ & ->). rewrite length_insert.
            by apply lookup_lt_Some in Huj.
          - rewrite Hup'. by apply lookup_lt_Some in Huj. }
        exists cj, u'. split; [done|]. split; [done|].
        rewrite decide_True by (apply elem_of_app; by left).
        rewrite Etot, decide_False by done. rewrite E. ring.
      * destruct (decide (to_seg = j)) as [->|Hto].
        -- rewrite decide_True in Hup' by lia.
           destruct Hup' as (e & He & ->).
           rewrite Huj in He. injection He as <-.
           exists cj, (uj + w)%f64. split; [done|].
           split; [apply list_lookup_insert_eq;
                   by apply lookup_lt_Some in Huj|].
           rewrite decide_False.
           2:{ rewrite elem_of_app, list_elem_of_singleton. tauto. }
           rewrite Etot. cbn [f_add Q_float64].
           rewrite !Qred_correct, <- E. ring.
        -- exists cj, uj. split; [done|]. split.
           { destruct (decide (to_seg >= 0)).
             - destruct Hup' as (e & _ & ->).
               rewrite list_lookup_insert_ne by lia. done.
             - by rewrite Hup'. }
           rewrite decide_False.
           2:{ rewrite elem_of_app, list_elem_of_singleton. tauto. }
           rewrite Etot, E. ring.
  - intros h st _ _ HW j Hj. destruct (HW j Hj) as (c & u & Hc & _ & E).
    exists c. split; [done|]. by rewrite decide_True in E.
  - done.
  - done.
  - intros j Hj. cbn. rewrite times_zero_Q. exists 0%Q.
    split; [apply lookup_replicate_2; specialize (Hrange j Hj); lia|].
    by rewrite upstream_total_zero.
Qed.
End Continuity.

Lemma kernel_continuity (n : nat)
        (segment_order to_segment : list Z) (seg_lateral_inflow : list Q)
        (tsi : list Z) (ts c0 c1 c2 seg_inflow0 outflow_ts : list Q) :
  kernel_args n (λ _, True) segment_order to_segment seg_lateral_inflow
              tsi ts c0 c1 c2 →
  length seg_inflow0 = n → length outflow_ts = n →
  NoDup segment_order →
  (∀ l1 v l2 u, segment_order = l1 ++ v :: l2 →
                Network.drains_to n to_segment u v → u ∈ l1) →
  ∃ r, Kernel._muskingum_mann_numpy to_segment seg_lateral_inflow tsi ts
         c0 c1 c2 segment_order seg_inflow0 outflow_ts = Ok r
       ∧ ∀ j, j ∈ segment_order →
           ∃ u, Kernel.seg_upstream_inflow r !! Z.to_nat j = Some u
                ∧ (u == upstream_total to_segment (Kernel.seg_outflow r) j)%Q.
Proof.
  intros Hargs Hi0 Hots Hnd Hfirst.
  destruct (day_loop_continuity n segment_order to_segment
              seg_lateral_inflow tsi ts c0 c1 c2 Hargs Hnd Hfirst
              seg_inflow0 outflow_ts Hi0 Hots)
    as (st & Hst & _ & Hjoin).
  unfold Kernel._muskingum_mann_numpy. rewrite Hst. cbn [mbind result_bind].
  eexists. split; [done|]. intros j Hj.
  destruct (Hjoin j Hj) as (c & Hc & E).
  cbn [Kernel.daily_means Kernel.seg_upstream_inflow Kernel.seg_outflow].
  rewrite list_lookup_fmap, Hc. cbn [fmap option_fmap option_map].
  eexists. split; [done|].
  rewrite upstream_total_mean. cbn [f_div f_lit Q_float64].
  by rewrite Qred_correct, E.
Qed.

(** X11. In exact arithmetic, for in-range arguments and a segment
    order without repetition that lists every segment after the segments
    that drain to it, the seg_upstream_inflow the kernel returns for a
    segment of the order is the sum of the daily-mean seg_outflow of the
    segments that drain to it: no water is lost or made at a
    junction. *)
Theorem upstream_inflow_is_upstream_outflow (n : nat)
        (segment_order to_segment : list Z) (seg_lateral_inflow : list Q)
        (tsi : list Z) (ts c0 c1 c2 seg_inflow0 outflow_ts : list Q) :
  kernel_args n (λ _, True) segment_order to_segment seg_lateral_inflow
              tsi ts c0 c1 c2 →
  length seg_inflow0 = n → length outflow_ts = n →
  NoDup segment_order →
  (∀ l1 v l2 u, segment_order = l1 ++ v :: l2 →
                Network.drains_to n to_segment u v → u ∈ l1) →
  ∃ r, Kernel._muskingum_mann_numpy to_segment seg_lateral_inflow tsi ts
         c0 c1 c2 segment_order seg_inflow0 outflow_ts = Ok r
       ∧ ∀ j, j ∈ segment_order →
           ∃ u, Kernel.seg_upstream_inflow r !! Z.to_nat j = Some u
                ∧ (u == upstream_total to_segment (Kernel.seg_outflow r) j)%Q.
Proof. apply kernel_continuity. Qed.

(** ** Where the lateral aggregation fails *)

Lemma ieo_lateral_flow {F} `{Float64 F} (nhru : nat) (hru_segment : list Z)
      (s_per_time : F) (sroff ssres gwres lat0 : list F) :
  index_error_only
    (Engine.lateral_flow nhru hru_segment s_per_time sroff ssres gwres lat0).
Proof.
  unfold Engine.lateral_flow. apply ieo_foldM. intros st x.
  unfold Engine.lateral_body. cbv zeta. ieo.
Qed.

Lemma lateral_flow_in_range {F} `{Float64 F} (nhru : nat)
      (hru_segment : list Z) (s_per_time : F)
      (sroff ssres gwres lat0 : list F) (r : Engine.lateral (F:=F)) :
  Engine.lateral_flow nhru hru_segment s_per_time sroff ssres gwres lat0
  = Ok r →
  ¬ hru_out_of_range nhru hru_segment (length lat0).
Proof.
  unfold Engine.lateral_flow. intros Hr (h & iseg & Hh & Hi & Hge).
  apply (foldM_inv _ (λ pre st,
           length (Engine.l_seg_lateral_inflow st) = length lat0
           ∧ ∀ (h : nat) v, (h < length pre)%nat →
                            hru_segment !! h = Some v →
                            v < Z.of_nat (length lat0))) in Hr.
  - destruct Hr as [_ Hr]. unfold Network.range in Hr.
    rewrite length_fmap, length_seq in Hr. specialize (Hr h iseg Hh Hi). lia.
  - split; [cbn; by rewrite length_fmap|]. intros ? ? Hlt. cbn in Hlt. lia.
  - intros pre x post st st' Hl [Hlen Hpre] Hbody.
    apply range_prefix in Hl as (_ & -> & Hlt).
    unfold Engine.lateral_body in Hbody.
    apply bind_Ok_inv in Hbody as (v & Hv & Hbody).
    apply getitem_nonneg_inv in Hv; [|lia]. rewrite Nat2Z.id in Hv.
    rewrite length_app. cbn [length]. rewrite Nat.add_1_r.
    assert (length (Engine.l_seg_lateral_inflow st') = length lat0
            ∧ v < Z.of_nat (length lat0)) as [Hlen' Hvlt].
    { destruct (decide (v < 0)) as [Hneg|Hpos].
      - apply bind_Ok_inv in Hbody as (a & _ & Hbody).
        apply bind_Ok_inv in Hbody as (b & _ & Hbody).
        apply bind_Ok_inv in Hbody as (c & _ & Hbody).
        injection Hbody as <-. cbn. split; [done|lia].
      - apply bind_Ok_inv in Hbody as (a & _ & Hbody).
        apply bind_Ok_inv in Hbody as (b & _ & Hbody).
        apply bind_Ok_inv in Hbody as (c & _ & Hbody).
        cbv zeta in Hbody.
        apply bind_Ok_inv in Hbody as (lat & Hlat & Hbody).
        injection Hbody as <-. cbn. unfold moditem in Hlat.
        apply bind_Ok_inv in Hlat as (y & _ & Hlat).
        apply setitem_nonneg_inv in Hlat as [-> Hin]; [|lia].
        rewrite length_insert. split; [done|lia]. }
    split; [done|]. intros h' v' Hh' Hv'.
    destruct (decide (h' = length pre)) as [->|Hne];
      [by simplify_eq|apply (Hpre h'); [lia|done]].
Qed.

Lemma lateral_flow_outcome {F} `{Float64 F} (nhru : nat)
        (hru_segment : list Z) (s_per_time : F)
        (sroff ssres gwres lat0 : list F) :
  (nhru ≤ length hru_segment)%nat →
  (nhru ≤ length sroff)%nat →
  (nhru ≤ length ssres)%nat →
  (nhru ≤ length gwres)%nat →
  (hru_out_of_range nhru hru_segment (length lat0) →
   Engine.lateral_flow nhru hru_segment s_per_time sroff ssres gwres lat0
   = Raise IndexError)
  ∧ (¬ hru_out_of_range nhru hru_segment (length lat0) →
     is_Ok (Engine.lateral_flow nhru hru_segment s_per_time sroff ssres
              gwres lat0)).
Proof.
  intros Hhru Hsroff Hssres Hgwres. split.
  - intros Hbad.
    destruct (Engine.lateral_flow nhru hru_segment s_per_time sroff ssres
                gwres lat0) as [r|e] eqn:Hr.
    + by apply lateral_flow_in_range in Hr.
    + by apply ieo_lateral_flow in Hr as ->.
  - intros Hok.
    destruct (lateral_flow_upto nhru hru_segment s_per_time sroff ssres
                gwres lat0 Hhru Hsroff Hssres Hgwres) as (r & Hr & _).
    + intros h iseg Hh Hi.
      destruct (decide (iseg < Z.of_nat (length lat0))) as [|Hge]; [done|].
      exfalso. apply Hok. exists h, iseg. split; [done|]. split; [done|lia].
    + by exists r.
Qed.

(** X12. In every float64 arithmetic, with at least nhru entries in
    hru_segment and in the three inputs: the lateral aggregation raises
    IndexError when one of the first nhru HRUs has a segment index equal
    to the number of segments or more, and returns otherwise. *)
Theorem lateral_flow_fails_iff {F} `{Float64 F} (nhru : nat)
        (hru_segment : list Z) (s_per_time : F)
        (sroff ssres gwres lat0 : list F) :
  (nhru ≤ length hru_segment)%nat →
  (nhru ≤ length sroff)%nat →
  (nhru ≤ length ssres)%nat →
  (nhru ≤ length gwres)%nat →
  (hru_out_of_range nhru hru_segment (length lat0) →
   Engine.lateral_flow nhru hru_segment s_per_time sroff ssres gwres lat0
   = Raise IndexError)
  ∧ (¬ hru_out_of_range nhru hru_segment (length lat0) →
     is_Ok (Engine.lateral_flow nhru hru_segment s_per_time sroff ssres
              gwres lat0)).
Proof. apply lateral_flow_outcome. Qed.

Lemma lateral_flow_fails_iff_witness :
  Engine.lateral_flow (F:=Q) 2 [0; 2] 2%Q [2%Q; 4%Q] [0%Q; 8%Q] [0%Q; 0%Q]
                      [7%Q; 7%Q]
  = Raise IndexError.
Proof.
  apply lateral_flow_fails_iff; cbn; try lia.
  exists 1%nat, 2. cbn. split; [lia|]. split; [done|lia].
Defined.

(** ** The kernel selector reads no case *)

Lemma lower_ascii_idemp (c : ascii) :
  lower_ascii (lower_ascii c) = lower_ascii c.
Proof. destruct c as [[] [] [] [] [] [] [] []]; reflexivity. Qed.

Lemma lower_idemp (s : string) : lower (lower s) = lower s.
Proof.
  induction s as [|c s IH]; [done|]. cbn. by rewrite lower_ascii_idemp, IH.
Qed.

(** X13. The kernel selector reads calc_method through lower():
    two selectors that differ in case only select the same kernel or
    raise alike, and the default calc_method None, stored as the string
    of None, selects the numpy kernel. *)
Theorem select_kernel_ignores_case {F} `{Float64 F}
        (numba fortran : Engine.kernel_type (F:=F)) :
  (∀ cm cm', lower cm = lower cm' →
             Engine.select_kernel numba fortran cm
             = Engine.select_kernel numba fortran cm')
  ∧ (∀ cm, Engine.select_kernel numba fortran (lower cm)
           = Engine.select_kernel numba fortran cm)
  ∧ Engine.select_kernel numba fortran (py_str None)
    = Ok Engine.numpy_kernel
  ∧ Engine.select_kernel numba fortran "NumPy" = Ok Engine.numpy_kernel.
Proof.
  assert (∀ cm cm', lower cm = lower cm' →
             Engine.select_kernel numba fortran cm
             = Engine.select_kernel numba fortran cm') as Hcase.
  { intros cm cm' Hl. unfold Engine.select_kernel. cbv zeta. by rewrite Hl. }
  split; [done|]. split; [|split].
  - intros cm. apply Hcase. apply lower_idemp.
  - reflexivity.
  - reflexivity.
Qed.

(** ** The engine over any number of steps, in exact arithmetic *)

Lemma Q_lateral_sum_nonneg (hru_segment : list Z)
      (sroff ssres gwres : list Q) (s_per_time : Q) (s : Z)
      (hrus : list nat) :
  (0 < s_per_time)%Q →
  Forall (λ v, (0 <= v)%Q) sroff → Forall (λ v, (0 <= v)%Q) ssres →
  Forall (λ v, (0 <= v)%Q) gwres →
  (0 <= lateral_sum hru_segment sroff ssres gwres s_per_time s hrus)%Q.
Proof.
  intros Hs Ha Hb Hc. unfold lateral_sum.
  assert (0 <= f_lit (F:=Q) 0)%Q as H0 by done.
  revert H0. generalize (f_lit (F:=Q) 0%Q).
  induction hrus as [|h hrus IH]; intros acc Hacc; [done|].
  cbn [foldl]. apply IH.
  destruct (hru_segment !! h) as [iseg|]; [|done].
  destruct (sroff !! h) as [a|] eqn:Ea; [|done].
  destruct (ssres !! h) as [b|] eqn:Eb; [|done].
  destruct (gwres !! h) as [c|] eqn:Ec; [|done].
  destruct (decide (iseg = s)); [|done].
  eapply Forall_lookup_1 in Ea; [|exact Ha].
  eapply Forall_lookup_1 in Eb; [|exact Hb].
  eapply Forall_lookup_1 in Ec; [|exact Hc].
  cbn beta in *. cbn [f_add f_div Q_float64]. rewrite !Qred_correct.
  assert (0 <= (a + b + c) / s_per_time)%Q.
  { unfold Qdiv. apply Qmult_le_0_compat; [lra|].
    apply Qinv_le_0_compat. lra. }
  lra.
Qed.

Lemma Q_zero_orphans_nonneg (hru_segment : list Z) (k : nat) (a : list Q) :
  Forall (λ v, (0 <= v)%Q) a →
  Forall (λ v, (0 <= v)%Q) (zero_orphans hru_segment k a).
Proof.
  intros Ha. apply Forall_lookup. intros i v.
  unfold zero_orphans. rewrite list_lookup_imap.
  destruct (a !! i) as [x|] eqn:Ex; [|done]. cbn.
  eapply Forall_lookup_1 in Ex; [|exact Ha]. cbn beta in Ex.
  destruct (hru_segment !! i) as [iseg|]; [|by intros [= <-]].
  case_decide; intros [= <-]; done.
Qed.

(** The seeding loop writes initial outflows over zeros. *)
Lemma seed_inflow_array {F} `{Float64 F} (P : F → Prop) (n : nat)
      (tosegment : list Z) (seg_outflow seeded : list F) :
  P (f_lit 0%Q) → Forall P seg_outflow →
  Engine.seed_inflow n tosegment seg_outflow = Ok seeded →
  array_of n P seeded.
Proof.
  intros P0 Hout. unfold Engine.seed_inflow.
  apply (foldM_inv _ (λ _ acc, array_of n P acc)).
  - split; [by rewrite length_replicate|].
    apply Forall_forall. intros x Hx. by apply elem_of_replicate in Hx as [-> _].
  - intros pre x post st st' _ Hst Hbody. unfold Engine.seed_body in Hbody.
    apply bind_Ok_inv in Hbody as (jseg & _ & Hbody).
    destruct (decide (jseg < 0)); [by simplify_eq|].
    apply bind_Ok_inv in Hbody as (q & Hq & Hbody).
    unfold setitem in Hbody. apply bind_Ok_inv in Hbody as (k & _ & Hbody).
    injection Hbody as <-. apply array_of_insert; [done|].
    unfold getitem in Hq. apply bind_Ok_inv in Hq as (k' & _ & Hq).
    destruct (seg_outflow !! k') as [y|] eqn:Ey; [|done].
    injection Hq as <-. by eapply Forall_lookup_1 in Ey.
Qed.

(** One outer step keeps the invariant and yields non-negative flows. *)
Lemma step_ok (numba fortran : Engine.kernel_type (F:=Q))
      (e : Engine.t (F:=Q)) (s_per_time : Q) :
  (0 < s_per_time)%Q → engine_ok e → inputs_ok e →
  ∃ e', Engine._calculate numba fortran (Engine._advance_variables e)
          s_per_time = Ok e'
        ∧ engine_ok e' ∧ inputs_ok e'
        ∧ Forall (λ v, (0 <= v)%Q) (Engine.seg_outflow e')
        ∧ Forall (λ v, (0 <= v)%Q) (Engine.seg_lateral_inflow e')
        ∧ Forall (λ v, (0 <= v)%Q) (Engine.seg_upstream_inflow e')
        ∧ Forall (λ v, (0 <= v)%Q) (Engine.channel_outflow_vol e').
Proof.
  intros Hs (Hcm & Horder & Hto & Htsi & Hts & Hc0 & Hc1 & Hc2 & Hin & Hots
             & Hlat & Hhru & Hrange)
         ((Hla & Ha) & (Hlb & Hb) & (Hlc & Hc)).
  cbv zeta in *.
  set (p := Engine.params e) in *. set (n := Params.nsegment p) in *.
  unfold Engine._calculate.
  cbn [Engine._advance_variables Engine.params Engine.sroff_vol
       Engine.ssres_flow_vol Engine.gwres_flow_vol Engine.seg_lateral_inflow
       Engine._calc_method Engine._segment_order Engine._seg_inflow0
       Engine._outflow_ts Engine._tsi Engine._ts Engine._c0 Engine._c1
       Engine._c2 Engine._outflow_mask].
  fold p.
  destruct (lateral_flow_upto (Params.nhru p) (Params.hru_segment p)
              s_per_time (Engine.sroff_vol e) (Engine.ssres_flow_vol e)
              (Engine.gwres_flow_vol e) (Engine.seg_lateral_inflow e)
              Hhru Hla Hlb Hlc)
    as (lat & -> & Hlen & Hsum & Hza & Hzb & Hzc).
  { intros h iseg Hh Hi. rewrite Hlat. by eapply Hrange. }
  cbn [mbind result_bind].
  assert (Engine.select_kernel numba fortran (Engine._calc_method e)
          = Ok Engine.numpy_kernel) as ->.
  { unfold Engine.select_kernel. cbv zeta.
    rewrite decide_False by (destruct Hcm as [-> | ->]; discriminate).
    by rewrite decide_True. }
  cbn [mbind result_bind]. unfold Engine.numpy_kernel.
  assert (array_of n (λ v, (0 <= v)%Q) (Engine.l_seg_lateral_inflow lat))
    as Hlat'.
  { split; [lia|]. apply Forall_lookup. intros i v Hv.
    rewrite Hsum in Hv by (apply lookup_lt_Some in Hv; lia).
    injection Hv as <-. by apply Q_lateral_sum_nonneg. }
  destruct (muskingum_mann_ok n (λ v, (0 <= v)%Q) (Engine._segment_order e)
              (Params.tosegment p) (Engine.l_seg_lateral_inflow lat)
              (Engine._tsi e) (Engine._ts e) (Engine._c0 e) (Engine._c1 e)
              (Engine._c2 e) Q_nonneg_closed)
    with (seg_inflow0_in := Engine._seg_inflow e)
         (outflow_ts_in := Engine._outflow_ts e)
    as (r & -> & Hinv & Hup & _); [|done|done|].
  { unfold kernel_args. tauto. }
  cbn [mbind result_bind]. eexists. split; [done|].
  destruct Hinv as (_ & Hin' & Hout' & _ & _ & Hots' & _).
  split; [|split; [|split; [|split; [|split]]]].
  - unfold engine_ok. cbn. fold p n. destruct Hlat' as [Hlat' _]. tauto.
  - unfold inputs_ok. cbn. fold p. rewrite Hza, Hzb, Hzc.
    rewrite !zero_orphans_length.
    repeat split; try done; by apply Q_zero_orphans_nonneg.
  - cbn. by destruct Hout'.
  - cbn. by destruct Hlat'.
  - cbn. by destruct Hup.
  - cbn. apply Forall_fmap, Forall_lookup. intros i v Hv.
    apply lookup_zip_with_Some in Hv as (m & q & -> & _ & Hq).
    destruct Hout' as [_ Hout']. eapply Forall_lookup_1 in Hq; [|exact Hout'].
    unfold compose. cbn beta in *. cbn [f_mul Q_float64].
    rewrite Qred_correct. apply Qmult_le_0_compat; [|lra].
    by destruct m.
Qed.

(** X15. In exact arithmetic, from an engine that satisfies
    [engine_ok] with non-negative inputs and a positive s_per_time, any
    number of outer steps (advance, then calculate) succeeds, keeps the
    invariant, and leaves seg_outflow, seg_lateral_inflow,
    seg_upstream_inflow and channel_outflow_vol non-negative on every
    segment. *)
Theorem flows_stay_nonneg (numba fortran : Engine.kernel_type (F:=Q))
        (e : Engine.t (F:=Q)) (s_per_time : Q) (k : nat) :
  (0 < s_per_time)%Q → engine_ok e → inputs_ok e →
  ∃ e', run numba fortran (S k) e s_per_time = Ok e'
        ∧ engine_ok e' ∧ inputs_ok e'
        ∧ Forall (λ v, (0 <= v)%Q) (Engine.seg_outflow e')
        ∧ Forall (λ v, (0 <= v)%Q) (Engine.seg_lateral_inflow e')
        ∧ Forall (λ v, (0 <= v)%Q) (Engine.seg_upstream_inflow e')
        ∧ Forall (λ v, (0 <= v)%Q) (Engine.channel_outflow_vol e').
Proof.
  intros Hs. revert e. induction k as [|k IH]; intros e Hok Hin.
  - destruct (step_ok numba fortran e s_per_time Hs Hok Hin)
      as (e' & He' & Hrest).
    exists e'. cbn [run]. by rewrite He'.
  - destruct (step_ok numba fortran e s_per_time Hs Hok Hin)
      as (e' & He' & Hok' & Hin' & _).
    destruct (IH e' Hok' Hin') as (e'' & He'' & Hrest).
    exists e''. split; [|done].
    change (run numba fortran (S (S k)) e s_per_time)
      with (Engine._calculate numba fortran (Engine._advance_variables e)
              s_per_time ≫= λ e1, run numba fortran (S k) e1 s_per_time).
    by rewrite He'.
Qed.

Lemma init_engine_ok np_sqrt np_power LAKE nan
        (p : Params.t Q) (sroff ssres gwres : list Q) (cm : option string)
        (self : Engine.t (F:=Q)) :
  let n := Params.nsegment p in
  (0 < n)%nat →
  length (Params.tosegment p) = n →
  length (Params.segment_flow_init p) = n →
  length (Params.segment_type p) = n → length (Params.seg_length p) = n →
  length (Params.mann_n p) = n → length (Params.seg_slope p) = n →
  length (Params.seg_depth p) = n →
  array_of n (λ v, (0 <= v)%Q ∧ (v <= 1 # 2)%Q) (Params.x_coef p) →
  Forall (λ v, (0 <= v)%Q) (Params.segment_flow_init p) →
  (Params.nhru p ≤ length (Params.hru_segment p))%nat →
  Forall (λ v, v ≤ Z.of_nat n) (Params.hru_segment p) →
  lower (py_str cm) = "none"%string ∨ lower (py_str cm) = "numpy"%string →
  Engine.__init__ np_sqrt np_power LAKE nan p sroff ssres gwres cm
  = Ok self →
  engine_ok self
  ∧ Engine.sroff_vol self = sroff ∧ Engine.ssres_flow_vol self = ssres
  ∧ Engine.gwres_flow_vol self = gwres
  ∧ Params.nhru (Engine.params self) = Params.nhru p.
Proof.
  intros n Hn Hto Hflow Htype Hlen Hmann Hslope Hdepth [Hxlen Hx] Hinit0
         Hhru Hhrange Hcm Hinit.
  pose proof (init_fields _ _ _ _ _ _ _ _ _ _ Hinit)
    as (Hb & Hseed & Hp & HK & Hts & Htsi & Hc0 & Hc1 & Hc2 & Hots & _ & Ha
        & Hb' & Hc' & Hlat & Hm).
  cbv zeta in *. fold n in Hb, Hseed, Hp, HK, Hts, Htsi, Hc0, Hc1, Hc2, Hots,
    Hlat.
  set (to := Network.rebase (Params.tosegment p)) in *.
  match type of HK with
  | _ = ?K' => set (K := K') in *
  end.
  assert (n ≤ length to)%nat as Hlto.
  { unfold to, Network.rebase. rewrite length_fmap. lia. }
  assert (¬ Network.out_of_range n to) as Hin.
  { eapply (seed_inflow_in_range (F:=Q)); [| |exact Hseed]; lia. }
  assert (length K = n) as HKlen by (by apply Kcoef_of_length).
  destruct (coefficient_lengths n K (Params.x_coef p) HKlen Hxlen)
    as (Hlts & Hltsi & Hlc0 & Hlc1 & Hlc2).
  assert (Forall (λ k, (0 <= k)%Q) K) as HKpos.
  { eapply Forall_impl; [apply Q_Kcoef_range|]. intros k [Hk _].
    cbn beta. lra. }
  destruct (Q_coefficients_nonneg K (Params.x_coef p) HKpos Hx)
    as (Hn0 & Hn1 & Hn2).
  split; [|by rewrite Hp].
  unfold engine_ok. rewrite Hp. cbn [Params.nsegment Params.tosegment
    Params.nhru Params.hru_segment].
  rewrite Hm, Hts, Htsi, Hc0, Hc1, Hc2, Hots, Hlat.
  split; [done|]. split.
  { destruct (build_spec n to Hlto)
      as [(_ & _ & Hbb)|[(_ & _ & mask' & order & Hbb & Hord)
                        |(Hn1' & mask' & Hbb)]];
      rewrite Hb in Hbb; [discriminate| |].
    - injection Hbb as _ <-. destruct Hord as (_ & Hmem & _).
      apply Forall_forall. intros v Hv.
      apply Hmem in Hv as (u & [(Hv & _)|(Hu & Huv & Hv)]); [done|].
      split; [done|].
      destruct (decide (v < Z.of_nat n)) as [|Hge]; [done|].
      exfalso. apply Hin. exists (Z.to_nat u), v.
      split; [lia|]. split; [done|lia].
    - injection Hbb as _ ->. apply Forall_singleton. lia. }
  split.
  { split; [unfold to, Network.rebase; by rewrite length_fmap|].
    apply Forall_lookup. intros i v Hv.
    destruct (decide (v < Z.of_nat n)) as [|Hge]; [done|].
    exfalso. apply Hin. exists i, v.
    split; [apply lookup_lt_Some in Hv; unfold to, Network.rebase in Hv;
            rewrite length_fmap in Hv; lia|].
    split; [done|lia]. }
  split; [done|]. split.
  { split; [done|]. unfold Precond.ts_of. apply Forall_fmap, Forall_forall.
    intros k _. apply Q_band_ts_nonneg. }
  split; [done|]. split; [done|]. split; [done|]. split.
  { eapply seed_inflow_array; [|exact Hinit0|exact Hseed]. done. }
  split.
  { split; [by rewrite length_replicate|].
    apply Forall_forall. intros x Hx'.
    by apply elem_of_replicate in Hx' as [-> _]. }
  split; [by rewrite length_replicate|].
  split; [unfold Network.rebase; by rewrite length_fmap|].
  intros h iseg Hh Hi. unfold Network.rebase in Hi.
  apply list_lookup_fmap_Some_1 in Hi as (v & -> & Hv).
  eapply Forall_lookup_1 in Hv; [|exact Hhrange]. cbn beta in Hv. lia.
Qed.

(** X14. In exact arithmetic, for parameters of nsegment >= 1
    entries each, x_coef in [0, 0.5], non-negative segment_flow_init,
    one-based hru_segment entries of at most nsegment and calc_method
    None, none or numpy (in any case): an engine that constructs
    satisfies the invariant [engine_ok] (indices in range, strides,
    coefficients and carried flows non-negative arrays of nsegment
    entries), and holds the inputs it was given. *)
Theorem construction_establishes_invariant np_sqrt np_power LAKE nan
        (p : Params.t Q) (sroff ssres gwres : list Q) (cm : option string)
        (self : Engine.t (F:=Q)) :
  let n := Params.nsegment p in
  (0 < n)%nat →
  length (Params.tosegment p) = n →
  length (Params.segment_flow_init p) = n →
  length (Params.segment_type p) = n → length (Params.seg_length p) = n →
  length (Params.mann_n p) = n → length (Params.seg_slope p) = n →
  length (Params.seg_depth p) = n →
  array_of n (λ v, (0 <= v)%Q ∧ (v <= 1 # 2)%Q) (Params.x_coef p) →
  Forall (λ v, (0 <= v)%Q) (Params.segment_flow_init p) →
  (Params.nhru p ≤ length (Params.hru_segment p))%nat →
  Forall (λ v, v ≤ Z.of_nat n) (Params.hru_segment p) →
  lower (py_str cm) = "none"%string ∨ lower (py_str cm) = "numpy"%string →
  Engine.__init__ np_sqrt np_power LAKE nan p sroff ssres gwres cm
  = Ok self →
  engine_ok self
  ∧ Engine.sroff_vol self = sroff ∧ Engine.ssres_flow_vol self = ssres
  ∧ Engine.gwres_flow_vol self = gwres
  ∧ Params.nhru (Engine.params self) = Params.nhru p.
Proof. apply init_engine_ok. Qed.

(** ** The budget terms of [_calculate] *)

(** X16. In exact arithmetic, after a step of an engine that
    satisfies [engine_ok]: seg_stor_change is 0 on every pass-through
    segment (tsi = -1, ts = 1); channel_outflow_vol is 0 on every
    segment the outflow mask does not mark, and seg_outflow times
    s_per_time on every segment it marks. *)
Theorem pass_through_stores_nothing
        (numba fortran : Engine.kernel_type (F:=Q))
        (e e' : Engine.t (F:=Q)) (s_per_time : Q) :
  engine_ok e →
  Engine._calculate numba fortran (Engine._advance_variables e) s_per_time
  = Ok e' →
  (∀ j : nat, Engine._tsi e !! j = Some (-1) →
              Engine._ts e !! j = Some 1%Q →
              Engine.seg_stor_change e' !! j = Some 0%Q)
  ∧ (∀ i : nat, Engine._outflow_mask e !! i = Some false →
                (i < Params.nsegment (Engine.params e))%nat →
                Engine.channel_outflow_vol e' !! i = Some 0%Q)
  ∧ (∀ (i : nat) q, Engine._outflow_mask e !! i = Some true →
                    Engine.seg_outflow e' !! i = Some q →
                    Engine.channel_outflow_vol e' !! i
                    = Some (q * s_per_time)%f64).
Proof.
  intros (Hcm & Horder & Hto & Htsi & Hts & Hc0 & Hc1 & Hc2 & Hin & Hots
          & Hlat & Hhru & Hrange) Hcalc.
  cbv zeta in *.
  set (p := Engine.params e) in *. set (n := Params.nsegment p) in *.
  unfold Engine._calculate in Hcalc.
  cbn [Engine._advance_variables Engine.params Engine.sroff_vol
       Engine.ssres_flow_vol Engine.gwres_flow_vol Engine.seg_lateral_inflow
       Engine._calc_method Engine._segment_order Engine._seg_inflow0
       Engine._outflow_ts Engine._tsi Engine._ts Engine._c0 Engine._c1
       Engine._c2 Engine._outflow_mask] in Hcalc.
  fold p in Hcalc.
  apply bind_Ok_inv in Hcalc as (lat & Hlatr & Hcalc).
  apply bind_Ok_inv in Hcalc as (kernel & Hk & Hcalc).
  apply bind_Ok_inv in Hcalc as (r & Hr & Hcalc).
  assert (kernel = Engine.numpy_kernel) as ->.
  { revert Hk. unfold Engine.select_kernel. cbv zeta.
    rewrite decide_False by (destruct Hcm as [-> | ->]; discriminate).
    rewrite decide_True by done. by intros [= <-]. }
  unfold Engine.numpy_kernel in Hr.
  assert (length (Engine.l_seg_lateral_inflow lat) = n) as Hlat'.
  { unfold Engine.lateral_flow in Hlatr.
    apply (foldM_inv _ (λ _ st, length (Engine.l_seg_lateral_inflow st) = n))
      in Hlatr; [done|cbn; by rewrite length_fmap|].
    intros pre x post st st' _ Hst Hbody. unfold Engine.lateral_body in Hbody.
    apply bind_Ok_inv in Hbody as (v & _ & Hbody).
    destruct (decide (v < 0)).
    - apply bind_Ok_inv in Hbody as (a & _ & Hbody).
      apply bind_Ok_inv in Hbody as (b & _ & Hbody).
      apply bind_Ok_inv in Hbody as (c & _ & Hbody).
      by injection Hbody as <-.
    - apply bind_Ok_inv in Hbody as (a & _ & Hbody).
      apply bind_Ok_inv in Hbody as (b & _ & Hbody).
      apply bind_Ok_inv in Hbody as (c & _ & Hbody).
      cbv zeta in Hbody. apply bind_Ok_inv in Hbody as (l & Hl & Hbody).
      injection Hbody as <-. cbn. unfold moditem in Hl.
      apply bind_Ok_inv in Hl as (y & _ & Hl). unfold setitem in Hl.
      apply bind_Ok_inv in Hl as (k & _ & Hl). injection Hl as <-.
      by rewrite length_insert. }
  assert (kernel_args n (λ _ : Q, True) (Engine._segment_order e)
            (Params.tosegment p) (Engine.l_seg_lateral_inflow lat)
            (Engine._tsi e) (Engine._ts e) (Engine._c0 e) (Engine._c1 e)
            (Engine._c2 e)) as Hargs.
  { unfold kernel_args, array_of in *.
    repeat split; try tauto; by apply Forall_true. }
  destruct (muskingum_mann_ok n (λ _, True) _ _ _ _ _ _ _ _
              closed_under_True Hargs (Engine._seg_inflow e)
              (Engine._outflow_ts e))
    as (r' & Hr' & Hinv & _).
  { split; [by destruct Hin|]. by apply Forall_true. }
  { split; [by destruct Hots|]. by apply Forall_true. }
  rewrite Hr in Hr'. injection Hr' as <-.
  destruct Hinv as (_ & [Hlin _] & [Hlout _] & _).
  injection Hcalc as <-. cbn. split; [|split].
  - intros j Htsi_j Hts_j.
    destruct (kernel_pass_through n _ _ _ _ _ _ _ _ (Engine._seg_inflow e)
                (Engine._outflow_ts e) j Hargs)
      as (r' & q & Hr' & Hqo & Hqi);
      [by destruct Hin|by destruct Hots|done|done|].
    rewrite Hr in Hr'. injection Hr' as <-.
    rewrite list_lookup_fmap, lookup_zip_with, Hqi. cbn. rewrite Hqo. cbn.
    f_equal. apply (Qred_complete _ 0). rewrite Qred_correct. ring.
  - intros i Hm Hi. rewrite list_lookup_fmap, lookup_zip_with, Hm. cbn.
    destruct (lookup_lt_is_Some_2 (Kernel.seg_outflow r) i) as [q ->]; [lia|].
    cbn. first [done | f_equal; apply (Qred_complete _ 0); ring].
  - intros i q Hm Hq. rewrite list_lookup_fmap, lookup_zip_with, Hm. cbn.
    by rewrite Hq.
Qed.

(** ** The equilibrium of a headwater segment *)

Lemma mod_step (h T : Z) :
  0 < T → 0 ≤ h →
  ((h + 1) mod T = 0 → h mod T = T - 1)
  ∧ ((h + 1) mod T ≠ 0 → (h + 1) mod T = h mod T + 1).
Proof.
  intros HT Hh. pose proof (Z.mod_pos_bound h T HT) as Hb.
  pose proof (Z.div_mod h T ltac:(lia)) as Hdm.
  destruct (decide (h mod T + 1 < T)) as [Hlt|Hge].
  - assert ((h + 1) mod T = h mod T + 1) as ->.
    { symmetry. apply (Z.mod_unique_pos _ _ (h / T)); lia. }
    split; lia.
  - assert ((h + 1) mod T = 0) as ->.
    { symmetry. apply (Z.mod_unique_pos _ _ (h / T + 1)); lia. }
    split; lia.
Qed.

Lemma closes_iff (x t : Z) :
  t = -1 ∨ 0 < t → (np_mod x t = 0 ↔ x mod Z.max 1 t = 0).
Proof.
  intros [->|Ht].
  - rewrite np_mod_minus_one. change (Z.max 1 (-1)) with 1.
    by rewrite Z.mod_1_r.
  - unfold np_mod. rewrite decide_False by lia.
    by rewrite Z.max_r by lia.
Qed.

Section Equilibrium.
Variables (n : nat) (segment_order to_segment : list Z)
          (seg_lateral_inflow : list Q) (tsi : list Z) (ts c0 c1 c2 : list Q).
Hypothesis Hargs : kernel_args n (λ _, True) segment_order to_segment
                               seg_lateral_inflow tsi ts c0 c1 c2.
Hypothesis Hnd : NoDup segment_order.

Variables (j : nat) (L : Q) (t : Z) (tsq c0j c1j c2j : Q).
Hypothesis Hj : Z.of_nat j ∈ segment_order.
Hypothesis Hhead : ∀ i : nat, to_segment !! i ≠ Some (Z.of_nat j).
Hypothesis Hlat : seg_lateral_inflow !! j = Some L.
Hypothesis Htsi : tsi !! j = Some t.
Hypothesis Ht : t = -1 ∨ 0 < t.
Hypothesis Hts : ts !! j = Some tsq.
Hypothesis Htsq : (tsq == inject_Z (Z.max 1 t))%Q.
Hypothesis Hc0 : c0 !! j = Some c0j.
Hypothesis Hc1 : c1 !! j = Some c1j.
Hypothesis Hc2 : c2 !! j = Some c2j.
Hypothesis Hsum : (c0j + c1j + c2j == 1)%Q.

Local Abbreviation T := (Z.max 1 t).

Lemma day_loop_equilibrium (seg_inflow0 outflow_ts : list Q) (p0 o0 : Q) :
  length seg_inflow0 = n → length outflow_ts = n →
  seg_inflow0 !! j = Some p0 → (p0 == L)%Q →
  outflow_ts !! j = Some o0 → (o0 == L)%Q →
  ∃ st, Kernel.day_loop to_segment seg_lateral_inflow tsi ts c0 c1 c2
          segment_order seg_inflow0 outflow_ts = Ok st
        ∧ day_inv n (λ _, True) st ∧ steady j L 24 (24 mod T) st.
Proof.
  intros Hi0 Hots Hp0 Ep0 Ho0 Eo0.
  assert (j < n)%nat as Hjn.
  { apply lookup_lt_Some in Hp0. lia. }
  assert (0 < T) as HT by lia.
  apply (day_loop_rule n segment_order to_segment seg_lateral_inflow tsi ts
           c0 c1 c2 Hargs
           (λ h st, steady j L h (Z.of_nat h mod T) st)
           (λ h pre st,
              (Z.of_nat j ∈ pre →
               steady j L (S h) ((Z.of_nat h + 1) mod T) st)
              ∧ (Z.of_nat j ∉ pre →
                 steady j L h (Z.of_nat h mod T) st
                 ∧ ∃ u, Kernel.seg_upstream_inflow st !! j = Some u
                        ∧ (u == 0)%Q))).
  - intros h st _ Hd HR. split; [by intros ?%elem_of_nil|]. intros _.
    split; [exact HR|]. cbn. rewrite times_zero_Q. exists 0%Q.
    split; [|done]. apply lookup_replicate_2.
    destruct Hd as (_ & [-> _] & _). done.
  - intros h pre x post st st' Hl _ Hx Hinv [HWin HWout] Hb.
    destruct (segment_body_exact n segment_order to_segment
                seg_lateral_inflow tsi ts c0 c1 c2 Hargs (Z.of_nat h) x st
                Hx Hinv)
      as (l & u & a & b & c & o & tsi_j & to_seg & st2 & w & up' & Hl_x
          & Hu & Ha & Hb_x & Hc & Ho & Htsi_j & Hto_seg & [Hinv1 Hst2] & Hw
          & Hup' & Hbody).
    rewrite Hbody in Hb. injection Hb as <-.
    match type of Hinv1 with
    | seg_inv _ _ ?s => set (st1 := s) in *
    end.
    destruct (route_segment_exact n segment_order to_segment
                seg_lateral_inflow tsi ts c0 c1 c2 Hargs x st1 Hx Hinv1)
      as (b1 & ts_j & tsi_j' & c0_j & c1_j & c2_j & prev & out & Hb1 & Hts_j
          & Htsi_j' & Hc0_j & Hc1_j & Hc2_j & Hprev & Hout & Hroute).
    unfold st1 in Hb1, Hprev, Hout, Hroute, Hst2. clear Hinv1 st1.
    cbn [Kernel.seg_upstream_inflow Kernel.seg_inflow0 Kernel.seg_inflow
         Kernel.seg_outflow Kernel.seg_outflow0 Kernel.inflow_ts
         Kernel.outflow_ts Kernel.seg_current_sum]
      in Hb1, Hprev, Hout, Hroute.
    assert (x ∉ pre) as Hxpre.
    { rewrite Hl in Hnd. apply NoDup_app in Hnd as (_ & Hdis & _).
      intros Hin. apply (Hdis x Hin). by left. }
    assert (length (Kernel.inflow_ts st) = n
            ∧ length (Kernel.outflow_ts st) = n
            ∧ length (Kernel.seg_inflow0 st) = n) as (Hlits & Hlots & Hli0).
    { destruct Hinv as (([? _] & _ & _ & _ & [? _] & [? _] & _) & _).
      done. }
    destruct (decide (x = Z.of_nat j)) as [->|Hne].
    + (* the segment itself *)
      rewrite Nat2Z.id in *.
      split; [intros _|intros Hnin; exfalso; apply Hnin, elem_of_app;
                        right; by left].
      destruct (HWout Hxpre)
        as ((a' & o' & b' & w' & p' & Ha' & Ho' & Hb' & Hw' & Hp' & Ea & Eo
             & Eb & Ew & Ep) & u' & Hu' & Eu).
      rewrite Ha in Ha'. injection Ha' as <-.
      rewrite Ho in Ho'. injection Ho' as <-.
      rewrite Hb_x in Hb'. injection Hb' as <-.
      rewrite Hu in Hu'. injection Hu' as <-.
      rewrite Hl_x in Hlat. injection Hlat as ->.
      rewrite Htsi_j in Htsi. injection Htsi as ->.
      rewrite Htsi_j' in Htsi_j. injection Htsi_j as ->.
      rewrite Hts_j in Hts. injection Hts as ->.
      rewrite Hc0_j in Hc0. injection Hc0 as ->.
      rewrite Hc1_j in Hc1. injection Hc1 as ->.
      rewrite Hc2_j in Hc2. injection Hc2 as ->.
      rewrite Hprev in Hp'. injection Hp' as <-.
      rewrite Hout in Hw'. injection Hw' as <-.
      rewrite list_lookup_insert_eq in Hb1 by lia. injection Hb1 as <-.
      destruct (mod_step (Z.of_nat h) T HT ltac:(lia)) as [Hclose Hopen].
      cbn [Kernel.seg_inflow Kernel.seg_outflow].
      assert ((a + (L + u))%f64 == Qn (S h) * L)%Q as Ea'.
      { cbn [f_add Q_float64]. rewrite !Qred_correct, Qn_S, Ea, Eu. ring. }
      destruct (decide (np_mod (Z.of_nat h + 1) t = 0)) as [Hcl|Hop].
      * rewrite Hroute in Hst2. injection Hst2 as <-.
        cbn [Kernel.outflow_ts Kernel.inflow_ts Kernel.seg_inflow0] in Hw |- *.
        rewrite list_lookup_insert_eq in Hw by lia. injection Hw as <-.
        apply closes_iff in Hcl; [|done].
        assert (((b + (L + u))%f64 / tsq)%f64 == L)%Q as EI.
        { cbn [f_add f_div Q_float64]. rewrite !Qred_correct, Eb, Eu, Htsq.
          rewrite (Hclose Hcl).
          assert (¬ (inject_Z T == 0)%Q) as HT0.
          { unfold Qeq. cbn. lia. }
          replace (T - 1) with (T + -1) by lia. rewrite inject_Z_plus.
          change (inject_Z (-1)) with (-1 # 1)%Q. field. done. }
        assert (closing t ((b + (L + u))%f64 / tsq)%f64 c0j c1j c2j prev out
                == L)%Q as Ew'.
        { unfold closing. destruct (decide (t > 0)); [|done].
          cbn [f_add f_mul Q_float64] in EI |- *.
          rewrite !Qred_correct, EI, Ep, Ew. rewrite !Qred_correct.
          transitivity (L * (c0j + c1j + c2j))%Q; [ring|].
          rewrite Hsum. ring. }
        eexists _, _, _, _, _.
        split; [apply list_lookup_insert_eq; by apply lookup_lt_Some in Ha|].
        split; [apply list_lookup_insert_eq; by apply lookup_lt_Some in Ho|].
        split; [apply list_lookup_insert_eq; rewrite length_insert; lia|].
        split; [apply list_lookup_insert_eq; lia|].
        split; [apply list_lookup_insert_eq; lia|].
        split; [done|]. split.
        { cbn [f_add Q_float64]. rewrite Qred_correct, Eo, Ew', Qn_S. ring. }
        split; [|done]. rewrite Hcl. change (inject_Z 0) with 0%Q.
        change (Qred 0) with 0%Q. ring.
      * rewrite Hst2 in Hw |- *.
        cbn [Kernel.outflow_ts Kernel.inflow_ts Kernel.seg_inflow0] in Hw |- *.
        rewrite Hout in Hw. injection Hw as <-.
        assert ((Z.of_nat h + 1) mod T ≠ 0) as Hop'.
        { intros E. apply Hop. by apply closes_iff. }
        eexists _, _, _, _, _.
        split; [apply list_lookup_insert_eq; by apply lookup_lt_Some in Ha|].
        split; [apply list_lookup_insert_eq; by apply lookup_lt_Some in Ho|].
        split; [apply list_lookup_insert_eq; lia|].
        split; [done|]. split; [done|].
        split; [done|]. split.
        { cbn [f_add Q_float64]. rewrite Qred_correct, Eo, Ew, Qn_S. ring. }
        split; [|done].
        cbn [f_add Q_float64]. rewrite !Qred_correct, Eb, Eu.
        rewrite (Hopen Hop'), inject_Z_plus. change (inject_Z 1) with 1%Q.
        ring.
    + (* another segment: the cells of [j] are untouched *)
      assert (Z.to_nat x ≠ j) as Hne' by lia.
      assert (∀ k m, steady j L k m st →
                steady j L k m
                  {| Kernel.seg_upstream_inflow := up';
                     Kernel.seg_inflow0 := Kernel.seg_inflow0 st2;
                     Kernel.seg_inflow :=
                       <[Z.to_nat x:=(a + (l + u))%f64]> (Kernel.seg_inflow st);
                     Kernel.seg_outflow :=
                       <[Z.to_nat x:=(o + w)%f64]> (Kernel.seg_outflow st);
                     Kernel.seg_outflow0 :=
                       <[Z.to_nat x:=w]> (Kernel.seg_outflow0 st);
                     Kernel.inflow_ts := Kernel.inflow_ts st2;
                     Kernel.outflow_ts := Kernel.outflow_ts st2;
                     Kernel.seg_current_sum :=
                       <[Z.to_nat x:=(c + u)%f64]> (Kernel.seg_current_sum st)
                  |}) as Hframe.
      { intros k m (a' & o' & b' & w' & p' & Ha' & Ho' & Hb' & Hw' & Hp' & E).
        exists a', o', b', w', p'. cbn.
        rewrite !list_lookup_insert_ne by done.
        split; [done|]. split; [done|].
        destruct (decide (np_mod (Z.of_nat h + 1) tsi_j = 0)).
        - rewrite Hroute in Hst2. injection Hst2 as <-. cbn.
          rewrite !list_lookup_insert_ne by done. done.
        - rewrite Hst2. cbn. rewrite !list_lookup_insert_ne by done. done. }
      split.
      * intros Hin. apply Hframe, HWin.
        apply elem_of_app in Hin as [Hin|Hin]; [done|].
        apply list_elem_of_singleton in Hin. lia.
      * intros Hnin.
        assert (Z.of_nat j ∉ pre) as Hnin'.
        { intros Hin. apply Hnin, elem_of_app. by left. }
        destruct (HWout Hnin') as (Hst & u' & Hu' & Eu).
        split; [by apply Hframe|]. exists u'. split; [|done]. cbn.
        destruct (decide (to_seg >= 0)).
        -- destruct Hup' as (e & _ & ->).
           rewrite list_lookup_insert_ne; [done|].
           intros E. apply (Hhead (Z.to_nat x)). rewrite Hto_seg. f_equal.
           lia.
        -- by rewrite Hup'.
  - intros h st _ _ [HWin _]. specialize (HWin Hj).
    by rewrite Nat2Z.inj_succ, <- Z.add_1_r.
  - done.
  - done.
  - exists 0%Q, 0%Q, 0%Q, o0, p0. cbn. rewrite times_zero_Q.
    rewrite !lookup_replicate_2 by lia.
    repeat (split; [done|]). done.
Qed.
End Equilibrium.

(** X17. In exact arithmetic a segment that stands once in the
    segment order, receives from no other segment, has coefficients that
    sum to 1 and a stride that is either -1 or positive with ts equal to
    it, and starts the day with seg_inflow0 and outflow_ts equal to its
    lateral inflow L, ends the day there: the kernel returns seg_inflow,
    seg_outflow, outflow_ts and seg_inflow0 all equal to L. *)
Theorem headwater_equilibrium (n : nat)
        (segment_order to_segment : list Z) (seg_lateral_inflow : list Q)
        (tsi : list Z) (ts c0 c1 c2 seg_inflow0 outflow_ts : list Q)
        (j : nat) (L : Q) (t : Z) (tsq c0j c1j c2j p0 o0 : Q) :
  kernel_args n (λ _, True) segment_order to_segment seg_lateral_inflow
              tsi ts c0 c1 c2 →
  length seg_inflow0 = n → length outflow_ts = n →
  NoDup segment_order → Z.of_nat j ∈ segment_order →
  (∀ i : nat, to_segment !! i ≠ Some (Z.of_nat j)) →
  seg_lateral_inflow !! j = Some L →
  tsi !! j = Some t → t = -1 ∨ 0 < t →
  ts !! j = Some tsq → (tsq == inject_Z (Z.max 1 t))%Q →
  c0 !! j = Some c0j → c1 !! j = Some c1j → c2 !! j = Some c2j →
  (c0j + c1j + c2j == 1)%Q →
  seg_inflow0 !! j = Some p0 → (p0 == L)%Q →
  outflow_ts !! j = Some o0 → (o0 == L)%Q →
  ∃ r a o w p,
    Kernel._muskingum_mann_numpy to_segment seg_lateral_inflow tsi ts
      c0 c1 c2 segment_order seg_inflow0 outflow_ts = Ok r
    ∧ Kernel.seg_inflow r !! j = Some a ∧ (a == L)%Q
    ∧ Kernel.seg_outflow r !! j = Some o ∧ (o == L)%Q
    ∧ Kernel.outflow_ts r !! j = Some w ∧ (w == L)%Q
    ∧ Kernel.seg_inflow0 r !! j = Some p ∧ (p == L)%Q.
Proof.
  intros Hargs Hi0 Hots Hnd Hj Hhead Hlat Htsi Ht Hts Htsq Hc0 Hc1 Hc2 Hsum
         Hp0 Ep0 Ho0 Eo0.
  destruct (day_loop_equilibrium n segment_order to_segment
              seg_lateral_inflow tsi ts c0 c1 c2 Hargs Hnd j L t tsq
              c0j c1j c2j Hj Hhead Hlat Htsi Ht Hts Htsq Hc0 Hc1 Hc2 Hsum
              seg_inflow0 outflow_ts p0 o0 Hi0 Hots Hp0 Ep0 Ho0 Eo0)
    as (st & Hst & _ & a & o & b & w & p & Ha & Ho & _ & Hw & Hp & Ea & Eo
        & _ & Ew & Ep).
  unfold Kernel._muskingum_mann_numpy. rewrite Hst. cbn [mbind result_bind].
  eexists _, _, _, w, p. split; [done|].
  cbn [Kernel.daily_means Kernel.seg_inflow Kernel.seg_outflow
       Kernel.outflow_ts Kernel.seg_inflow0].
  rewrite !list_lookup_fmap, Ha, Ho. cbn [fmap option_fmap option_map].
  split; [done|]. split.
  { cbn [f_div f_lit Q_float64]. rewrite !Qred_correct, Ea.
    unfold Qn. cbn. field. }
  split; [done|]. split.
  { cbn [f_div f_lit Q_float64]. rewrite !Qred_correct, Eo.
    unfold Qn. cbn. field. }
  done.
Qed.

(** ** The mass balance of a step *)

(** A step of an engine that satisfies the invariant is a run of the
    reference kernel on the aggregated lateral inflow, the stored
    daily-mean inflow and the stored outflow_ts. *)
Lemma step_is_reference_kernel (numba fortran : Engine.kernel_type (F:=Q))
      (e e' : Engine.t (F:=Q)) (s_per_time : Q) :
  engine_ok e →
  Engine._calculate numba fortran (Engine._advance_variables e) s_per_time
  = Ok e' →
  let p := Engine.params e in
  let n := Params.nsegment p in
  ∃ r, kernel_args n (λ _ : Q, True) (Engine._segment_order e)
         (Params.tosegment p) (Engine.seg_lateral_inflow e')
         (Engine._tsi e) (Engine._ts e) (Engine._c0 e) (Engine._c1 e)
         (Engine._c2 e)
       ∧ length (Engine._seg_inflow e) = n
       ∧ length (Engine._outflow_ts e) = n
       ∧ Kernel._muskingum_mann_numpy (Params.tosegment p)
           (Engine.seg_lateral_inflow e') (Engine._tsi e) (Engine._ts e)
           (Engine._c0 e) (Engine._c1 e) (Engine._c2 e)
           (Engine._segment_order e) (Engine._seg_inflow e)
           (Engine._outflow_ts e) = Ok r
       ∧ Engine._seg_inflow e' = Kernel.seg_inflow r
       ∧ Engine.seg_outflow e' = Kernel.seg_outflow r
       ∧ Engine.seg_upstream_inflow e' = Kernel.seg_upstream_inflow r.
Proof.
  intros (Hcm & Horder & Hto & Htsi & Hts & Hc0 & Hc1 & Hc2 & Hin & Hots
          & Hlat & Hhru & Hrange) Hcalc.
  cbv zeta in *.
  set (p := Engine.params e) in *. set (n := Params.nsegment p) in *.
  unfold Engine._calculate in Hcalc.
  cbn [Engine._advance_variables Engine.params Engine.sroff_vol
       Engine.ssres_flow_vol Engine.gwres_flow_vol Engine.seg_lateral_inflow
       Engine._calc_method Engine._segment_order Engine._seg_inflow0
       Engine._outflow_ts Engine._tsi Engine._ts Engine._c0 Engine._c1
       Engine._c2 Engine._outflow_mask] in Hcalc.
  fold p in Hcalc.
  apply bind_Ok_inv in Hcalc as (lat & Hlatr & Hcalc).
  apply bind_Ok_inv in Hcalc as (kernel & Hk & Hcalc).
  apply bind_Ok_inv in Hcalc as (r & Hr & Hcalc).
  assert (kernel = Engine.numpy_kernel) as ->.
  { revert Hk. unfold Engine.select_kernel. cbv zeta.
    rewrite decide_False by (destruct Hcm as [-> | ->]; discriminate).
    rewrite decide_True by done. by intros [= <-]. }
  unfold Engine.numpy_kernel in Hr.
  assert (length (Engine.l_seg_lateral_inflow lat) = n) as Hlat'.
  { unfold Engine.lateral_flow in Hlatr.
    apply (foldM_inv _ (λ _ st, length (Engine.l_seg_lateral_inflow st) = n))
      in Hlatr; [done|cbn; by rewrite length_fmap|].
    intros pre x post st st' _ Hst Hbody. unfold Engine.lateral_body in Hbody.
    apply bind_Ok_inv in Hbody as (v & _ & Hbody).
    destruct (decide (v < 0)).
    - apply bind_Ok_inv in Hbody as (a & _ & Hbody).
      apply bind_Ok_inv in Hbody as (b & _ & Hbody).
      apply bind_Ok_inv in Hbody as (c & _ & Hbody).
      by injection Hbody as <-.
    - apply bind_Ok_inv in Hbody as (a & _ & Hbody).
      apply bind_Ok_inv in Hbody as (b & _ & Hbody).
      apply bind_Ok_inv in Hbody as (c & _ & Hbody).
      cbv zeta in Hbody. apply bind_Ok_inv in Hbody as (l & Hl & Hbody).
      injection Hbody as <-. cbn. unfold moditem in Hl.
      apply bind_Ok_inv in Hl as (y & _ & Hl). unfold setitem in Hl.
      apply bind_Ok_inv in Hl as (k & _ & Hl). injection Hl as <-.
      by rewrite length_insert. }
  injection Hcalc as <-. cbn. exists r.
  split; [|by destruct Hin, Hots].
  unfold kernel_args, array_of in *.
  repeat split; try tauto; by apply Forall_true.
Qed.

(** X18. In exact arithmetic, after a step of an engine that
    satisfies [engine_ok] and whose segment order has no repetition and
    lists upstream before downstream (what the builder yields on two
    segments or more): for every segment of the order the stored inflow
    is seg_lateral_inflow plus seg_upstream_inflow, and
    seg_upstream_inflow is the sum of seg_outflow over the segments that
    drain to it. *)
Theorem step_mass_balance (numba fortran : Engine.kernel_type (F:=Q))
        (e e' : Engine.t (F:=Q)) (s_per_time : Q) :
  let p := Engine.params e in
  let n := Params.nsegment p in
  engine_ok e →
  NoDup (Engine._segment_order e) →
  (∀ l1 v l2 u, Engine._segment_order e = l1 ++ v :: l2 →
                Network.drains_to n (Params.tosegment p) u v → u ∈ l1) →
  Engine._calculate numba fortran (Engine._advance_variables e) s_per_time
  = Ok e' →
  ∀ j, j ∈ Engine._segment_order e →
    ∃ a l u, Engine._seg_inflow e' !! Z.to_nat j = Some a
             ∧ Engine.seg_lateral_inflow e' !! Z.to_nat j = Some l
             ∧ Engine.seg_upstream_inflow e' !! Z.to_nat j = Some u
             ∧ (a == l + u)%Q
             ∧ (u == upstream_total (Params.tosegment p)
                       (Engine.seg_outflow e') j)%Q.
Proof.
  intros p n Hok Hnd Hfirst Hcalc j Hj.
  destruct (step_is_reference_kernel numba fortran e e' s_per_time Hok Hcalc)
    as (r & Hargs & Hli & Hlo & Hr & -> & -> & ->).
  fold p n in Hargs, Hli, Hlo, Hr.
  assert (0 ≤ j < Z.of_nat n) as Hjr.
  { destruct Hargs as (Horder & _). by eapply Forall_forall in Horder. }
  destruct (kernel_inflow_balance n _ _ _ _ _ _ _ _ _ _ Hargs Hli Hlo Hnd)
    as (r1 & Hr1 & Hbal).
  rewrite Hr in Hr1. injection Hr1 as <-.
  destruct (kernel_continuity n _ _ _ _ _ _ _ _ _ _ Hargs Hli Hlo Hnd Hfirst)
    as (r2 & Hr2 & Hcont).
  rewrite Hr in Hr2. injection Hr2 as <-.
  destruct (Hbal (Z.to_nat j) ltac:(lia)) as (a & u & l & Ha & Hu & Hl & E & _).
  destruct (Hcont j Hj) as (u' & Hu' & Eu).
  rewrite Hu in Hu'. injection Hu' as <-.
  exists a, l, u. repeat (split; [done|]). split; [|done].
  apply E. by rewrite Z2Nat.id by lia.
Qed.

(** ** What a step never touches *)


(** ** Segments where the water stands *)

Lemma Q_K_at_stagnant (LAKE t : Z) (len v : Q) :
  (v <= 0)%Q → K_at LAKE t len v = 24%Q.
Proof.
  intros Hv. unfold K_at. cbv zeta.
  assert ((f_lit 0%Q <? v)%f64 = false) as -> by (by apply Q_ltb_false).
  by destruct (decide (t = LAKE)).
Qed.

Lemma float_K_at_stagnant (LAKE t : Z) (len v : float) :
  PrimFloat.ltb 0%float v = false → K_at LAKE t len v = 24%float.
Proof.
  intros Hv. unfold K_at. cbv zeta.
  assert ((f_lit 0%Q <? v)%f64 = false) as -> by exact Hv.
  by destruct (decide (t = LAKE)).
Qed.

(** X20. A segment whose velocity is not greater than zero gets
    K = 24 and the stride of a whole day (ts = 24.0, tsi = 24), whatever
    its length and type: in exact arithmetic for a velocity <= 0, and in
    IEEE arithmetic for every velocity for which 0.0 < velocity is
    false, a NaN included. *)
Theorem stagnant_segment_gets_a_day (LAKE : Z) (n : nat)
        (segment_type : list Z) :
  (∀ (seg_length velocity : list Q) (i : nat) (v k : Q),
     velocity !! i = Some v → (v <= 0)%Q →
     Precond.Kcoef_of LAKE n segment_type seg_length velocity !! i = Some k →
     k = 24%Q ∧ Precond.band k = (24%Q, 24))
  ∧ (∀ (seg_length velocity : list float) (i : nat) (v k : float),
       velocity !! i = Some v → PrimFloat.ltb 0%float v = false →
       Precond.Kcoef_of LAKE n segment_type seg_length velocity !! i
       = Some k →
       k = 24%float ∧ Precond.band k = (24%float, 24)).
Proof.
  split.
  - intros seg_length velocity i v k Hv Hle Hk.
    apply Kcoef_of_lookup in Hk as (t & len & v' & _ & _ & Hv' & ->).
    rewrite Hv in Hv'. injection Hv' as <-.
    by rewrite Q_K_at_stagnant.
  - intros seg_length velocity i v k Hv Hle Hk.
    apply Kcoef_of_lookup in Hk as (t & len & v' & _ & _ & Hv' & ->).
    rewrite Hv in Hv'. injection Hv' as <-.
    by rewrite float_K_at_stagnant.
Qed.

(** ** An HRU mapped outside the network *)

(** X21. In every float64 arithmetic: construction does not look at
    hru_segment, and on an engine that constructed from parameters in
    which one of the first nhru HRUs has a one-based hru_segment greater
    than nsegment, _calculate raises IndexError, before and after
    _advance_variables, whatever the kernel is. *)
Theorem unmapped_hru_fails_every_step {F} `{Float64 F}
        np_sqrt np_power LAKE nan
        (numba fortran : Engine.kernel_type (F:=F)) (p : Params.t F)
        (sroff ssres gwres : list F) (cm : option string)
        (self : Engine.t (F:=F)) (s_per_time : F) :
  Engine.__init__ np_sqrt np_power LAKE nan p sroff ssres gwres cm
  = Ok self →
  (Params.nhru p ≤ length (Params.hru_segment p))%nat →
  (Params.nhru p ≤ length sroff)%nat →
  (Params.nhru p ≤ length ssres)%nat →
  (Params.nhru p ≤ length gwres)%nat →
  (∃ (h : nat) v, (h < Params.nhru p)%nat
                  ∧ Params.hru_segment p !! h = Some v
                  ∧ Z.of_nat (Params.nsegment p) < v) →
  Engine._calculate numba fortran self s_per_time = Raise IndexError
  ∧ Engine._calculate numba fortran (Engine._advance_variables self)
      s_per_time = Raise IndexError.
Proof.
  intros Hinit Hh Ha Hb Hc (h & v & Hlt & Hv & Hgt).
  apply init_fields in Hinit
    as (_ & _ & Hp & _ & _ & _ & _ & _ & _ & _ & _ & Hsa & Hsb & Hsc & Hlat
        & _).
  cbv zeta in Hp, Hlat.
  destruct (lateral_flow_outcome (Params.nhru p)
              (Network.rebase (Params.hru_segment p)) s_per_time
              sroff ssres gwres (Engine.seg_lateral_inflow self))
    as [Hfail _]; try done.
  { unfold Network.rebase. by rewrite length_fmap. }
  assert (Engine.lateral_flow (Params.nhru p)
            (Network.rebase (Params.hru_segment p)) s_per_time
            sroff ssres gwres (Engine.seg_lateral_inflow self)
          = Raise IndexError) as Hraise.
  { apply Hfail. exists h, (v - 1). split; [done|]. split.
    - unfold Network.rebase. by rewrite list_lookup_fmap, Hv.
    - rewrite Hlat, length_replicate. lia. }
  unfold Engine._calculate.
  cbn [Engine._advance_variables Engine.params Engine.sroff_vol
       Engine.ssres_flow_vol Engine.gwres_flow_vol
       Engine.seg_lateral_inflow].
  rewrite Hp, Hsa, Hsb, Hsc. cbn [Params.nhru Params.hru_segment].
  by rewrite Hraise.
Qed.

(** ** Closed instances

    The hypotheses of the properties above, met on small networks. *)

Lemma junction_args :
  kernel_args 3 (λ _ : Q, True) [0; 1] junction_to junction_lat junction_tsi
              junction_ts junction_c0 junction_c1 junction_c2.
Proof.
  unfold kernel_args, array_of. cbn.
  repeat split; repeat constructor; lia.
Qed.

Lemma junction_order : NoDup [0; 1].
Proof.
  apply NoDup_cons_2; [|apply NoDup_singleton].
  rewrite list_elem_of_singleton. lia.
Qed.

Lemma junction_upstream_first (l1 : list Z) (v : Z) (l2 : list Z) (u : Z) :
  [0; 1] = l1 ++ v :: l2 → Network.drains_to 3 junction_to u v → u ∈ l1.
Proof.
  intros Hl (Hu & Hto & Hv).
  assert (u = 0 ∨ u = 1 ∨ u = 2) as [->|[->| ->]] by lia;
    cbn in Hto; injection Hto as <-; try lia.
  destruct l1 as [|a [|b l1]]; cbn in Hl.
  - injection Hl as Hl _. lia.
  - injection Hl as <- _. by left.
  - injection Hl as _ _ Hl. by destruct l1.
Qed.

Lemma inflow_is_lateral_plus_upstream_witness :
  ∃ r, junction_day [0%Q; 0%Q; 0%Q] [0%Q; 0%Q; 0%Q] = Ok r
       ∧ ∀ j : nat, (j < 3)%nat →
           ∃ a u l, Kernel.seg_inflow r !! j = Some a
                    ∧ Kernel.seg_upstream_inflow r !! j = Some u
                    ∧ junction_lat !! j = Some l
                    ∧ (Z.of_nat j ∈ [0; 1] → (a == l + u)%Q)
                    ∧ (Z.of_nat j ∉ [0; 1] → (a == u)%Q).
Proof.
  apply (inflow_is_lateral_plus_upstream 3 [0; 1] junction_to junction_lat
           junction_tsi junction_ts junction_c0 junction_c1 junction_c2
           [0%Q; 0%Q; 0%Q] [0%Q; 0%Q; 0%Q] junction_args eq_refl eq_refl
           junction_order).
Defined.

Lemma pass_through_outflow_is_inflow_witness :
  ∃ r q, junction_day [0%Q; 0%Q; 0%Q] [0%Q; 0%Q; 0%Q] = Ok r
         ∧ Kernel.seg_outflow r !! 1%nat = Some q
         ∧ Kernel.seg_inflow r !! 1%nat = Some q.
Proof.
  apply (pass_through_outflow_is_inflow 3 [0; 1] junction_to junction_lat
           junction_tsi junction_ts junction_c0 junction_c1 junction_c2
           [0%Q; 0%Q; 0%Q] [0%Q; 0%Q; 0%Q] 1 junction_args eq_refl eq_refl
           eq_refl eq_refl).
Defined.

Lemma upstream_inflow_is_upstream_outflow_witness :
  ∃ r, junction_day [0%Q; 0%Q; 0%Q] [0%Q; 0%Q; 0%Q] = Ok r
       ∧ ∀ j, j ∈ [0; 1] →
           ∃ u, Kernel.seg_upstream_inflow r !! Z.to_nat j = Some u
                ∧ (u == upstream_total junction_to (Kernel.seg_outflow r) j)%Q.
Proof.
  apply (upstream_inflow_is_upstream_outflow 3 [0; 1] junction_to
           junction_lat junction_tsi junction_ts junction_c0 junction_c1
           junction_c2 [0%Q; 0%Q; 0%Q] [0%Q; 0%Q; 0%Q] junction_args
           eq_refl eq_refl junction_order junction_upstream_first).
Defined.

Lemma headwater_equilibrium_witness :
  ∃ r a o w p,
    junction_day [1%Q; 0%Q; 0%Q] [1%Q; 0%Q; 0%Q] = Ok r
    ∧ Kernel.seg_inflow r !! 0%nat = Some a ∧ (a == 1)%Q
    ∧ Kernel.seg_outflow r !! 0%nat = Some o ∧ (o == 1)%Q
    ∧ Kernel.outflow_ts r !! 0%nat = Some w ∧ (w == 1)%Q
    ∧ Kernel.seg_inflow0 r !! 0%nat = Some p ∧ (p == 1)%Q.
Proof.
  apply (headwater_equilibrium 3 [0; 1] junction_to junction_lat
           junction_tsi junction_ts junction_c0 junction_c1 junction_c2
           [1%Q; 0%Q; 0%Q] [1%Q; 0%Q; 0%Q] 0 1%Q 4 4%Q (1 # 6)%Q (1 # 2)%Q
           (1 # 3)%Q 1%Q 1%Q junction_args eq_refl eq_refl junction_order);
    try reflexivity.
  - by left.
  - intros [|[|[|i]]]; vm_compute; discriminate.
  - right. lia.
Defined.

(** The invariant on the two-segment chain. *)
Lemma chain2_engine_ok (self : Engine.t (F:=Q)) :
  chain2_engine None = Ok self → engine_ok self ∧ inputs_ok self.
Proof.
  intros Hself.
  destruct (init_engine_ok q_sqrt q_power 2 0%Q chain2
              [86400%Q; 0%Q] [0%Q; 0%Q] [0%Q; 0%Q] None self)
    as (Hok & Ha & Hb & Hc & Hn); try reflexivity; try done.
  - cbn. lia.
  - split; [reflexivity|].
    cbn. repeat constructor; apply Qle_bool_imp_le; reflexivity.
  - cbn. repeat constructor; apply Qle_bool_imp_le; reflexivity.
  - cbn. repeat constructor; lia.
  - by left.
  - split; [done|]. unfold inputs_ok. rewrite Ha, Hb, Hc, Hn. cbn.
    repeat split; try lia;
      repeat constructor; apply Qle_bool_imp_le; reflexivity.
Qed.

Lemma construction_establishes_invariant_witness :
  ∃ self, chain2_engine None = Ok self ∧ engine_ok self.
Proof.
  destruct (chain2_engine None) as [self|] eqn:Hself;
    [|vm_compute in Hself; discriminate].
  exists self. split; [done|].
  refine (proj1 (construction_establishes_invariant q_sqrt q_power 2 0%Q
                   chain2 [86400%Q; 0%Q] [0%Q; 0%Q] [0%Q; 0%Q] None self
                   _ eq_refl eq_refl eq_refl eq_refl eq_refl eq_refl eq_refl
                   _ _ _ _ _ Hself)).
  - cbn. lia.
  - split; [reflexivity|].
    cbn. repeat constructor; apply Qle_bool_imp_le; reflexivity.
  - cbn. repeat constructor; apply Qle_bool_imp_le; reflexivity.
  - cbn. lia.
  - cbn. repeat constructor; lia.
  - by left.
Defined.

Lemma flows_stay_nonneg_witness :
  ∃ self e', chain2_engine None = Ok self
             ∧ run no_kernel no_kernel 3 self 86400%Q = Ok e'
             ∧ Forall (λ v, (0 <= v)%Q) (Engine.seg_outflow e').
Proof.
  destruct (chain2_engine None) as [self|] eqn:Hself;
    [|vm_compute in Hself; discriminate].
  destruct (chain2_engine_ok self Hself) as [Hok Hin].
  destruct (flows_stay_nonneg no_kernel no_kernel self 86400%Q 2
              eq_refl Hok Hin) as (e' & He' & _ & _ & Hout & _).
  by exists self, e'.
Defined.

Lemma pass_through_stores_nothing_witness :
  ∃ self e', chain2_engine None = Ok self ∧ chain2_step self = Ok e'
             ∧ ∀ i : nat, Engine._outflow_mask self !! i = Some false →
                 (i < Params.nsegment (Engine.params self))%nat →
                 Engine.channel_outflow_vol e' !! i = Some 0%Q.
Proof.
  destruct (chain2_engine None) as [self|] eqn:Hself;
    [|vm_compute in Hself; discriminate].
  destruct (chain2_engine_ok self Hself) as [Hok Hin].
  destruct (step_ok no_kernel no_kernel self 86400%Q eq_refl Hok Hin)
    as (e' & He' & _).
  exists self, e'. split; [done|]. split; [done|].
  exact (proj1 (proj2 (pass_through_stores_nothing no_kernel no_kernel
                         self e' 86400%Q Hok He'))).
Defined.

Lemma step_mass_balance_witness :
  ∃ self e', chain2_engine None = Ok self ∧ chain2_step self = Ok e'
             ∧ ∀ j, j ∈ Engine._segment_order self →
                 ∃ a l u,
                   Engine._seg_inflow e' !! Z.to_nat j = Some a
                   ∧ Engine.seg_lateral_inflow e' !! Z.to_nat j = Some l
                   ∧ Engine.seg_upstream_inflow e' !! Z.to_nat j = Some u
                   ∧ (a == l + u)%Q
                   ∧ (u == upstream_total
                             (Params.tosegment (Engine.params self))
                             (Engine.seg_outflow e') j)%Q.
Proof.
  destruct (chain2_engine None) as [self|] eqn:Hself;
    [|vm_compute in Hself; discriminate].
  destruct (chain2_engine_ok self Hself) as [Hok Hin].
  destruct (step_ok no_kernel no_kernel self 86400%Q eq_refl Hok Hin)
    as (e' & He' & _).
  exists self, e'. split; [done|]. split; [done|].
  apply (step_mass_balance no_kernel no_kernel self e' 86400%Q Hok);
    [| |done].
  - vm_compute in Hself. injection Hself as <-. cbn. apply junction_order.
  - vm_compute in Hself. injection Hself as <-. cbn.
    intros l1 v l2 u Hl (Hu & Hto & Hv).
    assert (u = 0 ∨ u = 1) as [->| ->] by lia;
      cbn in Hto; injection Hto as <-; try lia.
    destruct l1 as [|a [|b l1]]; cbn in Hl.
    + injection Hl as Hl _. lia.
    + injection Hl as <- _. by left.
    + injection Hl as _ _ Hl. by destruct l1.
Defined.


Lemma unmapped_hru_fails_every_step_witness :
  ∃ self, Engine.__init__ q_sqrt q_power 2 0%Q stray_hru
            [86400%Q; 0%Q] [0%Q; 0%Q] [0%Q; 0%Q] None = Ok self
          ∧ chain2_step self = Raise IndexError.
Proof.
  destruct (Engine.__init__ q_sqrt q_power 2 0%Q stray_hru
              [86400%Q; 0%Q] [0%Q; 0%Q] [0%Q; 0%Q] None)
    as [self|] eqn:Hself; [|vm_compute in Hself; discriminate].
  exists self. split; [done|].
  refine (proj2 (unmapped_hru_fails_every_step q_sqrt q_power 2 0%Q
                   no_kernel no_kernel stray_hru
                   [86400%Q; 0%Q] [0%Q; 0%Q] [0%Q; 0%Q] None self 86400%Q
                   Hself _ _ _ _ _)); cbn; try lia.
  exists 1%nat, 4. cbn. split; [lia|]. split; [done|lia].
Defined.
